(** * speechXml: conversion between NVDA speech sequences and XML

    A shallow embedding of [source/speechXml.py]: the XML escaper, the tag
    balancer [XmlBalancer], the SSML converter [SsmlConverter] and the SSML
    parser [SsmlParser], followed by the properties proved about them.

    Python strings are sequences of Unicode code points, so a string is a
    list of code points ([pystr]); [u] embeds an ASCII literal.  Python
    floats are binary64 values, modelled by Rocq's primitive floats. *)

From Stdlib Require Import ZArith List Bool String Ascii Lia.
From Stdlib Require Import PrimFloat SpecFloat FloatOps.
From Stdlib Require FloatAxioms.
From Stdlib Require Import DecimalPos.
Import ListNotations.

Set Warnings "-inexact-float,-register-all".
Local Open Scope Z_scope.
Local Open Scope list_scope.

(** ** Strings *)

Definition pystr := list Z.

Definition u (s : string) : pystr :=
  map (fun a => Z.of_N (N_of_ascii a)) (list_ascii_of_string s).

(** The double quote character, code point 0x22. *)
Definition dquote : pystr := [34].

Fixpoint pystr_eqb (a b : pystr) : bool :=
  match a, b with
  | [], [] => true
  | x :: a', y :: b' => (x =? y) && pystr_eqb a' b'
  | _, _ => false
  end.

(** Truth value of a string: the empty string is false. *)
Definition truthy (s : pystr) : bool :=
  match s with [] => false | _ :: _ => true end.

(** [str.replace(old, new)] for one-character [old] and [new]. *)
Definition replace_char (old new : Z) (s : pystr) : pystr :=
  map (fun c => if c =? old then new else c) s.

(** ** Decimal numerals: [str(int)], ["%d" % int] and [int(digits)] *)

Fixpoint digits_of_uint (d : Decimal.uint) : pystr :=
  match d with
  | Decimal.Nil => []
  | Decimal.D0 r => 48 :: digits_of_uint r
  | Decimal.D1 r => 49 :: digits_of_uint r
  | Decimal.D2 r => 50 :: digits_of_uint r
  | Decimal.D3 r => 51 :: digits_of_uint r
  | Decimal.D4 r => 52 :: digits_of_uint r
  | Decimal.D5 r => 53 :: digits_of_uint r
  | Decimal.D6 r => 54 :: digits_of_uint r
  | Decimal.D7 r => 55 :: digits_of_uint r
  | Decimal.D8 r => 56 :: digits_of_uint r
  | Decimal.D9 r => 57 :: digits_of_uint r
  end.

Definition str_of_int (z : Z) : pystr :=
  match Z.to_int z with
  | Decimal.Pos d => digits_of_uint d
  | Decimal.Neg d => 45 :: digits_of_uint d
  end.

(** The regular expression class [\d], on ASCII: the digits 0 to 9.  Decimal
    digits of other scripts are outside this model. *)
Definition is_digit (c : Z) : bool := (48 <=? c) && (c <=? 57).

Definition digit_cons (c : Z) (r : Decimal.uint) : Decimal.uint :=
  match c - 48 with
  | 0 => Decimal.D0 r
  | 1 => Decimal.D1 r
  | 2 => Decimal.D2 r
  | 3 => Decimal.D3 r
  | 4 => Decimal.D4 r
  | 5 => Decimal.D5 r
  | 6 => Decimal.D6 r
  | 7 => Decimal.D7 r
  | 8 => Decimal.D8 r
  | _ => Decimal.D9 r
  end.

(** The numeral written by a string of digits. *)
Fixpoint uint_of_digits (s : pystr) : Decimal.uint :=
  match s with
  | [] => Decimal.Nil
  | c :: r => digit_cons c (uint_of_digits r)
  end.

(** The number written by a string of digits [s]. *)
Definition int_of_digits (s : pystr) : Z := Z.of_uint (uint_of_digits s).

(** ** Exceptions *)

Inductive pyexn :=
| ValueError (msg : pystr)
| OverflowError (msg : pystr)
| IndexError (msg : pystr)
| TypeError (msg : pystr).

Inductive result (A : Type) :=
| Ok (a : A)
| Raise (e : pyexn).
Arguments Ok {A} a.
Arguments Raise {A} e.

(** ** Conversions between ints and strings

    Python converts between ints and decimal strings up to
    [sys.int_max_str_digits] digits, 4300 unless it is set otherwise, and
    raises ValueError beyond: the sign does not count, leading zeros do. *)

Definition int_max_str_digits : Z := 4300.

(** The digits of an int, without its sign. *)
Definition digits_of_int (z : Z) : pystr :=
  match Z.to_int z with
  | Decimal.Pos d => digits_of_uint d
  | Decimal.Neg d => digits_of_uint d
  end.

Definition use_set_int_max_str_digits : pystr :=
  u "; use sys.set_int_max_str_digits() to increase the limit".

(** ["%d" % z], for an int [z]. *)
Definition format_int (z : Z) : result pystr :=
  if Z.of_nat (List.length (digits_of_int z)) <=? int_max_str_digits
  then Ok (str_of_int z)
  else Raise (ValueError (u "Exceeds the limit (4300 digits) for integer string conversion"
                            ++ use_set_int_max_str_digits)).

(** [int(s)] for a string of digits [s]; the program applies it to what
    [\d+] matched only. *)
Definition py_int_of_digits (s : pystr) : result Z :=
  if Z.of_nat (List.length s) <=? int_max_str_digits
  then Ok (int_of_digits s)
  else Raise (ValueError (u "Exceeds the limit (4300 digits) for integer string conversion: "
                            ++ u "value has " ++ str_of_int (Z.of_nat (List.length s))
                            ++ u " digits" ++ use_set_int_max_str_digits)).

(** ** Floats *)

(** [int(f)]: truncation toward zero; Python raises ValueError for a NaN and
    OverflowError for an infinity. *)
Definition py_int (f : float) : result Z :=
  match Prim2SF f with
  | S754_zero _ => Ok 0
  | S754_finite s m e =>
      let a := if 0 <=? e then Z.pos m * 2 ^ e else Z.pos m / 2 ^ (- e) in
      Ok (if s then - a else a)
  | S754_infinity _ => Raise (OverflowError (u "cannot convert float infinity to integer"))
  | S754_nan => Raise (ValueError (u "cannot convert float NaN to integer"))
  end.

(** The binary64 value nearest to the rational [n / d] (ties to even), for
    [0 <= n] and [0 < d]: a quotient with at least 65 significant bits is
    computed, a non-zero remainder is recorded in its last bit, and the
    result is rounded once. *)
Definition float_of_ratio (n d : Z) : float :=
  let s := Z.max 0 (66 + Z.log2 d - Z.log2 n) in
  let q := (n * 2 ^ s) / d in
  let q' := if (n * 2 ^ s) mod d =? 0 then q else Z.lor q 1 in
  SF2Prim (binary_normalize prec emax q' (- s) false).

(** [float(s)] for [s] matched by [\d+(\.\d+)?]: [ip] are the digits before
    the point and [fp] those after it. *)
Definition float_of_decimal (ip fp : pystr) : float :=
  float_of_ratio (int_of_digits (ip ++ fp)) (10 ^ Z.of_nat (List.length fp)).

(** ** Ordered dictionaries

    [OrderedDict] and [dict] keep insertion order, and the balancer relies on
    it: a dictionary is an association list in insertion order.  Assigning
    to a key that is present keeps its place. *)

Definition odict (V : Type) := list (pystr * V).

Fixpoint od_get {V : Type} (d : odict V) (k : pystr) : option V :=
  match d with
  | [] => None
  | (k', v) :: r => if pystr_eqb k' k then Some v else od_get r k
  end.

Fixpoint od_set {V : Type} (d : odict V) (k : pystr) (v : V) : odict V :=
  match d with
  | [] => [(k, v)]
  | (k', v') :: r =>
      if pystr_eqb k' k then (k', v) :: r else (k', v') :: od_set r k v
  end.

Fixpoint od_del {V : Type} (d : odict V) (k : pystr) : odict V :=
  match d with
  | [] => []
  | (k', v') :: r =>
      if pystr_eqb k' k then r else (k', v') :: od_del r k
  end.

Definition od_keys {V : Type} (d : odict V) : list pystr := map fst d.

(** Attribute values: "Attribute values could be ints, floats etc, not just
    strings"; the converter produces strings and ints. *)
Inductive pyval :=
| VStr (s : pystr)
| VInt (z : Z).

Definition pyval_eqb (a b : pyval) : bool :=
  match a, b with
  | VStr s, VStr t => pystr_eqb s t
  | VInt x, VInt y => x =? y
  | _, _ => false
  end.

(** [str(val)], for the values that [str] converts: of an int of more than
    4300 digits it raises ValueError, as [format_int] does. *)
Definition py_str (v : pyval) : pystr :=
  match v with
  | VStr s => s
  | VInt z => str_of_int z
  end.

(** ** The escaper *)

Definition XML_ESCAPES (c : Z) : option pystr :=
  if c =? 0x3C then Some (u "&lt;")
  else if c =? 0x3E then Some (u "&gt;")
  else if c =? 0x26 then Some (u "&amp;")
  else if c =? 0x22 then Some (u "&quot;")
  else None.

(** [str.translate(table)]. *)
Definition translate (table : Z -> option pystr) (text : pystr) : pystr :=
  flat_map (fun c => match table c with Some r => r | None => [c] end) text.

Definition in_range (lo hi c : Z) : bool := (lo <=? c) && (c <=? hi).

(** The ranges of [_buildInvalidXmlRegexp], both ends inclusive. *)
Definition invalid_ranges : list (Z * Z) :=
  [ (0x00, 0x08); (0x0B, 0x0C); (0x0E, 0x1F); (0x7F, 0x84); (0x86, 0x9F);
    (0xFDD0, 0xFDDF); (0xFFFE, 0xFFFF) ].

Definition in_invalid_range (c : Z) : bool :=
  existsb (fun r => in_range (fst r) (snd r) c) invalid_ranges.

Definition leadingSurrogate (c : Z) : bool := in_range 0xD800 0xDBFF c.
Definition trailingSurrogate (c : Z) : bool := in_range 0xDC00 0xDFFF c.

(** Modelled from the spec: [textUtils.REPLACEMENT_CHAR], the "single
    defined replacement character" (U+FFFD); [textUtils] is not among the
    sources. *)
Definition REPLACEMENT_CHAR : pystr := [0xFFFD].

(** Whether [RE_INVALID_XML_CHARS] matches the character [c], standing
    between [prev] and [next]. *)
Definition invalid_at (prev : option Z) (c : Z) (next : option Z) : bool :=
  in_invalid_range c
  || (leadingSurrogate c
      && negb (match next with Some n => trailingSurrogate n | None => false end))
  || (trailingSurrogate c
      && negb (match prev with Some p => leadingSurrogate p | None => false end)).

(** [RE_INVALID_XML_CHARS.sub(REPLACEMENT_CHAR, text)]; [prev] is the
    character before [text] in the whole string. *)
Fixpoint sub_invalid (prev : option Z) (text : pystr) : pystr :=
  match text with
  | [] => []
  | c :: rest =>
      (if invalid_at prev c (hd_error rest) then REPLACEMENT_CHAR else [c])
        ++ sub_invalid (Some c) rest
  end.

Definition _escapeXml (text : pystr) : pystr :=
  sub_invalid None (translate XML_ESCAPES text).

Definition toXmlLang (nvdaLang : pystr) : pystr := replace_char 95 45 nvdaLang.
Definition toNvdaLang (xmlLang : pystr) : pystr := replace_char 45 95 xmlLang.

(** ** Balancer commands *)

Inductive balcmd :=
| Text (text : pystr)
| EncloseAllCommand (tag : pystr) (attrs : odict pyval)
| SetAttrCommand (tag attr : pystr) (val : pyval)
| DelAttrCommand (tag attr : pystr)
| EncloseTextCommand (tag : pystr) (attrs : odict pyval)
| StopEnclosingTextCommand
| StandAloneTagCommand (tag : pystr) (attrs : odict pyval) (content : option pystr).

(** What the balancer appends to its output.  [_openTag] appends the pieces
    of one start tag (or empty-element tag), [_closeTag] one end tag and
    [_text] one run of escaped text; the output is kept at that grain and
    rendered to the string at the end. *)
Inductive token :=
| TOpen (tag : pystr) (attrs : odict pyval) (empty : bool)
| TClose (tag : pystr)
| TText (escaped : pystr).

Definition render_attr (av : pystr * pyval) : pystr :=
  u " " ++ fst av ++ u "=" ++ dquote ++ _escapeXml (py_str (snd av)) ++ dquote.

Definition render_token (t : token) : pystr :=
  match t with
  | TOpen tag attrs empty =>
      u "<" ++ tag ++ flat_map render_attr attrs
        ++ (if empty then u "/>" else u ">")
  | TClose tag => u "</" ++ tag ++ u ">"
  | TText s => s
  end.

Definition render (out : list token) : pystr := flat_map render_token out.

(** ** XmlBalancer *)

Module XmlBalancer.

Record t := mk {
  _out : list token;
  _enclosingAllTags : list pystr;
  _tagsChanged : bool;
  _openTags : list pystr;
  _tags : odict (odict pyval);
  _tagEnclosingText : option (pystr * odict pyval)
}.

Definition __init__ : t := mk [] [] false [] [] None.

(** [self._out.append(...)], for the pieces of one token. *)
Definition emit (self : t) (tok : token) : t :=
  mk (_out self ++ [tok]) (_enclosingAllTags self) (_tagsChanged self)
     (_openTags self) (_tags self) (_tagEnclosingText self).

Definition _openTag (self : t) (tag : pystr) (attrs : odict pyval) (empty : bool) : t :=
  emit self (TOpen tag attrs empty).

Definition _closeTag (self : t) (tag : pystr) : t :=
  emit self (TClose tag).

(** The text, escaped, inside the tag enclosing text when there is one
    ([if tag:], a tag that is not the empty string). *)
Definition _text (self : t) (text : pystr) : t :=
  match _tagEnclosingText self with
  | Some (tag, attrs) =>
      if truthy tag then
        _closeTag (emit (_openTag self tag attrs false) (TText (_escapeXml text))) tag
      else emit self (TText (_escapeXml text))
  | None => emit self (TText (_escapeXml text))
  end.

(** The balancer with new values of [_tags] and [_tagsChanged]. *)
Definition with_tags (self : t) (tags : odict (odict pyval)) (changed : bool) : t :=
  mk (_out self) (_enclosingAllTags self) changed (_openTags self) tags
     (_tagEnclosingText self).

(** [attrs] are the attributes in force for the tag, a new dictionary
    stored under the tag when there are none; the attribute is assigned,
    and the tags marked as changed, when its value differs from [val]. *)
Definition _setAttr (self : t) (tag attr : pystr) (val : pyval) : t :=
  let '(attrs, tags) :=
    match od_get (_tags self) tag with
    | Some ((_ :: _) as a) => (a, _tags self)
    | _ => ([], od_set (_tags self) tag [])
    end in
  let differs :=
    match od_get attrs attr with
    | Some v => negb (pyval_eqb v val)
    | None => true
    end in
  if differs then with_tags self (od_set tags tag (od_set attrs attr val)) true
  else with_tags self tags (_tagsChanged self).

(** Nothing happens when the tag has no attributes or not this one; else
    the attribute is deleted, and the tag with its last attribute. *)
Definition _delAttr (self : t) (tag attr : pystr) : t :=
  match od_get (_tags self) tag with
  | Some ((_ :: _) as attrs) =>
      match od_get attrs attr with
      | None => self
      | Some _ =>
          match od_del attrs attr with
          | [] => with_tags self (od_del (_tags self) tag) true
          | attrs' => with_tags self (od_set (_tags self) tag attrs') true
          end
      end
  | _ => self
  end.

(** "Just close all open tags and reopen any existing or new ones." *)
Definition _outputTags (self : t) : t :=
  if _tagsChanged self then
    let closed := fold_left _closeTag (rev (_openTags self)) self in
    let opened :=
      fold_left (fun s ta => _openTag s (fst ta) (snd ta) false) (_tags self) closed in
    mk (_out opened) (_enclosingAllTags self) false (od_keys (_tags self))
       (_tags self) (_tagEnclosingText self)
  else self.

(** One turn of the loop of [generateXml]. *)
Definition feed (self : t) (command : balcmd) : t :=
  match command with
  | Text text => _text (_outputTags self) text
  | EncloseAllCommand tag attrs =>
      let s := _openTag self tag attrs false in
      mk (_out s) (_enclosingAllTags s ++ [tag]) (_tagsChanged s) (_openTags s)
         (_tags s) (_tagEnclosingText s)
  | SetAttrCommand tag attr val => _setAttr self tag attr val
  | DelAttrCommand tag attr => _delAttr self tag attr
  | EncloseTextCommand tag attrs =>
      mk (_out self) (_enclosingAllTags self) (_tagsChanged self) (_openTags self)
         (_tags self) (Some (tag, attrs))
  | StopEnclosingTextCommand =>
      mk (_out self) (_enclosingAllTags self) (_tagsChanged self) (_openTags self)
         (_tags self) None
  | StandAloneTagCommand tag attrs content =>
      let s := _outputTags self in
      match content with
      | Some ((_ :: _) as c) => _closeTag (_text (_openTag s tag attrs false) c) tag
      | _ => _openTag s tag attrs true
      end
  end.

(** The code after the loop: "Close any open tags." *)
Definition close (self : t) : t :=
  fold_left _closeTag (_enclosingAllTags self)
    (fold_left _closeTag (rev (_openTags self)) self).

(** The tokens of the output of [generateXml]. *)
Definition tokens (commands : list balcmd) : list token :=
  _out (close (fold_left feed commands __init__)).

Definition generateXml (commands : list balcmd) : pystr :=
  render (tokens commands).

End XmlBalancer.

(** ** Speech sequences *)

(** Modelled from the spec: the speech commands of [speech.commands], which
    is not among the sources: Index(value), CharacterMode(enabled),
    LangChange(optional language), Break(duration in ms),
    Pitch/Rate/Volume(multiplier), Phoneme(ipa, fallback text) and
    Callback.  A Callback built by the parser is identified by its name; its
    action runs the mark callback when the command is executed. *)
Inductive SpeechCommand :=
| IndexCommand (index : Z)
| CharacterModeCommand (state : bool)
| LangChangeCommand (lang : option pystr)
| BreakCommand (time : Z)
| PitchCommand (multiplier : float)
| RateCommand (multiplier : float)
| VolumeCommand (multiplier : float)
| PhonemeCommand (ipa : pystr) (text : option pystr)
| CallbackCommand (name : pystr).

(** An element of a speech sequence: a string, a speech command, or an
    object that is neither.  Of the latter a tuple is told apart by its
    length, since the message that the converter logs for such an object is
    formatted with the operator [%], which takes a tuple as the list of its
    arguments; [Unknown] is any other object. *)
Inductive item :=
| Str (s : pystr)
| Cmd (c : SpeechCommand)
| Unknown
| UnknownTuple (length : nat).

Definition SpeechSequence := list item.

(** [type(a) is type(b)] on commands. *)
Definition same_type (a b : SpeechCommand) : bool :=
  match a, b with
  | IndexCommand _, IndexCommand _ => true
  | CharacterModeCommand _, CharacterModeCommand _ => true
  | LangChangeCommand _, LangChangeCommand _ => true
  | BreakCommand _, BreakCommand _ => true
  | PitchCommand _, PitchCommand _ => true
  | RateCommand _, RateCommand _ => true
  | VolumeCommand _, VolumeCommand _ => true
  | PhonemeCommand _ _, PhonemeCommand _ _ => true
  | CallbackCommand _, CallbackCommand _ => true
  | _, _ => false
  end.

Definition opt_eqb (a b : option pystr) : bool :=
  match a, b with
  | None, None => true
  | Some x, Some y => pystr_eqb x y
  | _, _ => false
  end.

(** Modelled from the spec: [==] on speech commands, "structural/value
    equality of the command, not identity"; multipliers compare as floats.
    Two Callback commands wrap distinct closures and are never equal. *)
Definition cmd_eqb (a b : SpeechCommand) : bool :=
  match a, b with
  | IndexCommand x, IndexCommand y => x =? y
  | CharacterModeCommand x, CharacterModeCommand y => Bool.eqb x y
  | LangChangeCommand x, LangChangeCommand y => opt_eqb x y
  | BreakCommand x, BreakCommand y => x =? y
  | PitchCommand x, PitchCommand y => PrimFloat.eqb x y
  | RateCommand x, RateCommand y => PrimFloat.eqb x y
  | VolumeCommand x, VolumeCommand y => PrimFloat.eqb x y
  | PhonemeCommand i s, PhonemeCommand j t => pystr_eqb i j && opt_eqb s t
  | _, _ => false
  end.

(** ** Logging *)

Inductive logrec :=
| UnsupportedCommand (c : SpeechCommand)
| UnknownSpeech
| UnsupportedTag (tagName : pystr)
| UnknownBreakAttributes (attrs : odict pystr)
| UnparseableProsodyValue (attr val : pystr)
| UnknownProsodyAttribute (attr : pystr).

(** ** SpeechXmlConverter *)

(** What a generator of balancer commands does when it is run to its end:
    the commands it yields, the records it logs, and the exception that ends
    it, if any. *)
Record generated := mkGenerated {
  yielded : list balcmd;
  logged : list logrec;
  raised : option pyexn
}.

Definition yield (command : balcmd) (g : generated) : generated :=
  mkGenerated (command :: yielded g) (logged g) (raised g).

Definition logging (r : logrec) (g : generated) : generated :=
  mkGenerated (yielded g) (r :: logged g) (raised g).

Module SpeechXmlConverter.

Section Converter.

(** The methods [convert<ClassName>] of the subclass: [None] when the
    class has no method for the command, else what the method returns. *)
Variable convert : SpeechCommand -> option (result (option balcmd)).

Fixpoint generateBalancerCommands (speechSequence : SpeechSequence) : generated :=
  match speechSequence with
  | [] => mkGenerated [] [] None
  | Str s :: rest => yield (Text s) (generateBalancerCommands rest)
  | Cmd c :: rest =>
      match convert c with
      | None => mkGenerated [] [UnsupportedCommand c] None
      | Some (Raise e) => mkGenerated [] [] (Some e)
      | Some (Ok None) => generateBalancerCommands rest
      | Some (Ok (Some command)) => yield command (generateBalancerCommands rest)
      end
  | Unknown :: rest => logging UnknownSpeech (generateBalancerCommands rest)
  | UnknownTuple length :: rest =>
      (* "Unknown speech: %r" % item, with one conversion in the format *)
      match length with
      | 1%nat => logging UnknownSpeech (generateBalancerCommands rest)
      | 0%nat =>
          mkGenerated [] [] (Some (TypeError (u "not enough arguments for format string")))
      | _ =>
          mkGenerated [] []
            (Some (TypeError (u "not all arguments converted during string formatting")))
      end
  end.

End Converter.

(** [convertToXml], for the [generateBalancerCommands] of the class of
    [self]. *)
Definition convertToXml (generateBalancerCommands : SpeechSequence -> generated)
    (speechSequence : SpeechSequence) : result pystr :=
  let balCommands := generateBalancerCommands speechSequence in
  match raised balCommands with
  | Some e => Raise e
  | None => Ok (XmlBalancer.generateXml (yielded balCommands))
  end.

End SpeechXmlConverter.

(** ** SsmlConverter *)

Module SsmlConverter.

Record t := mk { defaultLanguage : pystr }.

Definition __init__ (defaultLanguage : pystr) : t := mk (toXmlLang defaultLanguage).

Definition convertIndexCommand (index : Z) : balcmd :=
  StandAloneTagCommand (u "mark") [(u "name", VInt index)] None.

Definition convertCharacterModeCommand (state : bool) : balcmd :=
  if state then EncloseTextCommand (u "say-as") [(u "interpret-as", VStr (u "characters"))]
  else StopEnclosingTextCommand.

Definition convertLangChangeCommand (self : t) (lang : option pystr) : balcmd :=
  let lang :=
    match lang with
    | Some ((_ :: _) as l) => l
    | _ => defaultLanguage self
    end in
  SetAttrCommand (u "voice") (u "xml:lang") (VStr (toXmlLang lang)).

Definition convertBreakCommand (time : Z) : result balcmd :=
  match format_int time with
  | Ok digits =>
      Ok (StandAloneTagCommand (u "break") [(u "time", VStr (digits ++ u "ms"))] None)
  | Raise e => Raise e
  end.

Definition _convertProsody (multiplier : float) (attr : pystr) : result balcmd :=
  if PrimFloat.eqb multiplier 1 then Ok (DelAttrCommand (u "prosody") attr)
  else
    match py_int (multiplier * 100)%float with
    | Ok n => Ok (SetAttrCommand (u "prosody") attr (VStr (str_of_int n ++ u "%")))
    | Raise e => Raise e
    end.

Definition convertPitchCommand (multiplier : float) := _convertProsody multiplier (u "pitch").
Definition convertRateCommand (multiplier : float) := _convertProsody multiplier (u "rate").
Definition convertVolumeCommand (multiplier : float) := _convertProsody multiplier (u "volume").

Definition convertPhonemeCommand (ipa : pystr) (text : option pystr) : balcmd :=
  StandAloneTagCommand (u "phoneme") [(u "alphabet", VStr (u "ipa")); (u "ph", VStr ipa)] text.

Definition returning (r : result balcmd) : result (option balcmd) :=
  match r with
  | Ok command => Ok (Some command)
  | Raise e => Raise e
  end.

(** [getattr(self, "convert%s" % name, None)] and its call: the class has
    no method for a Callback command. *)
Definition convert (self : t) (command : SpeechCommand) : option (result (option balcmd)) :=
  match command with
  | IndexCommand index => Some (Ok (Some (convertIndexCommand index)))
  | CharacterModeCommand state => Some (Ok (Some (convertCharacterModeCommand state)))
  | LangChangeCommand lang => Some (Ok (Some (convertLangChangeCommand self lang)))
  | BreakCommand time => Some (returning (convertBreakCommand time))
  | PitchCommand m => Some (returning (convertPitchCommand m))
  | RateCommand m => Some (returning (convertRateCommand m))
  | VolumeCommand m => Some (returning (convertVolumeCommand m))
  | PhonemeCommand ipa text => Some (Ok (Some (convertPhonemeCommand ipa text)))
  | CallbackCommand _ => None
  end.

Definition speakAttrs (self : t) : odict pyval :=
  [ (u "version", VStr (u "1.0"));
    (u "xmlns", VStr (u "http://www.w3.org/2001/10/synthesis"));
    (u "xml:lang", VStr (defaultLanguage self)) ].

Definition generateBalancerCommands (self : t) (speechSequence : SpeechSequence) : generated :=
  yield (EncloseAllCommand (u "speak") (speakAttrs self))
    (SpeechXmlConverter.generateBalancerCommands (convert self) speechSequence).

Definition convertToXml (self : t) (speechSequence : SpeechSequence) : result pystr :=
  SpeechXmlConverter.convertToXml (generateBalancerCommands self) speechSequence.

End SsmlConverter.

(** ** SpeechXmlParser *)

(** What the expat parser reports to its handlers. *)
Inductive xmlevent :=
| StartElement (name : pystr) (attrs : odict pystr)
| EndElement (name : pystr)
| CharacterData (data : pystr).

(** [str.title()] on ASCII letters: a letter that follows a letter is put in
    lower case, any other letter in upper case.  Characters outside ASCII
    are taken as they are. *)
Definition is_upper (c : Z) : bool := in_range 65 90 c.
Definition is_lower (c : Z) : bool := in_range 97 122 c.
Definition is_cased (c : Z) : bool := is_upper c || is_lower c.
Definition to_upper (c : Z) : Z := if is_lower c then c - 32 else c.
Definition to_lower (c : Z) : Z := if is_upper c then c + 32 else c.

Fixpoint title_from (prevCased : bool) (s : pystr) : pystr :=
  match s with
  | [] => []
  | c :: r => (if prevCased then to_lower c else to_upper c) :: title_from (is_cased c) r
  end.

Definition title (s : pystr) : pystr := title_from false s.

(** ["".join(tagName.title().split("-"))]: splitting at the hyphens and
    joining the parts leaves the title-cased name without its hyphens. *)
Definition processedTagName (tagName : pystr) : pystr :=
  filter (fun c => negb (c =? 45)) (title tagName).

Definition item_has_type (command : SpeechCommand) (it : item) : bool :=
  match it with
  | Cmd c => same_type c command
  | _ => false
  end.

(** The body of the loop of [_elementHandler], for one command produced by
    the handler of the tag. *)
Definition add_command (speechSequence : SpeechSequence) (command : SpeechCommand)
    : SpeechSequence :=
  let speechSequence :=
    match speechSequence with
    | [] => speechSequence
    | _ :: _ =>
        if item_has_type command (last speechSequence Unknown)
        then removelast speechSequence
        else speechSequence
    end in
  let prevCommand := find (item_has_type command) (rev speechSequence) in
  let differs :=
    match prevCommand with
    | Some (Cmd c) => negb (cmd_eqb c command)
    | _ => true
    end in
  if differs then speechSequence ++ [Cmd command] else speechSequence.

Module SpeechXmlParser.

Record t := mk {
  _speechSequence : SpeechSequence;
  _cachedProsodyAttrs : list (odict pystr);
  log : list logrec
}.

Definition set_sequence (self : t) (s : SpeechSequence) : t :=
  mk s (_cachedProsodyAttrs self) (log self).

Definition debugWarning (self : t) (r : logrec) : t :=
  mk (_speechSequence self) (_cachedProsodyAttrs self) (log self ++ [r]).

Section Parser.

(** The generators [parse<Tag>] of the subclass, by processed tag name:
    [None] when the class has no such method; else the generator, which
    is given the attributes ([None] for an end tag) and the parser, and
    returns the commands it yields with the parser afterwards. *)
Variable parse :
  pystr -> option (option (odict pystr) -> t -> result (list SpeechCommand * t)).

Definition _elementHandler (self : t) (tagName : pystr) (attrs : option (odict pystr))
    : result t :=
  match parse (processedTagName tagName) with
  | None => Ok (debugWarning self (UnsupportedTag tagName))
  | Some func =>
      match func attrs self with
      | Raise e => Raise e
      | Ok (commands, self) =>
          Ok (set_sequence self (fold_left add_command commands (_speechSequence self)))
      end
  end.

(** One call of a handler by the parser. *)
Definition handle (self : t) (ev : xmlevent) : result t :=
  match ev with
  | StartElement name attrs => _elementHandler self name (Some attrs)
  | EndElement name => _elementHandler self name None
  | CharacterData data => Ok (set_sequence self (_speechSequence self ++ [Str data]))
  end.

Fixpoint handle_all (self : t) (events : list xmlevent) : result t :=
  match events with
  | [] => Ok self
  | ev :: rest =>
      match handle self ev with
      | Ok self => handle_all self rest
      | Raise e => Raise e
      end
  end.

(** [convertFromXml].  The expat parser is not part of the program:
    [Parse xml] is the list of events that [parser.Parse(xml)] reports,
    [None] when it raises an error itself.  An exception of a handler
    leaves [parser.Parse] as well; either is caught and raised again as
    ValueError("XML: " + xml). *)
Definition convertFromXml (Parse : pystr -> option (list xmlevent))
    (cachedProsodyAttrs : list (odict pystr)) (xml : pystr) : result SpeechSequence :=
  match Parse xml with
  | None => Raise (ValueError (u "XML: " ++ xml))
  | Some events =>
      match handle_all (mk [] cachedProsodyAttrs []) events with
      | Raise _ => Raise (ValueError (u "XML: " ++ xml))
      | Ok self => Ok (_speechSequence self)
      end
  end.

End Parser.

End SpeechXmlParser.

(** ** SsmlParser *)

(** [RE_TIME_MS], [^(?P<time>\d+)ms$] ignoring case: the digits of the group
    when the value matches.  The end anchor also matches before a final
    newline, and ignoring case the letter s also matches U+017F. *)
Definition chomp (s : pystr) : pystr :=
  match rev s with
  | 10 :: r => rev r
  | _ => s
  end.

Definition RE_TIME_MS (val : pystr) : option pystr :=
  match rev (chomp val) with
  | s :: m :: d :: r =>
      if ((s =? 115) || (s =? 83) || (s =? 0x17F)) && ((m =? 109) || (m =? 77))
         && forallb is_digit (d :: r)
      then Some (rev (d :: r))
      else None
  | _ => None
  end.

(** The longest prefix of digits of a string, and the rest. *)
Fixpoint span_digits (s : pystr) : pystr * pystr :=
  match s with
  | c :: r =>
      if is_digit c then let '(ds, rest) := span_digits r in (c :: ds, rest)
      else ([], s)
  | [] => ([], [])
  end.

(** [RE_PERCENTAGE], [^(?P<percentage>\d+(\.\d+)?)%$]: the digits before and
    after the point of the group when the value matches. *)
Definition RE_PERCENTAGE (val : pystr) : option (pystr * pystr) :=
  match span_digits (chomp val) with
  | ((_ :: _) as ip, [37]) => Some (ip, [])
  | ((_ :: _) as ip, 46 :: rest) =>
      match span_digits rest with
      | ((_ :: _) as fp, [37]) => Some (ip, fp)
      | _ => None
      end
  | _ => None
  end.

Module SsmlParser.

Import SpeechXmlParser.

(** The part of the parser object that [__init__] sets: whether a mark
    callback was given.  The callback itself is only called when a Callback
    command is executed later.  The part that [convertFromXml] and the
    handlers change is [SpeechXmlParser.t]. *)
Record self_t := mk { _markCallback : bool }.

Definition generator := option (odict pystr) -> t -> result (list SpeechCommand * t).

Definition parseSayAs : generator := fun attrs self =>
  let state :=
    match attrs with
    | Some attrs =>
        match od_get attrs (u "interpret-as") with
        | Some v => pystr_eqb v (u "characters")
        | None => false
        end
    | None => false
    end in
  Ok ([CharacterModeCommand state], self).

Definition parseVoice : generator := fun attrs self =>
  match attrs with
  | None => Ok ([], self)
  | Some attrs =>
      match od_get attrs (u "xml:lang") with
      | None => Ok ([], self)
      | Some xmlLang => Ok ([LangChangeCommand (Some (toNvdaLang xmlLang))], self)
      end
  end.

Definition parseBreak : generator := fun attrs self =>
  match attrs with
  | None => Ok ([], self)
  | Some attrs =>
      match od_get attrs (u "time") with
      | None => Ok ([], self)
      | Some val =>
          match RE_TIME_MS val with
          | None => Ok ([], debugWarning self (UnknownBreakAttributes attrs))
          | Some digits =>
              match py_int_of_digits digits with
              | Ok time => Ok ([BreakCommand time], self)
              | Raise e => Raise e
              end
          end
      end
  end.

(** The loop of [parseProsody] over the attributes. *)
Fixpoint prosodyCommands (isOpenTag : bool) (attrs : odict pystr) (self : t)
    : list SpeechCommand * t :=
  match attrs with
  | [] => ([], self)
  | (attr, val) :: rest =>
      match RE_PERCENTAGE val with
      | None =>
          prosodyCommands isOpenTag rest (debugWarning self (UnparseableProsodyValue attr val))
      | Some (ip, fp) =>
          let multiplier :=
            if isOpenTag then (float_of_decimal ip fp / 100)%float else 1%float in
          if pystr_eqb attr (u "pitch") then
            let '(cs, self) := prosodyCommands isOpenTag rest self in
            (PitchCommand multiplier :: cs, self)
          else if pystr_eqb attr (u "volume") then
            let '(cs, self) := prosodyCommands isOpenTag rest self in
            (VolumeCommand multiplier :: cs, self)
          else if pystr_eqb attr (u "rate") then
            let '(cs, self) := prosodyCommands isOpenTag rest self in
            (RateCommand multiplier :: cs, self)
          else
            prosodyCommands isOpenTag rest (debugWarning self (UnknownProsodyAttribute attr))
      end
  end.

Definition parseProsody : generator := fun attrs self =>
  match attrs with
  | Some attrs =>
      let self := SpeechXmlParser.mk (_speechSequence self)
                    (_cachedProsodyAttrs self ++ [attrs]) (log self) in
      Ok (prosodyCommands true attrs self)
  | None =>
      match _cachedProsodyAttrs self with
      | [] => Raise (IndexError (u "pop from empty list"))
      | _ :: _ =>
          let attrs := last (_cachedProsodyAttrs self) [] in
          let self := SpeechXmlParser.mk (_speechSequence self)
                        (removelast (_cachedProsodyAttrs self)) (log self) in
          Ok (prosodyCommands false attrs self)
      end
  end.

Definition parseSpeak : generator := fun attrs self => Ok ([], self).

Definition parseMark (this : self_t) : generator := fun attrs self =>
  match attrs with
  | None => Ok ([], self)
  | Some attrs =>
      match od_get attrs (u "name") with
      | None => Ok ([], self)
      | Some name =>
          if _markCallback this
          then Ok ([CallbackCommand (u "SsmlMark_" ++ name)], self)
          else Ok ([], self)
      end
  end.

(** [getattr(self, funcName, None)]: the generators of the class. *)
Definition parse (this : self_t) (processed : pystr) : option generator :=
  if pystr_eqb processed (u "SayAs") then Some parseSayAs
  else if pystr_eqb processed (u "Voice") then Some parseVoice
  else if pystr_eqb processed (u "Break") then Some parseBreak
  else if pystr_eqb processed (u "Prosody") then Some parseProsody
  else if pystr_eqb processed (u "Speak") then Some parseSpeak
  else if pystr_eqb processed (u "Mark") then Some (parseMark this)
  else None.

Definition convertFromXml (Parse : pystr -> option (list xmlevent)) (this : self_t)
    (xml : pystr) : result SpeechSequence :=
  SpeechXmlParser.convertFromXml (parse this) Parse [] xml.

End SsmlParser.

(** ** A reference reader of XML events

    The expat parser is a parameter of [convertFromXml].  To run the parser
    of the program on inputs, this reader computes the events of an input
    written in the fragment of XML that the balancer emits: one root
    element; start tags, end tags and empty-element tags with attributes in
    double quotes; character data; and the references [&lt;], [&gt;],
    [&amp;], [&quot;] and [&apos;].  It reports a run of character data as
    one event (expat may report it in several), and [None], an error, for
    anything else. *)

Inductive readmode :=
| InContent (text : pystr)
| InReference (text : pystr) (ref : pystr)
| InTagStart
| InStartName (name : pystr)
| InEndName (name : pystr)
| InAttributes (name : pystr) (attrs : odict pystr)
| InAttrName (name : pystr) (attrs : odict pystr) (attr : pystr)
| InAttrQuote (name : pystr) (attrs : odict pystr) (attr : pystr)
| InAttrValue (name : pystr) (attrs : odict pystr) (attr : pystr) (val : pystr)
| InAttrReference (name : pystr) (attrs : odict pystr) (attr : pystr) (val : pystr) (ref : pystr)
| InEmptyTag (name : pystr) (attrs : odict pystr).

Record reader := mkReader {
  mode : readmode;
  open : list pystr;
  rootSeen : bool;
  events : list xmlevent
}.

Definition reference_char (ref : pystr) : option Z :=
  if pystr_eqb ref (u "lt") then Some 60
  else if pystr_eqb ref (u "gt") then Some 62
  else if pystr_eqb ref (u "amp") then Some 38
  else if pystr_eqb ref (u "quot") then Some 34
  else if pystr_eqb ref (u "apos") then Some 39
  else None.

Definition is_space (c : Z) : bool := (c =? 32) || (c =? 9) || (c =? 10) || (c =? 13).

Definition is_name_char (c : Z) : bool :=
  negb (is_space c || (c =? 60) || (c =? 62) || (c =? 47) || (c =? 61) || (c =? 34)
        || (c =? 38) || (c =? 39)).

(** The event for pending character data; character data outside the root
    element is refused. *)
Definition flush_text (r : reader) (text : pystr) : option (list xmlevent) :=
  match text, open r with
  | [], _ => Some (events r)
  | _ :: _, [] => None
  | _ :: _, _ :: _ => Some (events r ++ [CharacterData text])
  end.

Definition start_element (r : reader) (name : pystr) (attrs : odict pystr) (empty : bool)
    : option reader :=
  match name with
  | [] => None
  | _ :: _ =>
      match open r, rootSeen r with
      | [], true => None
      | _, _ =>
          if empty
          then Some (mkReader (InContent []) (open r) true
                       (events r ++ [StartElement name attrs; EndElement name]))
          else Some (mkReader (InContent []) (name :: open r) true
                       (events r ++ [StartElement name attrs]))
      end
  end.

Definition read_char (r : reader) (c : Z) : option reader :=
  let continue m := Some (mkReader m (open r) (rootSeen r) (events r)) in
  match mode r with
  | InContent text =>
      if c =? 60 then
        match flush_text r text with
        | Some evs => Some (mkReader InTagStart (open r) (rootSeen r) evs)
        | None => None
        end
      else if c =? 38 then continue (InReference text [])
      else if c =? 62 then None
      else continue (InContent (text ++ [c]))
  | InReference text ref =>
      if c =? 59 then
        match reference_char ref with
        | Some x => continue (InContent (text ++ [x]))
        | None => None
        end
      else continue (InReference text (ref ++ [c]))
  | InTagStart =>
      if c =? 47 then continue (InEndName [])
      else if is_name_char c then continue (InStartName [c])
      else None
  | InStartName name =>
      if is_name_char c then continue (InStartName (name ++ [c]))
      else if is_space c then continue (InAttributes name [])
      else if c =? 62 then start_element r name [] false
      else if c =? 47 then continue (InEmptyTag name [])
      else None
  | InEndName name =>
      if is_name_char c then continue (InEndName (name ++ [c]))
      else if c =? 62 then
        match open r with
        | top :: rest =>
            if pystr_eqb top name
            then Some (mkReader (InContent []) rest (rootSeen r) (events r ++ [EndElement name]))
            else None
        | [] => None
        end
      else None
  | InAttributes name attrs =>
      if is_space c then continue (InAttributes name attrs)
      else if c =? 62 then start_element r name attrs false
      else if c =? 47 then continue (InEmptyTag name attrs)
      else if is_name_char c then continue (InAttrName name attrs [c])
      else None
  | InAttrName name attrs attr =>
      if is_name_char c then continue (InAttrName name attrs (attr ++ [c]))
      else if c =? 61 then continue (InAttrQuote name attrs attr)
      else None
  | InAttrQuote name attrs attr =>
      if c =? 34 then continue (InAttrValue name attrs attr []) else None
  | InAttrValue name attrs attr val =>
      if c =? 34 then
        match od_get attrs attr with
        | Some _ => None
        | None => continue (InAttributes name (attrs ++ [(attr, val)]))
        end
      else if c =? 38 then continue (InAttrReference name attrs attr val [])
      else if c =? 60 then None
      else continue (InAttrValue name attrs attr (val ++ [c]))
  | InAttrReference name attrs attr val ref =>
      if c =? 59 then
        match reference_char ref with
        | Some x => continue (InAttrValue name attrs attr (val ++ [x]))
        | None => None
        end
      else continue (InAttrReference name attrs attr val (ref ++ [c]))
  | InEmptyTag name attrs =>
      if c =? 62 then start_element r name attrs true else None
  end.

Fixpoint read_chars (r : reader) (xml : pystr) : option reader :=
  match xml with
  | [] => Some r
  | c :: rest =>
      match read_char r c with
      | Some r => read_chars r rest
      | None => None
      end
  end.

Definition new_reader : reader := mkReader (InContent []) [] false [].

(** The events reported for an input by a call of the parser that is not
    final, as [parser.Parse(xml)] is: at the end of the input, character
    data inside an element is reported, an unfinished tag or reference is
    left pending, and elements that are still open are no error. *)
Definition readEvents (xml : pystr) : option (list xmlevent) :=
  match read_chars new_reader xml with
  | Some r =>
      match mode r with
      | InContent text => flush_text r text
      | _ => Some (events r)
      end
  | None => None
  end.

(** The events of an input read as a whole document, as a final call of the
    parser reads it: the root element must have been read and closed. *)
Definition readDocument (xml : pystr) : option (list xmlevent) :=
  match read_chars new_reader xml with
  | Some r =>
      match mode r, open r, rootSeen r with
      | InContent [], [], true => Some (events r)
      | _, _, _ => None
      end
  | None => None
  end.

(** ** Documents as trees, and the events of a document *)

Inductive xmlnode :=
| Element (name : pystr) (attrs : odict pystr) (children : list xmlnode)
| CData (data : pystr).

Fixpoint events_of (n : xmlnode) : list xmlevent :=
  match n with
  | Element name attrs children =>
      StartElement name attrs :: flat_map events_of children ++ [EndElement name]
  | CData data => [CharacterData data]
  end.

(** ** Properties of the balancer *)

(** The value of an attribute of a tag that is in force in the balancer. *)
Definition in_force (self : XmlBalancer.t) (tag attr : pystr) : option pyval :=
  match od_get (XmlBalancer._tags self) tag with
  | Some attrs => od_get attrs attr
  | None => None
  end.

(** A command that leaves the tag enclosing text as it is. *)
Definition keeps_enclosing (command : balcmd) : bool :=
  match command with
  | EncloseTextCommand _ _ => false
  | StopEnclosingTextCommand => false
  | _ => true
  end.

(** Reading tokens against the stack of open elements, innermost first:
    a start tag is pushed, an end tag must name the innermost open element
    and pops it, an empty-element tag and text leave the stack.  [None]
    when an end tag does not match. *)
Fixpoint nesting (stack : list pystr) (toks : list token) : option (list pystr) :=
  match toks with
  | [] => Some stack
  | TOpen tag _ false :: rest => nesting (tag :: stack) rest
  | TOpen _ _ true :: rest => nesting stack rest
  | TText _ :: rest => nesting stack rest
  | TClose tag :: rest =>
      match stack with
      | top :: below => if pystr_eqb top tag then nesting below rest else None
      | [] => None
      end
  end.

(** Well-formed output: every start tag has its end tag, and end tags come
    in the reverse order of their start tags. *)
Definition well_formed (toks : list token) : bool :=
  match nesting [] toks with
  | Some [] => true
  | _ => false
  end.

Definition is_enclose_all (command : balcmd) : bool :=
  match command with
  | EncloseAllCommand _ _ => true
  | _ => false
  end.

(** At most one EncloseAll command, and it is the first command. *)
Definition enclose_all_first (commands : list balcmd) : bool :=
  forallb (fun c => negb (is_enclose_all c)) (tl commands).

(** The invariant of the loop of [generateXml]: read from the start, the
    output so far leaves open the enclosing tags and, inside them, the open
    tags. *)
Definition nested (self : XmlBalancer.t) : Prop :=
  nesting [] (XmlBalancer._out self)
  = Some (rev (XmlBalancer._openTags self) ++ rev (XmlBalancer._enclosingAllTags self)).

(** The tokens that the balancer appends to its output after it was fed the
    commands [before], when it goes on with the commands [after] and then
    closes the open tags. *)
Definition emitted_after (before after : list balcmd) : list token :=
  skipn (List.length (XmlBalancer._out (fold_left XmlBalancer.feed before XmlBalancer.__init__)))
        (XmlBalancer.tokens (before ++ after)).

(** A start tag of [tag] that carries the attribute [attr]. *)
Definition opens_with (tag attr : pystr) (tok : token) : bool :=
  match tok with
  | TOpen t attrs _ =>
      pystr_eqb t tag && match od_get attrs attr with Some _ => true | None => false end
  | _ => false
  end.

(** A start tag of [tag]. *)
Definition opens (tag : pystr) (tok : token) : bool :=
  match tok with
  | TOpen t _ _ => pystr_eqb t tag
  | _ => false
  end.

(** The command does not use [tag] as the tag of an EncloseAll, EncloseText
    or StandAloneTag command. *)
Definition literal_ok (tag : pystr) (command : balcmd) : bool :=
  match command with
  | EncloseAllCommand t _ => negb (pystr_eqb t tag)
  | EncloseTextCommand t _ => negb (pystr_eqb t tag)
  | StandAloneTagCommand t _ _ => negb (pystr_eqb t tag)
  | _ => true
  end.

(** The command neither uses [tag] as a literal tag nor sets the attribute
    [attr] of [tag]. *)
Definition leaves_attr (tag attr : pystr) (command : balcmd) : bool :=
  literal_ok tag command
  && match command with
     | SetAttrCommand t a _ => negb (pystr_eqb t tag && pystr_eqb a attr)
     | _ => true
     end.

(** The command neither uses [tag] as a literal tag nor sets an attribute of
    [tag]. *)
Definition leaves_tag (tag : pystr) (command : balcmd) : bool :=
  literal_ok tag command
  && match command with
     | SetAttrCommand t _ _ => negb (pystr_eqb t tag)
     | _ => true
     end.

(** The state of the balancer with respect to one tag: the tags in force
    have distinct names, the attributes in force for [tag] satisfy [Q], and
    [tag] is not the tag enclosing text. *)
Definition scoped (tag : pystr) (Q : odict pyval -> Prop) (self : XmlBalancer.t) : Prop :=
  NoDup (od_keys (XmlBalancer._tags self))
  /\ (forall attrs, od_get (XmlBalancer._tags self) tag = Some attrs -> Q attrs)
  /\ (forall etag eattrs,
        XmlBalancer._tagEnclosingText self = Some (etag, eattrs) -> etag <> tag).

(** A token that is not a start tag of [tag] with attributes outside [Q]. *)
Definition token_in (tag : pystr) (Q : odict pyval -> Prop) (tok : token) : Prop :=
  forall attrs empty, tok = TOpen tag attrs empty -> Q attrs.

(** A step of the balancer from [self] to [self'] that keeps the state
    scoped and appends tokens within [Q]. *)
Definition step_within (tag : pystr) (Q : odict pyval -> Prop)
    (self self' : XmlBalancer.t) : Prop :=
  scoped tag Q self'
  /\ exists toks,
       XmlBalancer._out self' = XmlBalancer._out self ++ toks
       /\ Forall (token_in tag Q) toks.

(** ** Properties of the converter *)

(** The attribute of the prosody tag a command stands for, and its
    multiplier. *)
Definition prosody_of (command : SpeechCommand) : option (pystr * float) :=
  match command with
  | PitchCommand m => Some (u "pitch", m)
  | RateCommand m => Some (u "rate", m)
  | VolumeCommand m => Some (u "volume", m)
  | _ => None
  end.

(** The commands of the prosody attributes. *)
Definition is_prosody (c : SpeechCommand) : Prop :=
  match prosody_of c with Some _ => True | None => False end.

(** A float that is a number: neither a NaN nor an infinity. *)
Definition finite (f : float) : bool :=
  match Prim2SF f with
  | S754_zero _ => true
  | S754_finite _ _ _ => true
  | _ => false
  end.

(** [n] is [f] truncated toward zero: [f] is [a / b] up to its sign, for
    the integers [a] and [b] below, and [abs n] is the integer part of that
    quotient. *)
Definition truncation_of (f : float) (n : Z) : Prop :=
  match Prim2SF f with
  | S754_zero _ => n = 0
  | S754_finite s m e =>
      let a := Z.pos m * 2 ^ Z.max 0 e in
      let b := 2 ^ Z.max 0 (- e) in
      (if s then n <= 0 else 0 <= n)
      /\ Z.abs n * b <= a < (Z.abs n + 1) * b
  | _ => False
  end.

(** In the words of the specification: [round(f)], the nearest integer,
    ties to the even one. *)
Definition py_round (f : float) : result Z :=
  match Prim2SF f with
  | S754_zero _ => Ok 0
  | S754_finite s m e =>
      let a :=
        if 0 <=? e then Z.pos m * 2 ^ e
        else
          let q := Z.pos m / 2 ^ (- e) in
          let r := Z.pos m mod 2 ^ (- e) in
          match 2 * r ?= 2 ^ (- e) with
          | Lt => q
          | Gt => q + 1
          | Eq => if Z.even q then q else q + 1
          end in
      Ok (if s then - a else a)
  | S754_infinity _ => Raise (OverflowError (u "cannot convert float infinity to integer"))
  | S754_nan => Raise (ValueError (u "cannot convert float NaN to integer"))
  end.

(** In the words of the specification: the value of the prosody attribute,
    "the string of round(multiplier*100) followed by %". *)
Definition rounded_percentage (multiplier : float) : result pyval :=
  match py_round (multiplier * 100)%float with
  | Ok n => Ok (VStr (str_of_int n ++ u "%"))
  | Raise e => Raise e
  end.

(** Every command of the sequence has a method of the converter, and the
    method returns; and the message for an object that is neither a string
    nor a command can be formatted. *)
Definition translates (convert : SpeechCommand -> option (result (option balcmd)))
    (speechSequence : SpeechSequence) : bool :=
  forallb (fun it =>
             match it with
             | Cmd c => match convert c with Some (Ok _) => true | _ => false end
             | UnknownTuple length => Nat.eqb length 1
             | _ => true
             end) speechSequence.

(** Every command of the sequence for the prosody attribute [attrName] has
    multiplier 1.0. *)
Definition only_resets (attrName : pystr) (speechSequence : SpeechSequence) : bool :=
  forallb (fun it =>
             match it with
             | Cmd c =>
                 match prosody_of c with
                 | Some (a, m) => negb (pystr_eqb a attrName) || PrimFloat.eqb m 1
                 | None => true
                 end
             | _ => true
             end) speechSequence.

(** Every Pitch, Rate and Volume command of the sequence has multiplier
    1.0. *)
Definition only_resets_prosody (speechSequence : SpeechSequence) : bool :=
  forallb (fun it =>
             match it with
             | Cmd c =>
                 match prosody_of c with
                 | Some (_, m) => PrimFloat.eqb m 1
                 | None => true
                 end
             | _ => true
             end) speechSequence.

(** ** Properties of the parser *)

(** Induction on documents, with the property of the children of an
    element at hand. *)
Fixpoint xmlnode_induction (P : xmlnode -> Prop)
    (HElement : forall name attrs children,
        Forall P children -> P (Element name attrs children))
    (HCData : forall data, P (CData data))
    (n : xmlnode) : P n :=
  match n with
  | Element name attrs children =>
      HElement name attrs children
        ((fix all (l : list xmlnode) : Forall P l :=
            match l with
            | [] => Forall_nil P
            | x :: r => Forall_cons x (xmlnode_induction P HElement HCData x) (all r)
            end) children)
  | CData data => HCData data
  end.

(** The document of the scenario: a pitch of 120% around the text "hi" and
    a break of 10 ms. *)
Definition scenario_xml : pystr :=
  u "<speak><prosody pitch=" ++ dquote ++ u "120%" ++ dquote ++ u ">hi<break time="
    ++ dquote ++ u "10ms" ++ dquote ++ u "/></prosody></speak>".

Definition scenario_document : xmlnode :=
  Element (u "speak") []
    [Element (u "prosody") [(u "pitch", u "120%")]
       [CData (u "hi"); Element (u "break") [(u "time", u "10ms")] []]].

(** A document that ends before its root element is closed. *)
Definition unfinished_xml : pystr := u "<speak>hello".

(** A document with two identical consecutive voice elements, inside a
    prosody element. *)
Definition two_voices_xml : pystr :=
  u "<speak><prosody pitch=" ++ dquote ++ u "120%" ++ dquote ++ u ">hi"
    ++ u "<voice xml:lang=" ++ dquote ++ u "fr-CA" ++ dquote ++ u ">bonjour</voice>"
    ++ u "<voice xml:lang=" ++ dquote ++ u "fr-CA" ++ dquote ++ u ">bonjour</voice>"
    ++ u "</prosody></speak>".

(** The parser after a generator ran: the generators of the SSML parser
    leave the speech sequence to [_elementHandler]; all but [parseProsody]
    leave the cached attributes too. *)
Definition untouched (self self' : SpeechXmlParser.t) : Prop :=
  SpeechXmlParser._speechSequence self' = SpeechXmlParser._speechSequence self
  /\ SpeechXmlParser._cachedProsodyAttrs self' = SpeechXmlParser._cachedProsodyAttrs self.

(** A generator that returns, leaves the parser untouched, and yields
    commands that satisfy [P]. *)
Definition plain (P : SpeechCommand -> Prop) (g : SsmlParser.generator) : Prop :=
  forall attrs self,
    exists cs self', g attrs self = Ok (cs, self') /\ untouched self self' /\ Forall P cs.

(** The embedding of [str.title], of [\d] and of [int] and [float] on the
    digits matched is that of ASCII strings: the properties of the parser
    below are stated for events whose element names and attribute values
    are ASCII strings. *)
Definition ascii (s : pystr) : bool := forallb (fun c => (0 <=? c) && (c <? 128)) s.

Definition ascii_event (ev : xmlevent) : bool :=
  match ev with
  | StartElement name attrs => ascii name && forallb (fun av => ascii (snd av)) attrs
  | EndElement name => ascii name
  | CharacterData _ => true
  end.

Fixpoint ascii_node (n : xmlnode) : bool :=
  match n with
  | Element name attrs children =>
      ascii name && forallb (fun av => ascii (snd av)) attrs && forallb ascii_node children
  | CData _ => true
  end.

(** The attributes for which [parseBreak] raises: those of a start tag
    whose time has more digits than [int] converts. *)
Definition unreadable_time (attrs : option (odict pystr)) : bool :=
  match attrs with
  | Some attrs =>
      match od_get attrs (u "time") with
      | Some val =>
          match RE_TIME_MS val with
          | Some digits => negb (Z.of_nat (List.length digits) <=? int_max_str_digits)
          | None => false
          end
      | None => false
      end
  | None => false
  end.

(** The start tag of a break element with such a time. *)
Definition unreadable_start (name : pystr) (attrs : odict pystr) : bool :=
  pystr_eqb (processedTagName name) (u "Break") && unreadable_time (Some attrs).

(** A document without such a break element. *)
Fixpoint readable (n : xmlnode) : bool :=
  match n with
  | Element name attrs children =>
      negb (unreadable_start name attrs) && forallb readable children
  | CData _ => true
  end.

(** A command that is not a LangChange command. *)
Definition not_lang (c : SpeechCommand) : Prop :=
  same_type c (LangChangeCommand None) = false.

(** The LangChange commands of a speech sequence. *)
Definition is_lang (it : item) : bool := item_has_type (LangChangeCommand None) it.

Definition langChanges (speechSequence : SpeechSequence) : SpeechSequence :=
  filter is_lang speechSequence.

(** An event other than the start of a voice element. *)
Definition nonvoice_event (ev : xmlevent) : bool :=
  match ev with
  | StartElement name _ => negb (pystr_eqb (processedTagName name) (u "Voice"))
  | _ => true
  end.

(** The number of voice elements of a document, and the number of their
    start tags among events. *)
Fixpoint voices (n : xmlnode) : nat :=
  match n with
  | Element name _ children =>
      ((if pystr_eqb (processedTagName name) (u "Voice") then 1 else 0)
       + list_sum (map voices children))%nat
  | CData _ => 0%nat
  end.

Definition voice_starts (events : list xmlevent) : nat :=
  List.length (filter (fun ev => negb (nonvoice_event ev)) events).

(** [twice v n]: somewhere in the document [n], at any depth, the node [v]
    is a child of an element and the next child is [v] again. *)
Inductive twice (v : xmlnode) : xmlnode -> Prop :=
| twice_here name attrs before after :
    twice v (Element name attrs (before ++ v :: v :: after))
| twice_below name attrs before child after :
    twice v child -> twice v (Element name attrs (before ++ child :: after)).

(** Documents with two identical consecutive voice elements that are not
    decoded to one LangChange command: the elements have no language, or
    they hold another voice element. *)
Definition two_plain_voices_xml : pystr :=
  u "<speak><voice>bonjour</voice><voice>bonjour</voice></speak>".

Definition two_nested_voices_xml : pystr :=
  let voice :=
    u "<voice xml:lang=" ++ dquote ++ u "fr" ++ dquote ++ u ">a"
      ++ u "<voice xml:lang=" ++ dquote ++ u "de" ++ dquote ++ u ">b</voice></voice>" in
  u "<speak>" ++ voice ++ voice ++ u "</speak>".

(** ** Round trips *)

(** The sequence after the dedup rules are applied: its elements are added
    one by one, a command by the rules of [_elementHandler], anything else
    at the end. *)
Definition add_item (speechSequence : SpeechSequence) (it : item) : SpeechSequence :=
  match it with
  | Cmd c => add_command speechSequence c
  | _ => speechSequence ++ [it]
  end.

Definition deduplicated (speechSequence : SpeechSequence) : SpeechSequence :=
  fold_left add_item speechSequence [].

(** The first step of [add_command]: without its last element when that
    element has the type of the command. *)
Definition drop_same (command : SpeechCommand) (speechSequence : SpeechSequence)
    : SpeechSequence :=
  match speechSequence with
  | [] => speechSequence
  | _ :: _ =>
      if item_has_type command (last speechSequence Unknown)
      then removelast speechSequence
      else speechSequence
  end.

(** A sequence that the dedup rules leave as it is: each of its commands
    was added at the end of what comes before it. *)
Inductive settled : SpeechSequence -> Prop :=
| settled_nil : settled []
| settled_other s it : settled s -> (forall c, it <> Cmd c) -> settled (s ++ [it])
| settled_cmd s c : settled s -> add_command s c = s ++ [Cmd c] -> settled (s ++ [Cmd c]).

(** A text that can come back from the markup as it is: it is not empty,
    the escaper leaves it as it is, and it has no line break, which a parser
    reports apart from the text around it. *)
Definition spoken_text (s : pystr) : bool :=
  truthy s && pystr_eqb (_escapeXml s) s
  && forallb (fun c => negb ((c =? 10) || (c =? 13))) s.


(** A value of an attribute that can come back from the markup as it is:
    such a text without a tab, which a parser reports as a space. *)
Definition spoken_value (s : pystr) : bool :=
  spoken_text s && forallb (fun c => negb (c =? 9)) s.



(** The events of a token of the balancer, read back: a start tag with its
    attribute values as strings, an end tag, both for an empty-element tag,
    and character data. *)
Definition events_of_token (tok : token) : list xmlevent :=
  match tok with
  | TOpen tag attrs empty =>
      StartElement tag (map (fun av => (fst av, py_str (snd av))) attrs)
        :: (if empty then [EndElement tag] else [])
  | TClose tag => [EndElement tag]
  | TText s => [CharacterData s]
  end.

(** The parser reports the markup of a speech sequence token by token. *)
Definition reports_tokens (Parse : pystr -> option (list xmlevent))
    (self : SsmlConverter.t) (speechSequence : SpeechSequence) : Prop :=
  let toks :=
    XmlBalancer.tokens (yielded (SsmlConverter.generateBalancerCommands self speechSequence)) in
  Parse (render toks) = Some (flat_map events_of_token toks).

(** ** The output of the balancer, command by command *)

(** The EncloseAll command of a tag and its attributes. *)
Definition EncloseAll_of (ta : pystr * odict pyval) : balcmd :=
  EncloseAllCommand (fst ta) (snd ta).

(** No EncloseAll command. *)
Definition no_enclose_all (commands : list balcmd) : bool :=
  forallb (fun c => negb (is_enclose_all c)) commands.

(** A start tag of [tag] (not an empty-element tag), an end tag of [tag]. *)
Definition starts (tag : pystr) (tok : token) : bool :=
  match tok with
  | TOpen t _ false => pystr_eqb t tag
  | _ => false
  end.

Definition ends (tag : pystr) (tok : token) : bool :=
  match tok with
  | TClose t => pystr_eqb t tag
  | _ => false
  end.

Definition count (f : token -> bool) (toks : list token) : nat :=
  List.length (filter f toks).

(** The balancer with [toks] before its output and [tags] before its
    enclosing tags. *)
Definition prefixed (toks : list token) (tags : list pystr) (self : XmlBalancer.t)
    : XmlBalancer.t :=
  XmlBalancer.mk (toks ++ XmlBalancer._out self) (tags ++ XmlBalancer._enclosingAllTags self)
    (XmlBalancer._tagsChanged self) (XmlBalancer._openTags self) (XmlBalancer._tags self)
    (XmlBalancer._tagEnclosingText self).

(** The runs of text of the output. *)
Definition texts_of (toks : list token) : list pystr :=
  flat_map (fun tok => match tok with TText s => [s] | _ => [] end) toks.

(** The text that a command asks the balancer to write, escaped. *)
Definition command_text (command : balcmd) : list pystr :=
  match command with
  | Text text => [_escapeXml text]
  | StandAloneTagCommand _ _ (Some ((_ :: _) as content)) => [_escapeXml content]
  | _ => []
  end.

(** What a command makes of the value [cur] of the attribute [attr] of
    [tag]. *)
Definition setting (tag attr : pystr) (cur : option pyval) (command : balcmd)
    : option pyval :=
  match command with
  | SetAttrCommand t a val => if pystr_eqb t tag && pystr_eqb a attr then Some val else cur
  | DelAttrCommand t a => if pystr_eqb t tag && pystr_eqb a attr then None else cur
  | _ => cur
  end.

(** The value given by the last SetAttr command for the attribute, unless a
    DelAttr command for it came later. *)
Definition last_setting (tag attr : pystr) (commands : list balcmd) : option pyval :=
  fold_left (setting tag attr) commands None.

(** The dictionaries of the balancer have distinct keys. *)
Definition distinct_keys (self : XmlBalancer.t) : Prop :=
  NoDup (od_keys (XmlBalancer._tags self))
  /\ forall tag attrs, od_get (XmlBalancer._tags self) tag = Some attrs -> NoDup (od_keys attrs).

(** Reading tokens against the stack of open elements with their
    attributes, innermost first. *)
Fixpoint open_elements (stack : odict (odict pyval)) (toks : list token)
    : option (odict (odict pyval)) :=
  match toks with
  | [] => Some stack
  | TOpen tag attrs false :: rest => open_elements ((tag, attrs) :: stack) rest
  | TOpen _ _ true :: rest => open_elements stack rest
  | TText _ :: rest => open_elements stack rest
  | TClose tag :: rest =>
      match stack with
      | (top, _) :: below => if pystr_eqb top tag then open_elements below rest else None
      | [] => None
      end
  end.

(** The tag enclosing text, when there is one. *)
Definition enclosing_text (self : XmlBalancer.t) : odict (odict pyval) :=
  match XmlBalancer._tagEnclosingText self with
  | Some (tag, attrs) => if truthy tag then [(tag, attrs)] else []
  | None => []
  end.

(** The invariant of the loop of [generateXml] on the elements that are
    open: inside the enclosing elements [encl], the open tags, which carry
    the tags and attributes in force unless the tags have changed. *)
Definition tags_open (encl : odict (odict pyval)) (self : XmlBalancer.t) : Prop :=
  exists opened,
    open_elements [] (XmlBalancer._out self) = Some (rev opened ++ rev encl)
    /\ od_keys opened = XmlBalancer._openTags self
    /\ (XmlBalancer._tagsChanged self = false -> opened = XmlBalancer._tags self).

(** The number of times [tag] is in a list of tags. *)
Definition occurrences (tag : pystr) (tags : list pystr) : nat :=
  List.length (filter (fun t => pystr_eqb t tag) tags).

(** The balancer after it appended [toks] to its output. *)
Definition emits (self : XmlBalancer.t) (toks : list token) : XmlBalancer.t :=
  XmlBalancer.mk (XmlBalancer._out self ++ toks) (XmlBalancer._enclosingAllTags self)
    (XmlBalancer._tagsChanged self) (XmlBalancer._openTags self) (XmlBalancer._tags self)
    (XmlBalancer._tagEnclosingText self).

(** The tokens of a text: the escaped text, inside the tag enclosing text
    when there is one. *)
Definition text_tokens (self : XmlBalancer.t) (text : pystr) : list token :=
  match enclosing_text self with
  | (etag, eattrs) :: _ => [TOpen etag eattrs false; TText (_escapeXml text); TClose etag]
  | [] => [TText (_escapeXml text)]
  end.

(** For each tag, the start tags written so far are the end tags written so
    far and the tags that are open. *)
Definition open_balance (tag : pystr) (self : XmlBalancer.t) : Prop :=
  count (starts tag) (XmlBalancer._out self)
  = (count (ends tag) (XmlBalancer._out self)
     + occurrences tag (XmlBalancer._openTags self)
     + occurrences tag (XmlBalancer._enclosingAllTags self))%nat.

(** ** More properties of the converter *)



(** A string without the character [c]. *)
Definition without (c : Z) (s : pystr) : bool := forallb (fun x => negb (x =? c)) s.

(** ** Round trips of single commands *)

(** The whole percentages from 0 to 1000. *)
Definition percentages : list Z := map Z.of_nat (seq 0 1001).

(** The Pitch, Volume or Rate command of a prosody attribute. *)
Definition prosody_command (attr : pystr) (multiplier : float) : option SpeechCommand :=
  if pystr_eqb attr (u "pitch") then Some (PitchCommand multiplier)
  else if pystr_eqb attr (u "volume") then Some (VolumeCommand multiplier)
  else if pystr_eqb attr (u "rate") then Some (RateCommand multiplier)
  else None.

(** Whether a whole percentage that is parsed to a multiplier and converted
    again comes back as itself or as the percentage below it; 100% is
    parsed to the multiplier 1.0. *)
Definition comes_back (n : Z) : bool :=
  match RE_PERCENTAGE (str_of_int n ++ u "%") with
  | Some (ip, fp) =>
      let multiplier := (float_of_decimal ip fp / 100)%float in
      if n =? 100 then PrimFloat.eqb multiplier 1
      else
        negb (PrimFloat.eqb multiplier 1)
        && match py_int (multiplier * 100)%float with
           | Ok k => (k =? n) || (k =? n - 1)
           | Raise _ => false
           end
  | None => false
  end.

(** ** More properties of the parser *)

(** A generator that returns, yields the same commands whatever the parser,
    and leaves the parser untouched: for given attributes, and for any. *)
Definition stateless_at (g : SsmlParser.generator) (attrs : option (odict pystr)) : Prop :=
  exists cs, forall self, exists self',
    g attrs self = Ok (cs, self') /\ untouched self self'.

Definition stateless (g : SsmlParser.generator) : Prop :=
  forall attrs, stateless_at g attrs.

(** The commands that the generator of an element yields for its start tag
    ([opening]) or for its end tag; for the end tag, the attributes cached
    are those of the start tag of the element. *)
Definition element_commands (this : SsmlParser.self_t) (name : pystr) (attrs : odict pystr)
    (opening : bool) : list SpeechCommand :=
  match SsmlParser.parse this (processedTagName name) with
  | None => []
  | Some g =>
      match g (if opening then Some attrs else None) (SpeechXmlParser.mk [] [attrs] []) with
      | Ok (commands, _) => commands
      | Raise _ => []
      end
  end.

(** What a document adds to the speech sequence, before the dedup rules:
    the commands of the start tag of an element, what its children add, the
    commands of its end tag; the character data. *)
Fixpoint items_of (this : SsmlParser.self_t) (n : xmlnode) : list item :=
  match n with
  | Element name attrs children =>
      map Cmd (element_commands this name attrs true)
        ++ flat_map (items_of this) children
        ++ map Cmd (element_commands this name attrs false)
  | CData data => [Str data]
  end.

(** The strings of a speech sequence, the character data of events. *)
Definition item_texts (speechSequence : SpeechSequence) : list pystr :=
  flat_map (fun it => match it with Str s => [s] | _ => [] end) speechSequence.

Definition event_texts (events : list xmlevent) : list pystr :=
  flat_map (fun ev => match ev with CharacterData data => [data] | _ => [] end) events.

(** What the SSML parser can put in a speech sequence: strings;
    CharacterMode commands; LangChange commands with a language; Break
    commands with a duration that is not negative; Pitch, Rate and Volume
    commands; and Callback commands when a mark callback was given. *)
Definition parser_item (this : SsmlParser.self_t) (it : item) : bool :=
  match it with
  | Str _ => true
  | Cmd (CharacterModeCommand _) => true
  | Cmd (LangChangeCommand (Some _)) => true
  | Cmd (BreakCommand time) => 0 <=? time
  | Cmd (PitchCommand _) => true
  | Cmd (RateCommand _) => true
  | Cmd (VolumeCommand _) => true
  | Cmd (CallbackCommand _) => SsmlParser._markCallback this
  | _ => false
  end.

(** No two neighbours are commands of the same class. *)
Fixpoint no_neighbours_of_a_class (speechSequence : SpeechSequence) : bool :=
  match speechSequence with
  | [] => true
  | it :: rest =>
      match it, rest with
      | Cmd a, Cmd b :: _ => negb (same_type a b)
      | _, _ => true
      end && no_neighbours_of_a_class rest
  end.

(** Read from the end: no command is equal to the command of its class
    that comes before it. *)
Fixpoint differs_from_previous (reversed : list item) : bool :=
  match reversed with
  | [] => true
  | it :: before =>
      match it with
      | Cmd c =>
          match find (item_has_type c) before with
          | Some (Cmd p) => negb (cmd_eqb p c)
          | _ => true
          end
      | _ => true
      end && differs_from_previous before
  end.

Definition never_repeats (speechSequence : SpeechSequence) : bool :=
  differs_from_previous (rev speechSequence).

(** A document in which a prosody element is nested in an element without
    a generator, inside another prosody element. *)
Definition nested_prosody_xml : pystr :=
  u "<speak><prosody pitch=" ++ dquote ++ u "120%" ++ dquote ++ u "><b><prosody pitch="
    ++ dquote ++ u "150%" ++ dquote ++ u ">x</prosody>y</b></prosody></speak>".

Definition nested_prosody_document : xmlnode :=
  Element (u "speak") []
    [Element (u "prosody") [(u "pitch", u "120%")]
       [Element (u "b") []
          [Element (u "prosody") [(u "pitch", u "150%")] [CData (u "x")];
           CData (u "y")]]].

(** ** Properties of the escaper *)

(** The characters of markup that the escaper replaces besides the
    ampersand: <, > and the double quote. *)
Definition is_markup (c : Z) : bool := (c =? 0x3C) || (c =? 0x3E) || (c =? 0x22).

Fixpoint starts_with (prefix s : pystr) : bool :=
  match prefix, s with
  | [], _ => true
  | x :: prefix', y :: s' => (x =? y) && starts_with prefix' s'
  | _ :: _, [] => false
  end.

(** Every ampersand starts one of the references that the escaper
    writes. *)
Fixpoint references_only (s : pystr) : bool :=
  match s with
  | [] => true
  | c :: rest =>
      (if c =? 0x26
       then starts_with (u "lt;") rest || starts_with (u "gt;") rest
            || starts_with (u "amp;") rest || starts_with (u "quot;") rest
       else true)
      && references_only rest
  end.

(** [RE_INVALID_XML_CHARS] has no match in [text], which stands after the
    character [prev]. *)
Fixpoint valid_from (prev : option Z) (text : pystr) : bool :=
  match text with
  | [] => true
  | c :: rest => negb (invalid_at prev c (hd_error rest)) && valid_from (Some c) rest
  end.

(** No character that [XML_ESCAPES] replaces. *)
Definition no_escapes (text : pystr) : bool :=
  forallb (fun c => match XML_ESCAPES c with Some _ => false | None => true end) text.

(** What [str.translate] makes of one character. *)
Definition translated (table : Z -> option pystr) (c : Z) : pystr :=
  match table c with Some r => r | None => [c] end.

(** Whether the character before is a leading surrogate. *)
Definition after_leading (prev : option Z) : bool :=
  match prev with Some p => leadingSurrogate p | None => false end.

(** Whether the character after is a trailing surrogate. *)
Definition before_trailing (next : option Z) : bool :=
  match next with Some n => trailingSurrogate n | None => false end.

(** ** Round trips of texts, breaks and changes of language *)










(** ** Round trips of character mode and prosody *)

(** Texts that the escaper leaves as they are. *)
Definition plain_texts (texts : list pystr) : bool :=
  forallb (fun s => pystr_eqb (_escapeXml s) s) texts.



(** The prosody tag with one attribute, and the markup of texts inside it. *)
Definition prosody_attrs (attr : pystr) (n : Z) : odict pyval :=
  [(attr, VStr (str_of_int n ++ u "%"))].

Definition prosody_tokens (attr : pystr) (n : Z) (texts : list pystr) : list token :=
  TOpen (u "prosody") (prosody_attrs attr n) false
    :: map (fun text => TText (_escapeXml text)) texts ++ [TClose (u "prosody")].

(** * Properties *)

(** ** Strings and dictionaries *)

Lemma pystr_eqb_eq (a b : pystr) : pystr_eqb a b = true <-> a = b.
Proof.
  revert b; induction a as [|x a IH]; intros [|y b]; simpl; split; intro H;
    try reflexivity; try discriminate.
  - apply andb_true_iff in H as [Hx Hab]. apply Z.eqb_eq in Hx.
    apply IH in Hab. congruence.
  - injection H as -> ->. rewrite Z.eqb_refl. simpl. now apply IH.
Qed.

Lemma pystr_eqb_refl (a : pystr) : pystr_eqb a a = true.
Proof. now apply pystr_eqb_eq. Qed.

Lemma pystr_eqb_neq (a b : pystr) : pystr_eqb a b = false <-> a <> b.
Proof.
  split.
  - intros H ->. rewrite pystr_eqb_refl in H. discriminate.
  - intro H. destruct (pystr_eqb a b) eqn:E; [|reflexivity].
    apply pystr_eqb_eq in E. contradiction.
Qed.

Lemma pyval_eqb_refl (v : pyval) : pyval_eqb v v = true.
Proof. destruct v; simpl; [apply pystr_eqb_refl | apply Z.eqb_refl]. Qed.

(** ** The balancer: a loop of [feed], then [close] *)

Import XmlBalancer.

Lemma fold_feed_app (self : XmlBalancer.t) (a b : list balcmd) :
  fold_left feed (a ++ b) self = fold_left feed b (fold_left feed a self).
Proof. apply fold_left_app. Qed.

Lemma with_tags_same (self : XmlBalancer.t) :
  with_tags self (_tags self) (_tagsChanged self) = self.
Proof. now destruct self. Qed.

(** Setting an attribute to the value in force leaves the balancer as it
    is. *)
Lemma _setAttr_in_force (self : XmlBalancer.t) (tag attr : pystr) (val : pyval) :
  in_force self tag attr = Some val -> _setAttr self tag attr val = self.
Proof.
  unfold in_force, _setAttr. intro H.
  destruct (od_get (_tags self) tag) as [[|kv attrs]|] eqn:E; try discriminate.
  rewrite H, pyval_eqb_refl. simpl. apply with_tags_same.
Qed.

(** C5. Inserting, anywhere in a sequence of commands, a SetAttr command whose
    value is the one in force for that attribute of that tag changes neither
    the tokens of the output (the same start and end tags, in the same
    nesting) nor the string returned by generateXml. *)
Theorem setAttr_in_force_same_output
    (before after : list balcmd) (tag attr : pystr) (val : pyval) :
  in_force (fold_left feed before __init__) tag attr = Some val ->
  tokens (before ++ SetAttrCommand tag attr val :: after) = tokens (before ++ after)
  /\ generateXml (before ++ SetAttrCommand tag attr val :: after)
     = generateXml (before ++ after).
Proof.
  intro H.
  assert (E : tokens (before ++ SetAttrCommand tag attr val :: after)
              = tokens (before ++ after)).
  { unfold tokens. rewrite !fold_feed_app. simpl.
    now rewrite (_setAttr_in_force _ _ _ _ H). }
  split; [exact E|]. unfold generateXml. now rewrite E.
Qed.

Lemma setAttr_in_force_same_output_witness :
  let before := [EncloseAllCommand (u "speak") [];
                 SetAttrCommand (u "voice") (u "xml:lang") (VStr (u "fr"));
                 Text (u "Bonjour")] in
  let after := [Text (u "encore")] in
  in_force (fold_left feed before __init__) (u "voice") (u "xml:lang") = Some (VStr (u "fr"))
  /\ generateXml (before ++ SetAttrCommand (u "voice") (u "xml:lang") (VStr (u "fr")) :: after)
     = generateXml (before ++ after).
Proof.
  split; [reflexivity|].
  apply (setAttr_in_force_same_output
           [EncloseAllCommand (u "speak") [];
            SetAttrCommand (u "voice") (u "xml:lang") (VStr (u "fr"));
            Text (u "Bonjour")]
           [Text (u "encore")] (u "voice") (u "xml:lang") (VStr (u "fr"))).
  reflexivity.
Defined.

(** ** Stand-alone tags and the tag enclosing text *)

Lemma _outputTags_enclosing (self : XmlBalancer.t) :
  _tagEnclosingText (_outputTags self) = _tagEnclosingText self.
Proof. unfold _outputTags. now destruct (_tagsChanged self). Qed.

Lemma feed_keeps_enclosing (self : XmlBalancer.t) (command : balcmd) :
  keeps_enclosing command = true ->
  _tagEnclosingText (feed self command) = _tagEnclosingText self.
Proof.
  destruct command as [text|tag attrs|tag attr val|tag attr|tag attrs| |tag attrs content];
    simpl; intro H; try discriminate; try reflexivity.
  - unfold _text. rewrite _outputTags_enclosing.
    destruct (_tagEnclosingText self) as [[etag eattrs]|] eqn:E;
      [destruct (truthy etag)|]; simpl; now rewrite _outputTags_enclosing.
  - unfold _setAttr.
    destruct (od_get (_tags self) tag) as [[|? ?]|];
      repeat match goal with |- context [if ?b then _ else _] => destruct b end;
      reflexivity.
  - unfold _delAttr.
    destruct (od_get (_tags self) tag) as [[|kv attrs]|]; try reflexivity.
    destruct (od_get (kv :: attrs) attr); try reflexivity.
    destruct (od_del (kv :: attrs) attr); reflexivity.
  - destruct content as [[|c content]|]; simpl; try apply _outputTags_enclosing.
    unfold _text. simpl. rewrite _outputTags_enclosing.
    destruct (_tagEnclosingText self) as [[etag eattrs]|] eqn:E;
      [destruct (truthy etag)|]; simpl; now rewrite _outputTags_enclosing.
Qed.

Lemma fold_feed_keeps_enclosing (commands : list balcmd) (self : XmlBalancer.t) :
  forallb keeps_enclosing commands = true ->
  _tagEnclosingText (fold_left feed commands self) = _tagEnclosingText self.
Proof.
  revert self; induction commands as [|c commands IH]; simpl; intros self H;
    [reflexivity|].
  apply andb_true_iff in H as [Hc H].
  rewrite IH by assumption. now apply feed_keeps_enclosing.
Qed.

(** C10. While an EncloseText command is in force (no later EncloseText or
    StopEnclosingText command), a StandAloneTag command with non-empty
    content emits, after the pending tags, its start tag, then the content
    wrapped in the tag enclosing text, then its end tag: the enclosing tag
    is nested inside the stand-alone tag. *)
Theorem standAlone_content_is_enclosed
    (before between : list balcmd) (etag : pystr) (eattrs : odict pyval)
    (tag : pystr) (attrs : odict pyval) (content : pystr) :
  etag <> [] ->
  content <> [] ->
  forallb keeps_enclosing between = true ->
  let self := fold_left feed (before ++ EncloseTextCommand etag eattrs :: between) __init__ in
  _out (feed self (StandAloneTagCommand tag attrs (Some content)))
  = _out (_outputTags self)
      ++ [TOpen tag attrs false; TOpen etag eattrs false; TText (_escapeXml content);
          TClose etag; TClose tag].
Proof.
  intros Hetag Hcontent Hbetween self.
  assert (E : _tagEnclosingText self = Some (etag, eattrs)).
  { unfold self. rewrite fold_feed_app. simpl.
    now rewrite fold_feed_keeps_enclosing. }
  destruct content as [|c content]; [contradiction|].
  destruct etag as [|e etag]; [contradiction|].
  simpl. unfold _text. simpl. rewrite _outputTags_enclosing, E. simpl.
  rewrite <- !app_assoc. reflexivity.
Qed.

Lemma standAlone_content_is_enclosed_witness :
  let sayAs := EncloseTextCommand (u "say-as") [(u "interpret-as", VStr (u "characters"))] in
  let phoneme :=
    StandAloneTagCommand (u "phoneme")
      [(u "alphabet", VStr (u "ipa")); (u "ph", VStr (u "ipa-text"))] (Some (u "fallback")) in
  SsmlConverter.convertCharacterModeCommand true = sayAs
  /\ SsmlConverter.convertPhonemeCommand (u "ipa-text") (Some (u "fallback")) = phoneme
  /\ render (_out (feed (fold_left feed ([] ++ sayAs :: []) __init__) phoneme))
     = u "<phoneme alphabet=" ++ dquote ++ u "ipa" ++ dquote
         ++ u " ph=" ++ dquote ++ u "ipa-text" ++ dquote ++ u ">"
         ++ u "<say-as interpret-as=" ++ dquote ++ u "characters" ++ dquote ++ u ">"
         ++ u "fallback</say-as></phoneme>".
Proof.
  split; [reflexivity|]. split; [reflexivity|].
  rewrite (standAlone_content_is_enclosed [] []
             (u "say-as") [(u "interpret-as", VStr (u "characters"))]
             (u "phoneme") [(u "alphabet", VStr (u "ipa")); (u "ph", VStr (u "ipa-text"))]
             (u "fallback"));
    [reflexivity | discriminate | discriminate | reflexivity].
Defined.

(** ** Nesting of the output of the balancer *)

Lemma nesting_app (a b : list token) (stack : list pystr) :
  nesting stack (a ++ b)
  = match nesting stack a with
    | Some stack' => nesting stack' b
    | None => None
    end.
Proof.
  revert stack; induction a as [|tok a IH]; intro stack; simpl; [reflexivity|].
  destruct tok as [tag attrs [|]|tag|s]; try apply IH.
  destruct stack as [|top below]; [reflexivity|].
  destruct (pystr_eqb top tag); [apply IH | reflexivity].
Qed.

Lemma nesting_close_all (l base : list pystr) :
  nesting (l ++ base) (map TClose l) = Some base.
Proof.
  induction l as [|tag l IH]; simpl; [reflexivity|].
  now rewrite pystr_eqb_refl.
Qed.

Lemma nesting_open_all (tags : odict (odict pyval)) (base : list pystr) :
  nesting base (map (fun ta => TOpen (fst ta) (snd ta) false) tags)
  = Some (rev (od_keys tags) ++ base).
Proof.
  revert base; induction tags as [|[tag attrs] tags IH]; intro base; simpl;
    [reflexivity|].
  rewrite IH. now rewrite <- app_assoc.
Qed.

(** Closing a list of tags appends their end tags and changes nothing else. *)
Lemma fold_closeTag (l : list pystr) (self : XmlBalancer.t) :
  fold_left _closeTag l self
  = XmlBalancer.mk (_out self ++ map TClose l) (_enclosingAllTags self) (_tagsChanged self)
      (_openTags self) (_tags self) (_tagEnclosingText self).
Proof.
  revert self; induction l as [|tag l IH]; intro self; simpl.
  - rewrite app_nil_r. now destruct self.
  - rewrite IH. simpl. now rewrite <- app_assoc.
Qed.

Lemma fold_openTag (tags : odict (odict pyval)) (self : XmlBalancer.t) :
  fold_left (fun s ta => _openTag s (fst ta) (snd ta) false) tags self
  = XmlBalancer.mk (_out self ++ map (fun ta => TOpen (fst ta) (snd ta) false) tags)
      (_enclosingAllTags self) (_tagsChanged self) (_openTags self) (_tags self)
      (_tagEnclosingText self).
Proof.
  revert self; induction tags as [|ta tags IH]; intro self; simpl.
  - rewrite app_nil_r. now destruct self.
  - rewrite IH. simpl. now rewrite <- app_assoc.
Qed.

Lemma nested_emit_same (self : XmlBalancer.t) (toks : list token) (self' : XmlBalancer.t) :
  nested self ->
  _out self' = _out self ++ toks ->
  _openTags self' = _openTags self ->
  _enclosingAllTags self' = _enclosingAllTags self ->
  (forall stack, nesting stack toks = Some stack) ->
  nested self'.
Proof.
  unfold nested. intros H Hout Hopen Hencl Htoks.
  now rewrite Hout, Hopen, Hencl, nesting_app, H, Htoks.
Qed.

Lemma _outputTags_nested (self : XmlBalancer.t) :
  nested self -> nested (_outputTags self).
Proof.
  unfold nested, _outputTags. intro H.
  destruct (_tagsChanged self); [|exact H].
  rewrite fold_openTag, fold_closeTag. simpl.
  rewrite !nesting_app, H, nesting_close_all, nesting_open_all. reflexivity.
Qed.

Lemma _outputTags_enclosingAll (self : XmlBalancer.t) :
  _enclosingAllTags (_outputTags self) = _enclosingAllTags self.
Proof. unfold _outputTags. now destruct (_tagsChanged self). Qed.

Lemma _text_spec (self : XmlBalancer.t) (text : pystr) :
  exists toks,
    _out (_text self text) = _out self ++ toks
    /\ _openTags (_text self text) = _openTags self
    /\ _enclosingAllTags (_text self text) = _enclosingAllTags self
    /\ forall stack, nesting stack toks = Some stack.
Proof.
  unfold _text.
  destruct (_tagEnclosingText self) as [[etag eattrs]|]; [destruct (truthy etag)|].
  - exists [TOpen etag eattrs false; TText (_escapeXml text); TClose etag].
    simpl. rewrite <- !app_assoc. repeat split.
    intro stack. now rewrite pystr_eqb_refl.
  - exists [TText (_escapeXml text)]. simpl. repeat split.
  - exists [TText (_escapeXml text)]. simpl. repeat split.
Qed.

Lemma _text_nested (self : XmlBalancer.t) (text : pystr) :
  nested self -> nested (_text self text).
Proof.
  intro H. destruct (_text_spec self text) as (toks & Hout & Hopen & Hencl & Htoks).
  exact (nested_emit_same self toks _ H Hout Hopen Hencl Htoks).
Qed.

Lemma _setAttr_frame (self : XmlBalancer.t) (tag attr : pystr) (val : pyval) :
  _out (_setAttr self tag attr val) = _out self
  /\ _openTags (_setAttr self tag attr val) = _openTags self
  /\ _enclosingAllTags (_setAttr self tag attr val) = _enclosingAllTags self.
Proof.
  unfold _setAttr.
  destruct (od_get (_tags self) tag) as [[|? ?]|];
    repeat match goal with |- context [if ?b then _ else _] => destruct b end;
    repeat split.
Qed.

Lemma _delAttr_frame (self : XmlBalancer.t) (tag attr : pystr) :
  _out (_delAttr self tag attr) = _out self
  /\ _openTags (_delAttr self tag attr) = _openTags self
  /\ _enclosingAllTags (_delAttr self tag attr) = _enclosingAllTags self.
Proof.
  unfold _delAttr.
  destruct (od_get (_tags self) tag) as [[|kv attrs]|]; try (repeat split; fail).
  destruct (od_get (kv :: attrs) attr); try (repeat split; fail).
  destruct (od_del (kv :: attrs) attr); repeat split.
Qed.

Lemma nested_frame (self self' : XmlBalancer.t) :
  _out self' = _out self
  /\ _openTags self' = _openTags self
  /\ _enclosingAllTags self' = _enclosingAllTags self ->
  nested self -> nested self'.
Proof. unfold nested. intros (-> & -> & ->) H. exact H. Qed.

(** A turn of the loop keeps the invariant, provided an EncloseAll command
    comes when no tag is open. *)
Lemma feed_nested (self : XmlBalancer.t) (command : balcmd) :
  (is_enclose_all command = true -> _openTags self = []) ->
  nested self -> nested (feed self command).
Proof.
  intros Hfirst H.
  destruct command as [text|tag attrs|tag attr val|tag attr|tag attrs| |tag attrs content];
    simpl.
  - now apply _text_nested, _outputTags_nested.
  - unfold nested in *. simpl. rewrite nesting_app, H, (Hfirst eq_refl). simpl.
    now rewrite rev_app_distr.
  - exact (nested_frame _ _ (_setAttr_frame self tag attr val) H).
  - exact (nested_frame _ _ (_delAttr_frame self tag attr) H).
  - exact H.
  - exact H.
  - apply _outputTags_nested in H.
    destruct content as [[|c content]|].
    + apply (nested_emit_same _ [TOpen tag attrs true] _ H); reflexivity.
    + destruct (_text_spec (_openTag (_outputTags self) tag attrs false) (c :: content))
        as (toks & Hout & Hopen & Hencl & Htoks).
      apply (nested_emit_same _ (TOpen tag attrs false :: toks ++ [TClose tag]) _ H).
      * simpl. rewrite Hout. simpl. now rewrite <- !app_assoc.
      * simpl. exact Hopen.
      * simpl. exact Hencl.
      * intro stack. simpl. rewrite nesting_app, Htoks. simpl.
        now rewrite pystr_eqb_refl.
    + apply (nested_emit_same _ [TOpen tag attrs true] _ H); reflexivity.
Qed.

Lemma feed_enclosingAll (self : XmlBalancer.t) (command : balcmd) :
  is_enclose_all command = false ->
  _enclosingAllTags (feed self command) = _enclosingAllTags self.
Proof.
  destruct command as [text|tag attrs|tag attr val|tag attr|tag attrs| |tag attrs content];
    simpl; intro H; try discriminate; try reflexivity.
  - destruct (_text_spec (_outputTags self) text) as (_ & _ & _ & -> & _).
    apply _outputTags_enclosingAll.
  - apply _setAttr_frame.
  - apply _delAttr_frame.
  - destruct content as [[|c content]|]; simpl; try apply _outputTags_enclosingAll.
    destruct (_text_spec (_openTag (_outputTags self) tag attrs false) (c :: content))
      as (_ & _ & _ & -> & _).
    simpl. apply _outputTags_enclosingAll.
Qed.

Lemma fold_feed_nested (commands : list balcmd) (self : XmlBalancer.t) :
  forallb (fun c => negb (is_enclose_all c)) commands = true ->
  nested self ->
  nested (fold_left feed commands self)
  /\ _enclosingAllTags (fold_left feed commands self) = _enclosingAllTags self.
Proof.
  revert self; induction commands as [|c commands IH]; simpl; intros self Hall H;
    [now split|].
  apply andb_true_iff in Hall as [Hc Hall]. apply negb_true_iff in Hc.
  destruct (IH (feed self c) Hall) as [Hn He].
  - apply feed_nested; [|exact H]. rewrite Hc. discriminate.
  - split; [exact Hn|]. rewrite He. now apply feed_enclosingAll.
Qed.

(** With at most one enclosing tag, closing ends on an empty stack. *)
Lemma close_well_formed (self : XmlBalancer.t) :
  nested self ->
  (List.length (_enclosingAllTags self) <= 1)%nat ->
  well_formed (_out (close self)) = true.
Proof.
  unfold nested, close, well_formed. intros H Hlen.
  rewrite !fold_closeTag. simpl.
  rewrite !nesting_app, H, nesting_close_all.
  destruct (_enclosingAllTags self) as [|tag [|tag' l]]; simpl in *.
  - reflexivity.
  - now rewrite pystr_eqb_refl.
  - lia.
Qed.

(** The output of the balancer is not well-formed when an EncloseAll command
    comes after a tag was opened: the enclosing tag is opened inside the open
    tag and closed after it. *)
Lemma encloseAll_after_open_tag_not_well_formed :
  let commands := [SetAttrCommand (u "voice") (u "xml:lang") (VStr (u "fr"));
                   Text (u "Bonjour");
                   EncloseAllCommand (u "speak") []] in
  generateXml commands
  = u "<voice xml:lang=" ++ dquote ++ u "fr" ++ dquote ++ u ">Bonjour<speak></voice></speak>"
  /\ well_formed (tokens commands) = false.
Proof. split; reflexivity. Qed.

(** Two enclosing tags are closed in the order in which they were opened,
    not in the reverse order: the output is not well-formed. *)
Lemma two_encloseAll_closed_in_opening_order :
  generateXml [EncloseAllCommand (u "a") []; EncloseAllCommand (u "b") []]
  = u "<a><b></a></b>"
  /\ well_formed (tokens [EncloseAllCommand (u "a") []; EncloseAllCommand (u "b") []]) = false.
Proof. split; reflexivity. Qed.

(** C1 (amended). For every sequence of commands and text in which an
    EncloseAll command, if there is one, is the first command and the only
    one, the output of generateXml is well-formed: every start tag has
    exactly one matching end tag, and end tags come in the reverse order of
    their start tags, the enclosing tag being closed last. *)
Theorem generateXml_well_formed (commands : list balcmd) :
  enclose_all_first commands = true ->
  well_formed (tokens commands) = true.
Proof.
  unfold enclose_all_first, tokens. intro H.
  destruct commands as [|c commands]; [reflexivity|]. simpl in *.
  assert (Hinit : nested __init__) by reflexivity.
  assert (H1 : nested (feed __init__ c)).
  { apply feed_nested; [reflexivity | exact Hinit]. }
  assert (Hlen : (List.length (_enclosingAllTags (feed __init__ c)) <= 1)%nat).
  { destruct (is_enclose_all c) eqn:E.
    - destruct c; try discriminate. simpl. lia.
    - rewrite feed_enclosingAll by exact E. simpl. lia. }
  destruct (fold_feed_nested commands _ H H1) as [Hn He].
  apply close_well_formed; [exact Hn | now rewrite He].
Qed.

Lemma generateXml_well_formed_witness :
  let commands := [EncloseAllCommand (u "speak") [];
                   SetAttrCommand (u "prosody") (u "pitch") (VStr (u "120%"));
                   Text (u "a");
                   SetAttrCommand (u "voice") (u "xml:lang") (VStr (u "fr"));
                   Text (u "b");
                   DelAttrCommand (u "prosody") (u "pitch");
                   StandAloneTagCommand (u "break") [(u "time", VStr (u "5ms"))] None] in
  enclose_all_first commands = true /\ well_formed (tokens commands) = true.
Proof.
  split; [reflexivity|].
  apply (generateXml_well_formed
           [EncloseAllCommand (u "speak") [];
            SetAttrCommand (u "prosody") (u "pitch") (VStr (u "120%"));
            Text (u "a");
            SetAttrCommand (u "voice") (u "xml:lang") (VStr (u "fr"));
            Text (u "b");
            DelAttrCommand (u "prosody") (u "pitch");
            StandAloneTagCommand (u "break") [(u "time", VStr (u "5ms"))] None]).
  reflexivity.
Defined.

(** ** The converter: prosody *)

Lemma py_int_truncation (f : float) (n : Z) :
  py_int f = Ok n -> truncation_of f n.
Proof.
  unfold py_int, truncation_of.
  destruct (Prim2SF f) as [s|s| |s m e]; try discriminate.
  - now intros [= <-].
  - intro H. cbv zeta in H |- *.
    assert (Hn : n = if s then - (if 0 <=? e then Z.pos m * 2 ^ e else Z.pos m / 2 ^ (- e))
                     else (if 0 <=? e then Z.pos m * 2 ^ e else Z.pos m / 2 ^ (- e)))
      by congruence.
    clear H. subst n.
    destruct (Z.leb_spec 0 e) as [He|He].
    + rewrite (Z.max_r 0 e), (Z.max_l 0 (- e)), Z.pow_0_r by lia.
      set (x := Z.pos m * 2 ^ e).
      assert (Hx : 0 < x).
      { unfold x. apply Z.mul_pos_pos; [lia | apply Z.pow_pos_nonneg; lia]. }
      destruct s; lia.
    + rewrite (Z.max_l 0 e), (Z.max_r 0 (- e)), Z.pow_0_r by lia.
      assert (Hb : 0 < 2 ^ (- e)) by (apply Z.pow_pos_nonneg; lia).
      pose proof (Z.div_pos (Z.pos m) (2 ^ (- e)) ltac:(lia) Hb) as Hq.
      pose proof (Z.mul_div_le (Z.pos m) (2 ^ (- e)) Hb) as Hlo.
      pose proof (Z.mul_succ_div_gt (Z.pos m) (2 ^ (- e)) Hb) as Hhi.
      set (q := Z.pos m / 2 ^ (- e)) in *. set (b := 2 ^ (- e)) in *.
      assert (Ha : Z.abs (- q) = q /\ Z.abs q = q) by lia.
      destruct Ha as [Ha1 Ha2].
      destruct s; rewrite ?Ha1, ?Ha2; split; lia.
Qed.

Lemma py_int_finite (f : float) :
  finite f = true -> exists n, py_int f = Ok n.
Proof.
  unfold finite, py_int.
  destruct (Prim2SF f); try discriminate; intros _; eexists; reflexivity.
Qed.

(** The converter truncates where the specification rounds: for a pitch
    multiplier of 1.256 it emits 125%, and the rounded percentage is 126%. *)
Lemma pitch_percentage_is_not_rounded :
  let self := SsmlConverter.__init__ (u "en_US") in
  PrimFloat.eqb 1.256 1 = false
  /\ rounded_percentage 1.256 = Ok (VStr (u "126%"))
  /\ SsmlConverter.convert self (PitchCommand 1.256)
     = Some (Ok (Some (SetAttrCommand (u "prosody") (u "pitch") (VStr (u "125%")))))
  /\ SsmlConverter.convert self (PitchCommand 1.256)
     <> Some (Ok (Some (SetAttrCommand (u "prosody") (u "pitch") (VStr (u "126%"))))).
Proof. repeat split; try (vm_compute; reflexivity). vm_compute. discriminate. Qed.

(** C4 (amended). For every Pitch, Rate or Volume command whose multiplier
    is not 1.0 and gives a finite product with 100, the translator emits
    SetAttr("prosody", attrName, v), where attrName is "pitch", "rate" or
    "volume" respectively and v is the decimal string of
    int(multiplier*100), the product truncated toward zero, followed by
    "%". *)
Theorem prosody_sets_truncated_percentage
    (self : SsmlConverter.t) (command : SpeechCommand) (attrName : pystr)
    (multiplier : float) :
  prosody_of command = Some (attrName, multiplier) ->
  PrimFloat.eqb multiplier 1 = false ->
  finite (multiplier * 100)%float = true ->
  exists n,
    SsmlConverter.convert self command
    = Some (Ok (Some (SetAttrCommand (u "prosody") attrName (VStr (str_of_int n ++ u "%")))))
    /\ truncation_of (multiplier * 100)%float n.
Proof.
  intros Hc Hne Hfin.
  destruct (py_int_finite _ Hfin) as [n Hn].
  exists n. split; [|now apply py_int_truncation].
  destruct command; try discriminate; injection Hc as <- <-; simpl;
    unfold SsmlConverter.convertPitchCommand, SsmlConverter.convertRateCommand,
      SsmlConverter.convertVolumeCommand, SsmlConverter._convertProsody;
    now rewrite Hne, Hn.
Qed.

Lemma prosody_sets_truncated_percentage_witness :
  exists n,
    SsmlConverter.convert (SsmlConverter.__init__ (u "en_US")) (RateCommand 0.29)
    = Some (Ok (Some (SetAttrCommand (u "prosody") (u "rate") (VStr (str_of_int n ++ u "%")))))
    /\ truncation_of (0.29 * 100)%float n.
Proof.
  apply (prosody_sets_truncated_percentage
           (SsmlConverter.__init__ (u "en_US")) (RateCommand 0.29) (u "rate") 0.29);
    reflexivity.
Defined.

(** ** The converter: commands without a method *)

Import SpeechXmlConverter.

Section Translation.

Variable convert : SpeechCommand -> option (result (option balcmd)).

(** The generator over a sequence that starts with a part that
    translates. *)
Lemma generate_app (before rest : SpeechSequence) :
  translates convert before = true ->
  let g0 := generateBalancerCommands convert before in
  let g1 := generateBalancerCommands convert rest in
  raised g0 = None
  /\ generateBalancerCommands convert (before ++ rest)
     = mkGenerated (yielded g0 ++ yielded g1) (logged g0 ++ logged g1) (raised g1).
Proof.
  induction before as [|it before IH]; simpl; intro H.
  - split; [reflexivity|]. now destruct (generateBalancerCommands convert rest).
  - apply andb_true_iff in H as [Hit H]. destruct (IH H) as [IH0 IH1].
    destruct it as [s|c| |[|[|n]]]; try discriminate.
    + simpl. split; [exact IH0|]. rewrite IH1. reflexivity.
    + destruct (convert c) as [[[command|]|e]|]; try discriminate; simpl.
      * split; [exact IH0|]. rewrite IH1. reflexivity.
      * split; [exact IH0|]. exact IH1.
    + simpl. split; [exact IH0|]. rewrite IH1. reflexivity.
    + simpl. split; [exact IH0|]. rewrite IH1. reflexivity.
Qed.

End Translation.




(** ** Dictionaries with distinct keys *)

Section Dictionaries.

Context {V : Type}.
Implicit Types (d : odict V) (k : pystr) (v : V).

Lemma od_get_In d k v :
  od_get d k = Some v -> In (k, v) d.
Proof.
  induction d as [|[k' v'] d IH]; simpl; [discriminate|].
  destruct (pystr_eqb k' k) eqn:E.
  - apply pystr_eqb_eq in E. intros [= ->]. left. now subst.
  - intro H. right. now apply IH.
Qed.

Lemma In_od_keys d k v : In (k, v) d -> In k (od_keys d).
Proof. intro H. apply (in_map fst) in H. exact H. Qed.

Lemma od_get_None d k : ~ In k (od_keys d) -> od_get d k = None.
Proof.
  induction d as [|[k' v'] d IH]; simpl; [reflexivity|]. intro H.
  destruct (pystr_eqb k' k) eqn:E.
  - apply pystr_eqb_eq in E. tauto.
  - apply IH. tauto.
Qed.

Lemma In_od_get d k v :
  NoDup (od_keys d) -> In (k, v) d -> od_get d k = Some v.
Proof.
  induction d as [|[k' v'] d IH]; simpl; [contradiction|].
  intros Hnd [H|H]; inversion Hnd as [|? ? Hnotin Hnd']; subst.
  - injection H as -> ->. now rewrite pystr_eqb_refl.
  - destruct (pystr_eqb k' k) eqn:E.
    + apply pystr_eqb_eq in E. subst k'. apply In_od_keys in H. contradiction.
    + now apply IH.
Qed.

Lemma od_get_first d k v : od_get ((k, v) :: d) k = Some v.
Proof. simpl. now rewrite pystr_eqb_refl. Qed.

Lemma od_get_set_eq d k v : od_get (od_set d k v) k = Some v.
Proof.
  induction d as [|[k' v'] d IH]; simpl.
  - now rewrite pystr_eqb_refl.
  - destruct (pystr_eqb k' k) eqn:E; simpl; rewrite E; [reflexivity | exact IH].
Qed.

Lemma od_get_set_neq d k k' v :
  k <> k' -> od_get (od_set d k v) k' = od_get d k'.
Proof.
  intro Hne. induction d as [|[k0 v0] d IH]; simpl.
  - apply pystr_eqb_neq in Hne. now rewrite Hne.
  - destruct (pystr_eqb k0 k) eqn:E; simpl.
    + apply pystr_eqb_eq in E. subst k0.
      apply pystr_eqb_neq in Hne. now rewrite Hne.
    + now rewrite IH.
Qed.

Lemma od_keys_set d k v :
  od_keys (od_set d k v) = od_keys d \/ od_keys (od_set d k v) = od_keys d ++ [k] /\ ~ In k (od_keys d).
Proof.
  induction d as [|[k' v'] d IH]; simpl.
  - right. split; [reflexivity | tauto].
  - destruct (pystr_eqb k' k) eqn:E; simpl.
    + now left.
    + destruct IH as [IH|[IH Hn]].
      * left. now rewrite IH.
      * right. split; [now rewrite IH|].
        apply pystr_eqb_neq in E. intros [H|H]; [congruence | contradiction].
Qed.

Lemma NoDup_od_set d k v : NoDup (od_keys d) -> NoDup (od_keys (od_set d k v)).
Proof.
  intro H. destruct (od_keys_set d k v) as [E|[E Hn]]; rewrite E; [exact H|].
  apply NoDup_app; [exact H | repeat constructor; simpl; tauto |].
  intros x Hx [<-|[]]. contradiction.
Qed.

Lemma od_keys_del_incl d k x : In x (od_keys (od_del d k)) -> In x (od_keys d).
Proof.
  induction d as [|[k' v'] d IH]; simpl; [tauto|].
  destruct (pystr_eqb k' k); simpl; tauto.
Qed.

Lemma NoDup_od_del d k : NoDup (od_keys d) -> NoDup (od_keys (od_del d k)).
Proof.
  induction d as [|[k' v'] d IH]; simpl; [tauto|].
  intro H. inversion H as [|? ? Hn Hd]; subst.
  destruct (pystr_eqb k' k); simpl; [exact Hd|].
  constructor; [|now apply IH]. intro Hx. apply od_keys_del_incl in Hx. contradiction.
Qed.

Lemma od_get_del_eq d k : NoDup (od_keys d) -> od_get (od_del d k) k = None.
Proof.
  induction d as [|[k' v'] d IH]; simpl; [reflexivity|].
  intro H. inversion H as [|? ? Hn Hd]; subst.
  destruct (pystr_eqb k' k) eqn:E; simpl.
  - apply pystr_eqb_eq in E. subst k'. now apply od_get_None.
  - rewrite E. now apply IH.
Qed.

Lemma od_get_del_neq d k k' : k <> k' -> od_get (od_del d k) k' = od_get d k'.
Proof.
  intro Hne. induction d as [|[k0 v0] d IH]; simpl; [reflexivity|].
  destruct (pystr_eqb k0 k) eqn:E; simpl.
  - apply pystr_eqb_eq in E. subst k0. apply pystr_eqb_neq in Hne. now rewrite Hne.
  - now rewrite IH.
Qed.

Lemma od_get_del_None d k k' : od_get d k' = None -> od_get (od_del d k) k' = None.
Proof.
  induction d as [|[k0 v0] d IH]; simpl; [reflexivity|].
  destruct (pystr_eqb k0 k') eqn:E'; [discriminate|]. intro H.
  destruct (pystr_eqb k0 k); simpl; [exact H|]. rewrite E'. now apply IH.
Qed.

End Dictionaries.

(** ** The attributes of one tag, through the loop of the balancer *)

Lemma scoped_ext (tag : pystr) (Q : odict pyval -> Prop) (self self' : XmlBalancer.t) :
  _tags self' = _tags self ->
  _tagEnclosingText self' = _tagEnclosingText self ->
  scoped tag Q self -> scoped tag Q self'.
Proof. unfold scoped. now intros -> ->. Qed.

Lemma skipn_length_app {A : Type} (a b : list A) :
  skipn (List.length a) (a ++ b) = b.
Proof. induction a as [|x a IH]; simpl; [reflexivity | exact IH]. Qed.

Section Scope.

Variable T : pystr.
Variable Q : odict pyval -> Prop.
Variable allowed : balcmd -> Prop.

Hypothesis allowed_literal : forall c, allowed c -> literal_ok T c = true.
Hypothesis allowed_set :
  forall a v attrs,
    allowed (SetAttrCommand T a v) -> attrs = [] \/ Q attrs -> Q (od_set attrs a v).
Hypothesis Q_del : forall attrs a, Q attrs -> Q (od_del attrs a).


Lemma step_ok_refl (self : XmlBalancer.t) : scoped T Q self -> step_within T Q self self.
Proof.
  intro H. split; [exact H|]. exists []. now rewrite app_nil_r.
Qed.

Lemma step_ok_trans (s1 s2 s3 : XmlBalancer.t) :
  step_within T Q s1 s2 -> step_within T Q s2 s3 -> step_within T Q s1 s3.
Proof.
  intros [_ (t1 & E1 & F1)] [H3 (t2 & E2 & F2)]. split; [exact H3|].
  exists (t1 ++ t2). split.
  - now rewrite E2, E1, app_assoc.
  - apply Forall_app. now split.
Qed.

Lemma token_in_close (tag : pystr) : token_in T Q (TClose tag).
Proof. intros attrs empty H. discriminate. Qed.

Lemma token_in_text (s : pystr) : token_in T Q (TText s).
Proof. intros attrs empty H. discriminate. Qed.

Lemma token_in_other (tag : pystr) (attrs : odict pyval) (empty : bool) :
  tag <> T -> token_in T Q (TOpen tag attrs empty).
Proof. intros Hne attrs' empty' [= -> _ _]. contradiction. Qed.

Lemma emit_ok (self : XmlBalancer.t) (tok : token) :
  scoped T Q self -> token_in T Q tok -> step_within T Q self (emit self tok).
Proof.
  intros H Htok. split.
  - now apply (scoped_ext T Q self).
  - exists [tok]. split; [reflexivity|]. now constructor.
Qed.

Lemma _outputTags_ok (self : XmlBalancer.t) :
  scoped T Q self -> step_within T Q self (_outputTags self).
Proof.
  intro H. unfold _outputTags.
  destruct (_tagsChanged self); [|now apply step_ok_refl].
  rewrite fold_openTag, fold_closeTag. simpl. split.
  - now apply (scoped_ext T Q self).
  - eexists. split; [symmetry; apply app_assoc|].
    apply Forall_app. split.
    + apply Forall_forall. intros tok Hin. apply in_map_iff in Hin as (tag & <- & _).
      apply token_in_close.
    + apply Forall_forall. intros tok Hin. apply in_map_iff in Hin as ([tag attrs] & <- & Hin).
      intros attrs' empty' [= -> -> _]. destruct H as (Hnd & HQ & _).
      apply HQ. now apply In_od_get.
Qed.

Lemma _text_ok (self : XmlBalancer.t) (text : pystr) :
  scoped T Q self -> step_within T Q self (_text self text).
Proof.
  intro H. unfold _text.
  destruct (_tagEnclosingText self) as [[etag eattrs]|] eqn:E;
    [destruct (truthy etag)|]; try (apply emit_ok; [exact H | apply token_in_text]).
  assert (Hne : etag <> T) by (destruct H as (_ & _ & He); exact (He _ _ E)).
  unfold _closeTag, _openTag.
  eapply step_ok_trans; [eapply step_ok_trans|].
  - apply emit_ok; [exact H | apply (token_in_other etag eattrs false Hne)].
  - apply emit_ok; [|apply token_in_text]. now apply (scoped_ext T Q self).
  - apply emit_ok; [|apply token_in_close]. now apply (scoped_ext T Q self).
Qed.

Lemma with_tags_ok (self : XmlBalancer.t) (tags : odict (odict pyval)) (changed : bool) :
  NoDup (od_keys tags) ->
  (forall attrs, od_get tags T = Some attrs -> Q attrs) ->
  scoped T Q self ->
  step_within T Q self (with_tags self tags changed).
Proof.
  intros Hnd HQ (_ & _ & He). split.
  - split; [exact Hnd|]. split; [exact HQ | exact He].
  - exists []. simpl. now rewrite app_nil_r.
Qed.

Lemma _setAttr_ok (self : XmlBalancer.t) (tag attr : pystr) (val : pyval) :
  allowed (SetAttrCommand tag attr val) ->
  scoped T Q self -> step_within T Q self (_setAttr self tag attr val).
Proof.
  intros Hal H. pose proof H as (Hnd & HQ & He). unfold _setAttr.
  destruct (od_get (_tags self) tag) as [[|kv attrs]|] eqn:E.
  - (* an entry without attributes *)
    simpl. apply with_tags_ok; [now repeat apply NoDup_od_set | | exact H].
    intros attrs'. destruct (pystr_eqb tag T) eqn:ET.
    + apply pystr_eqb_eq in ET. subst tag. rewrite od_get_set_eq. intros [= <-].
      apply (allowed_set attr val []); [exact Hal | now left].
    + apply pystr_eqb_neq in ET. rewrite !od_get_set_neq by exact ET. apply HQ.
  - destruct (match od_get (kv :: attrs) attr with
              | Some v => negb (pyval_eqb v val)
              | None => true
              end).
    + apply with_tags_ok; [now apply NoDup_od_set | | exact H].
      intros attrs'. destruct (pystr_eqb tag T) eqn:ET.
      * apply pystr_eqb_eq in ET. subst tag. rewrite od_get_set_eq. intros [= <-].
        apply (allowed_set attr val (kv :: attrs)); [exact Hal | right; now apply HQ].
      * apply pystr_eqb_neq in ET. rewrite od_get_set_neq by exact ET. apply HQ.
    + rewrite with_tags_same. now apply step_ok_refl.
  - simpl. apply with_tags_ok; [now repeat apply NoDup_od_set | | exact H].
    intros attrs'. destruct (pystr_eqb tag T) eqn:ET.
    + apply pystr_eqb_eq in ET. subst tag. rewrite od_get_set_eq. intros [= <-].
      apply (allowed_set attr val []); [exact Hal | now left].
    + apply pystr_eqb_neq in ET. rewrite !od_get_set_neq by exact ET. apply HQ.
Qed.

Lemma _delAttr_ok (self : XmlBalancer.t) (tag attr : pystr) :
  scoped T Q self -> step_within T Q self (_delAttr self tag attr).
Proof.
  intro H. pose proof H as (Hnd & HQ & He). unfold _delAttr.
  destruct (od_get (_tags self) tag) as [[|kv attrs]|] eqn:E;
    try now apply step_ok_refl.
  destruct (od_get (kv :: attrs) attr) eqn:Ea; [|now apply step_ok_refl].
  destruct (od_del (kv :: attrs) attr) as [|kv' attrs'] eqn:Ed.
  - apply with_tags_ok; [now apply NoDup_od_del | | exact H].
    intros attrs0. destruct (pystr_eqb tag T) eqn:ET.
    + apply pystr_eqb_eq in ET. subst tag. now rewrite od_get_del_eq.
    + apply pystr_eqb_neq in ET. rewrite od_get_del_neq by exact ET. apply HQ.
  - apply with_tags_ok; [now apply NoDup_od_set | | exact H].
    intros attrs0. destruct (pystr_eqb tag T) eqn:ET.
    + apply pystr_eqb_eq in ET. subst tag. rewrite od_get_set_eq. intros [= <-].
      rewrite <- Ed. apply Q_del. now apply HQ.
    + apply pystr_eqb_neq in ET. rewrite od_get_set_neq by exact ET. apply HQ.
Qed.

Lemma feed_ok (self : XmlBalancer.t) (command : balcmd) :
  allowed command -> scoped T Q self -> step_within T Q self (feed self command).
Proof.
  intros Hal H. pose proof (allowed_literal _ Hal) as Hlit.
  destruct command as [text|tag attrs|tag attr val|tag attr|tag attrs| |tag attrs content];
    simpl in *.
  - eapply step_ok_trans; [now apply _outputTags_ok | apply _text_ok].
    now apply _outputTags_ok.
  - apply negb_true_iff, pystr_eqb_neq in Hlit.
    destruct (emit_ok self (TOpen tag attrs false) H (token_in_other tag attrs false Hlit))
      as [Hs Htoks].
    split; [|exact Htoks]. now apply (scoped_ext T Q self).
  - now apply _setAttr_ok.
  - now apply _delAttr_ok.
  - apply negb_true_iff, pystr_eqb_neq in Hlit. destruct H as (Hnd & HQ & He). split.
    + split; [exact Hnd|]. split; [exact HQ|]. now intros etag eattrs [= <- _].
    + exists []. simpl. now rewrite app_nil_r.
  - destruct H as (Hnd & HQ & He). split.
    + split; [exact Hnd|]. split; [exact HQ|]. discriminate.
    + exists []. simpl. now rewrite app_nil_r.
  - apply negb_true_iff, pystr_eqb_neq in Hlit.
    pose proof (_outputTags_ok self H) as H1.
    eapply step_ok_trans; [exact H1|]. destruct H1 as [H1 _].
    destruct content as [[|c content]|];
      try (apply emit_ok; [exact H1 | apply (token_in_other tag attrs true Hlit)]).
    unfold _closeTag, _openTag.
    pose proof (emit_ok _ (TOpen tag attrs false) H1 (token_in_other tag attrs false Hlit)) as H2.
    eapply step_ok_trans; [exact H2|]. destruct H2 as [H2 _].
    pose proof (_text_ok _ (c :: content) H2) as H3.
    eapply step_ok_trans; [exact H3|]. destruct H3 as [H3 _].
    apply emit_ok; [exact H3 | apply token_in_close].
Qed.

Lemma fold_feed_ok (commands : list balcmd) (self : XmlBalancer.t) :
  Forall allowed commands -> scoped T Q self ->
  step_within T Q self (fold_left feed commands self).
Proof.
  revert self; induction commands as [|c commands IH]; simpl; intros self Hal H.
  - now apply step_ok_refl.
  - inversion Hal as [|? ? Hc Hcs]; subst.
    pose proof (feed_ok self c Hc H) as H1.
    eapply step_ok_trans; [exact H1|]. apply IH; [exact Hcs | apply H1].
Qed.

(** What is emitted after a scoped state, by commands that are allowed and
    by closing, is within [Q]. *)
Lemma emitted_after_ok (before after : list balcmd) :
  scoped T Q (fold_left feed before __init__) ->
  Forall allowed after ->
  Forall (token_in T Q) (emitted_after before after).
Proof.
  intros H Hal. unfold emitted_after, tokens, close.
  rewrite fold_feed_app.
  destruct (fold_feed_ok after _ Hal H) as [_ (toks & E & F)].
  rewrite !fold_closeTag. simpl. rewrite E, <- !app_assoc, skipn_length_app.
  repeat (apply Forall_app; split); try exact F;
    apply Forall_forall; intros tok Hin; apply in_map_iff in Hin as (tag & <- & _);
    apply token_in_close.
Qed.

End Scope.

(** ** Resetting a prosody attribute *)

Lemma scoped_init (tag : pystr) (Q : odict pyval -> Prop) : scoped tag Q __init__.
Proof. repeat split; simpl; try constructor; discriminate. Qed.

Lemma scoped_weaken (tag : pystr) (Q Q' : odict pyval -> Prop) (self : XmlBalancer.t) :
  (forall attrs, od_get (_tags self) tag = Some attrs -> Q' attrs) ->
  scoped tag Q self -> scoped tag Q' self.
Proof. intros H (Hnd & _ & He). repeat split; assumption. Qed.

(** While attributes are set and deleted, the attributes of a tag keep
    distinct names. *)
Lemma fold_feed_distinct (tag : pystr) (commands : list balcmd) :
  Forall (fun c => literal_ok tag c = true) commands ->
  scoped tag (fun attrs => NoDup (od_keys attrs)) (fold_left feed commands __init__).
Proof.
  intro H.
  apply (fold_feed_ok tag (fun attrs => NoDup (od_keys attrs))
           (fun c => literal_ok tag c = true)); try assumption.
  - now intros c Hc.
  - intros a v attrs _ [->|Hnd]; [repeat constructor; simpl; tauto|].
    now apply NoDup_od_set.
  - intros attrs a. apply NoDup_od_del.
  - apply scoped_init.
Qed.

(** After the attribute was deleted, it is not in force. *)
Lemma _delAttr_scoped (tag attr : pystr) (self : XmlBalancer.t) :
  scoped tag (fun attrs => NoDup (od_keys attrs)) self ->
  scoped tag (fun attrs => od_get attrs attr = None) (_delAttr self tag attr).
Proof.
  intros (Hnd & HQ & He). unfold _delAttr.
  destruct (od_get (_tags self) tag) as [[|kv attrs]|] eqn:E.
  - repeat split; try assumption. intros attrs'. rewrite E. now intros [= <-].
  - destruct (od_get (kv :: attrs) attr) eqn:Ea.
    + destruct (od_del (kv :: attrs) attr) as [|kv' attrs'] eqn:Ed.
      * repeat split; simpl; [now apply NoDup_od_del | | exact He].
        intros attrs0. now rewrite od_get_del_eq.
      * repeat split; simpl; [now apply NoDup_od_set | | exact He].
        intros attrs0. rewrite od_get_set_eq. intros [= <-].
        rewrite <- Ed. apply od_get_del_eq. now apply HQ.
    + repeat split; try assumption. intros attrs'. rewrite E. now intros [= <-].
  - repeat split; try assumption. intros attrs'. rewrite E. discriminate.
Qed.

(** The balancer commands of the SSML converter. *)
Lemma yielded_leaves_attr (self : SsmlConverter.t) (attrName : pystr)
    (speechSequence : SpeechSequence) :
  only_resets attrName speechSequence = true ->
  Forall (fun c => leaves_attr (u "prosody") attrName c = true)
    (yielded (generateBalancerCommands (SsmlConverter.convert self) speechSequence)).
Proof.
  induction speechSequence as [|it rest IH]; simpl; intro H; [constructor|].
  apply andb_true_iff in H as [Hit H]. specialize (IH H).
  destruct it as [s|c| |[|[|n]]]; simpl; try (constructor; [reflexivity | exact IH]);
    try exact IH; try constructor.
  destruct c as [index|[|]|lang|time|m|m|m|ipa text|name]; simpl in *;
    try (constructor; [reflexivity | exact IH]); try constructor;
    try (unfold SsmlConverter.convertBreakCommand; destruct (format_int time); simpl;
         [constructor; [reflexivity | exact IH] | constructor]).
  all: unfold SsmlConverter.convertPitchCommand, SsmlConverter.convertRateCommand,
         SsmlConverter.convertVolumeCommand, SsmlConverter._convertProsody.
  all: destruct (PrimFloat.eqb m 1); simpl;
         [constructor; [reflexivity | exact IH]|].
  all: destruct (py_int (m * 100)%float); simpl; [|constructor].
  all: constructor; [|exact IH].
  all: rewrite orb_false_r in Hit; unfold leaves_attr; simpl; now rewrite Hit.
Qed.

Lemma yielded_leaves_tag (self : SsmlConverter.t) (speechSequence : SpeechSequence) :
  only_resets_prosody speechSequence = true ->
  Forall (fun c => leaves_tag (u "prosody") c = true)
    (yielded (generateBalancerCommands (SsmlConverter.convert self) speechSequence)).
Proof.
  induction speechSequence as [|it rest IH]; simpl; intro H; [constructor|].
  apply andb_true_iff in H as [Hit H]. specialize (IH H).
  destruct it as [s|c| |[|[|n]]]; simpl; try (constructor; [reflexivity | exact IH]);
    try exact IH; try constructor.
  destruct c as [index|[|]|lang|time|m|m|m|ipa text|name]; simpl in *;
    try (constructor; [reflexivity | exact IH]); try constructor;
    try (unfold SsmlConverter.convertBreakCommand; destruct (format_int time); simpl;
         [constructor; [reflexivity | exact IH] | constructor]).
  all: unfold SsmlConverter.convertPitchCommand, SsmlConverter.convertRateCommand,
         SsmlConverter.convertVolumeCommand, SsmlConverter._convertProsody.
  all: rewrite Hit; simpl; constructor; [reflexivity | exact IH].
Qed.

Lemma yielded_literal_ok (self : SsmlConverter.t) (speechSequence : SpeechSequence) :
  Forall (fun c => literal_ok (u "prosody") c = true)
    (yielded (generateBalancerCommands (SsmlConverter.convert self) speechSequence)).
Proof.
  induction speechSequence as [|it rest IH]; simpl; [constructor|].
  destruct it as [s|c| |[|[|n]]]; simpl; try (constructor; [reflexivity | exact IH]);
    try exact IH; try constructor.
  destruct c as [index|[|]|lang|time|m|m|m|ipa text|name]; simpl in *;
    try (constructor; [reflexivity | exact IH]); try constructor;
    try (unfold SsmlConverter.convertBreakCommand; destruct (format_int time); simpl;
         [constructor; [reflexivity | exact IH] | constructor]).
  all: unfold SsmlConverter.convertPitchCommand, SsmlConverter.convertRateCommand,
         SsmlConverter.convertVolumeCommand, SsmlConverter._convertProsody.
  all: destruct (PrimFloat.eqb m 1); simpl;
         [constructor; [reflexivity | exact IH]|].
  all: destruct (py_int (m * 100)%float); simpl; [|constructor].
  all: constructor; [reflexivity | exact IH].
Qed.

(** A Pitch, Rate or Volume command with multiplier 1.0 is translated to
    the deletion of its attribute. *)
Lemma convert_reset (self : SsmlConverter.t) (command : SpeechCommand)
    (attrName : pystr) (multiplier : float) :
  prosody_of command = Some (attrName, multiplier) ->
  PrimFloat.eqb multiplier 1 = true ->
  SsmlConverter.convert self command
  = Some (Ok (Some (DelAttrCommand (u "prosody") attrName))).
Proof.
  intros Hc H1.
  destruct command; try discriminate; injection Hc as <- <-; simpl;
    unfold SsmlConverter.convertPitchCommand, SsmlConverter.convertRateCommand,
      SsmlConverter.convertVolumeCommand, SsmlConverter._convertProsody;
    now rewrite H1.
Qed.

(** C6. When a Pitch, Rate or Volume command with multiplier 1.0 is
    reached (after a part of the sequence that translates, such as a command
    of the same kind with another multiplier), its attribute is deleted, not
    set to "100%": as long as no later command of that kind has a multiplier
    other than 1.0, no prosody start tag emitted after the reset carries the
    attribute; and if no prosody attribute remains in force at the reset,
    no prosody start tag is emitted any more, as long as the later Pitch,
    Rate and Volume commands have multiplier 1.0. *)
Theorem reset_removes_prosody_attribute
    (self : SsmlConverter.t) (before after : SpeechSequence)
    (command : SpeechCommand) (attrName : pystr) (multiplier : float) :
  prosody_of command = Some (attrName, multiplier) ->
  PrimFloat.eqb multiplier 1 = true ->
  translates (SsmlConverter.convert self) before = true ->
  only_resets attrName after = true ->
  let upto := yielded (SsmlConverter.generateBalancerCommands self (before ++ [Cmd command])) in
  let rest := yielded (generateBalancerCommands (SsmlConverter.convert self) after) in
  yielded (SsmlConverter.generateBalancerCommands self (before ++ Cmd command :: after))
  = upto ++ rest
  /\ in_force (fold_left feed upto __init__) (u "prosody") attrName = None
  /\ (forall tok, In tok (emitted_after upto rest) ->
        opens_with (u "prosody") attrName tok = false)
  /\ (od_get (_tags (fold_left feed upto __init__)) (u "prosody") = None ->
      only_resets_prosody after = true ->
      forall tok, In tok (emitted_after upto rest) -> opens (u "prosody") tok = false).
Proof.
  intros Hc H1 Hbefore Hafter upto rest.
  pose proof (convert_reset self command attrName multiplier Hc H1) as Hconv.
  destruct (generate_app (SsmlConverter.convert self) before [Cmd command] Hbefore)
    as [_ E0].
  destruct (generate_app (SsmlConverter.convert self) before (Cmd command :: after) Hbefore)
    as [_ E1].
  simpl in E0, E1. rewrite Hconv in E0, E1. simpl in E0, E1.
  assert (Eupto : upto
                  = (EncloseAllCommand (u "speak") (SsmlConverter.speakAttrs self)
                       :: yielded (generateBalancerCommands (SsmlConverter.convert self) before))
                    ++ [DelAttrCommand (u "prosody") attrName]).
  { unfold upto, SsmlConverter.generateBalancerCommands. now rewrite E0. }
  (* the state at the reset *)
  assert (Hreset : scoped (u "prosody") (fun attrs => od_get attrs attrName = None)
                     (fold_left feed upto __init__)).
  { rewrite Eupto, fold_feed_app.
    refine (_delAttr_scoped (u "prosody") attrName _ _).
    apply fold_feed_distinct.
    constructor; [reflexivity | apply yielded_literal_ok]. }
  split; [|split; [|split]].
  - unfold SsmlConverter.generateBalancerCommands. rewrite E1, Eupto. simpl.
    now rewrite <- app_assoc.
  - unfold in_force. destruct Hreset as (_ & HQ & _).
    destruct (od_get (_tags (fold_left feed upto __init__)) (u "prosody")) eqn:E;
      [now apply HQ | reflexivity].
  - intros tok Hin.
    assert (F : Forall (token_in (u "prosody") (fun attrs => od_get attrs attrName = None))
                  (emitted_after upto rest)).
    { apply (emitted_after_ok (u "prosody") _
               (fun c => leaves_attr (u "prosody") attrName c = true)).
      - intros c Hal. now apply andb_true_iff in Hal as [Hal _].
      - intros a v attrs Hal Hattrs. unfold leaves_attr in Hal. simpl in Hal.
        apply negb_true_iff, pystr_eqb_neq in Hal.
        rewrite od_get_set_neq by exact Hal.
        now destruct Hattrs as [->|Hattrs].
      - intros attrs a. apply od_get_del_None.
      - exact Hreset.
      - now apply yielded_leaves_attr. }
    rewrite Forall_forall in F. specialize (F tok Hin).
    destruct tok as [t attrs empty| |]; try reflexivity. simpl.
    destruct (pystr_eqb t (u "prosody")) eqn:Et; [|reflexivity].
    apply pystr_eqb_eq in Et. subst t. now rewrite (F attrs empty eq_refl).
  - intros Hnone Hafter' tok Hin.
    assert (F : Forall (token_in (u "prosody") (fun _ => False)) (emitted_after upto rest)).
    { apply (emitted_after_ok (u "prosody") _ (fun c => leaves_tag (u "prosody") c = true)).
      - intros c Hal. now apply andb_true_iff in Hal as [Hal _].
      - intros a v attrs Hal _. unfold leaves_tag in Hal. simpl in Hal. discriminate.
      - tauto.
      - apply (scoped_weaken _ (fun attrs => od_get attrs attrName = None));
          [|exact Hreset].
        intros attrs H. congruence.
      - now apply yielded_leaves_tag. }
    rewrite Forall_forall in F. specialize (F tok Hin).
    destruct tok as [t attrs empty| |]; try reflexivity. simpl.
    destruct (pystr_eqb t (u "prosody")) eqn:Et; [|reflexivity].
    apply pystr_eqb_eq in Et. subst t. destruct (F attrs empty eq_refl).
Qed.

Lemma reset_removes_prosody_attribute_witness :
  let self := SsmlConverter.__init__ (u "en_US") in
  let before := [Cmd (PitchCommand 1.2); Str (u "high")] in
  let after := [Str (u "normal")] in
  let upto := yielded (SsmlConverter.generateBalancerCommands self
                         (before ++ [Cmd (PitchCommand 1)])) in
  let rest := yielded (generateBalancerCommands (SsmlConverter.convert self) after) in
  emitted_after upto rest = [TClose (u "prosody"); TText (u "normal"); TClose (u "speak")]
  /\ forall tok, In tok (emitted_after upto rest) -> opens (u "prosody") tok = false.
Proof.
  split; [reflexivity|].
  destruct (reset_removes_prosody_attribute
              (SsmlConverter.__init__ (u "en_US"))
              [Cmd (PitchCommand 1.2); Str (u "high")] [Str (u "normal")]
              (PitchCommand 1) (u "pitch") 1%float eq_refl eq_refl eq_refl eq_refl)
    as (_ & _ & _ & H).
  exact (H eq_refl eq_refl).
Defined.

(** ** The parser: the scenario *)

(** C8. When the parser reports the events of the document
    <speak><prosody pitch="120%">hi<break time="10ms"/></prosody></speak>,
    decoding it yields exactly PitchCommand(1.2), "hi", BreakCommand(10),
    PitchCommand(1.0): the end of the prosody element emits the command of
    its pitch attribute again, with multiplier 1.0. *)
Theorem decode_scenario
    (Parse : pystr -> option (list xmlevent)) (this : SsmlParser.self_t) :
  Parse scenario_xml = Some (events_of scenario_document) ->
  SsmlParser.convertFromXml Parse this scenario_xml
  = Ok [Cmd (PitchCommand 1.2); Str (u "hi"); Cmd (BreakCommand 10); Cmd (PitchCommand 1)].
Proof.
  intro H. unfold SsmlParser.convertFromXml, SpeechXmlParser.convertFromXml.
  rewrite H. vm_compute. reflexivity.
Qed.

Lemma decode_scenario_witness :
  readEvents scenario_xml = Some (events_of scenario_document)
  /\ SsmlParser.convertFromXml readEvents (SsmlParser.mk false) scenario_xml
     = Ok [Cmd (PitchCommand 1.2); Str (u "hi"); Cmd (BreakCommand 10); Cmd (PitchCommand 1)].
Proof.
  split; [reflexivity|].
  apply (decode_scenario readEvents (SsmlParser.mk false)). reflexivity.
Defined.

(** ** The parser: the handlers on the events of a document *)

Import SpeechXmlParser.

Lemma handle_all_app
    (parse : pystr -> option (option (odict pystr) -> t -> result (list SpeechCommand * t)))
    (a b : list xmlevent) (self : t) :
  handle_all parse self (a ++ b)
  = match handle_all parse self a with
    | Ok self' => handle_all parse self' b
    | Raise e => Raise e
    end.
Proof.
  revert self; induction a as [|ev a IH]; intro self; simpl; [reflexivity|].
  destruct (handle parse self ev); [apply IH | reflexivity].
Qed.

Lemma untouched_refl (self : t) : untouched self self.
Proof. now split. Qed.

Lemma untouched_log (self self' : t) (r : logrec) :
  untouched self self' -> untouched self (debugWarning self' r).
Proof. intros [H1 H2]. now split. Qed.

Lemma prosodyCommands_cons (isOpenTag : bool) (attr val : pystr) (rest : odict pystr)
    (self : t) :
  SsmlParser.prosodyCommands isOpenTag ((attr, val) :: rest) self
  = match RE_PERCENTAGE val with
    | None =>
        SsmlParser.prosodyCommands isOpenTag rest
          (debugWarning self (UnparseableProsodyValue attr val))
    | Some (ip, fp) =>
        let multiplier :=
          if isOpenTag then (float_of_decimal ip fp / 100)%float else 1%float in
        if pystr_eqb attr (u "pitch") then
          let '(cs, self) := SsmlParser.prosodyCommands isOpenTag rest self in
          (PitchCommand multiplier :: cs, self)
        else if pystr_eqb attr (u "volume") then
          let '(cs, self) := SsmlParser.prosodyCommands isOpenTag rest self in
          (VolumeCommand multiplier :: cs, self)
        else if pystr_eqb attr (u "rate") then
          let '(cs, self) := SsmlParser.prosodyCommands isOpenTag rest self in
          (RateCommand multiplier :: cs, self)
        else
          SsmlParser.prosodyCommands isOpenTag rest
            (debugWarning self (UnknownProsodyAttribute attr))
    end.
Proof. reflexivity. Qed.

Lemma prosodyCommands_untouched (isOpenTag : bool) (attrs : odict pystr) (self : t) :
  untouched self (snd (SsmlParser.prosodyCommands isOpenTag attrs self))
  /\ Forall is_prosody (fst (SsmlParser.prosodyCommands isOpenTag attrs self)).
Proof.
  revert self; induction attrs as [|[attr val] attrs IH]; intro self.
  - split; [apply untouched_refl | constructor].
  - rewrite prosodyCommands_cons.
    assert (Hlog : forall r,
               untouched self
                 (snd (SsmlParser.prosodyCommands isOpenTag attrs (debugWarning self r)))
               /\ Forall is_prosody
                    (fst (SsmlParser.prosodyCommands isOpenTag attrs (debugWarning self r)))).
    { intro r. destruct (IH (debugWarning self r)) as [[H1 H2] Hc].
      split; [split; [exact H1 | exact H2] | exact Hc]. }
    destruct (RE_PERCENTAGE val) as [[ip fp]|]; [|apply Hlog]. cbv zeta.
    specialize (IH self).
    destruct (SsmlParser.prosodyCommands isOpenTag attrs self) as [cs self'].
    destruct IH as [Hu Hc]. simpl in Hu, Hc.
    destruct (pystr_eqb attr (u "pitch"));
      [|destruct (pystr_eqb attr (u "volume"));
        [|destruct (pystr_eqb attr (u "rate")); [|apply Hlog]]];
      (split; [exact Hu | constructor; [exact I | exact Hc]]).
Qed.

Lemma plain_parseSayAs : plain not_lang SsmlParser.parseSayAs.
Proof.
  intros attrs self. eexists _, self. split; [reflexivity|].
  split; [apply untouched_refl | now repeat constructor].
Qed.

Lemma plain_parseVoice : plain (fun _ => True) SsmlParser.parseVoice.
Proof.
  intros [attrs|] self; unfold SsmlParser.parseVoice;
    [destruct (od_get attrs (u "xml:lang"))|];
    eexists _, self; (split; [reflexivity|]);
    (split; [apply untouched_refl | now repeat constructor]).
Qed.

(** [parseBreak] raises when [int] refuses the digits of the time, and
    only then. *)
Lemma parseBreak_cases (attrs : option (odict pystr)) (self : t) :
  if unreadable_time attrs
  then exists e, SsmlParser.parseBreak attrs self = Raise e
  else exists cs self',
         SsmlParser.parseBreak attrs self = Ok (cs, self')
         /\ untouched self self' /\ Forall not_lang cs.
Proof.
  unfold unreadable_time, SsmlParser.parseBreak, py_int_of_digits.
  destruct attrs as [attrs|];
    [destruct (od_get attrs (u "time")) as [val|];
     [destruct (RE_TIME_MS val) as [digits|];
      [destruct (Z.of_nat (List.length digits) <=? int_max_str_digits)|]|]|];
    simpl; try (eexists; reflexivity);
    eexists _, _; (split; [reflexivity|]);
    (split; [try apply untouched_log; apply untouched_refl | now repeat constructor]).
Qed.

Lemma plain_parseSpeak : plain not_lang SsmlParser.parseSpeak.
Proof.
  intros attrs self. exists [], self. split; [reflexivity|].
  split; [apply untouched_refl | constructor].
Qed.

Lemma plain_parseMark (this : SsmlParser.self_t) : plain not_lang (SsmlParser.parseMark this).
Proof.
  intros [attrs|] self; unfold SsmlParser.parseMark;
    [destruct (od_get attrs (u "name")); [destruct (SsmlParser._markCallback this)|]|];
    eexists _, self; (split; [reflexivity|]);
    (split; [apply untouched_refl | now repeat constructor]).
Qed.

(** The generators of the class. *)
Lemma parse_cases (this : SsmlParser.self_t) (processed : pystr) (g : SsmlParser.generator) :
  SsmlParser.parse this processed = Some g ->
  (processed = u "Voice" /\ g = SsmlParser.parseVoice)
  \/ plain not_lang g
  \/ g = SsmlParser.parseProsody
  \/ (processed = u "Break" /\ g = SsmlParser.parseBreak).
Proof.
  unfold SsmlParser.parse.
  destruct (pystr_eqb processed (u "SayAs")).
  { intros [= <-]. right. left. apply plain_parseSayAs. }
  destruct (pystr_eqb processed (u "Voice")) eqn:EV.
  { intros [= <-]. left. apply pystr_eqb_eq in EV. now split. }
  destruct (pystr_eqb processed (u "Break")) eqn:EB.
  { intros [= <-]. right. right. right. apply pystr_eqb_eq in EB. now split. }
  destruct (pystr_eqb processed (u "Prosody")).
  { intros [= <-]. right. right. left. reflexivity. }
  destruct (pystr_eqb processed (u "Speak")).
  { intros [= <-]. right. left. apply plain_parseSpeak. }
  destruct (pystr_eqb processed (u "Mark")).
  { intros [= <-]. right. left. apply plain_parseMark. }
  discriminate.
Qed.

(** The generator of an element, at its start tag and at its end tag, when
    the start tag is not that of a break element with a time that [int]
    refuses: it returns and leaves the parser untouched, unless it is
    [parseProsody]. *)
Lemma generator_returns (this : SsmlParser.self_t) (name : pystr) (attrs : odict pystr)
    (g : SsmlParser.generator) :
  SsmlParser.parse this (processedTagName name) = Some g ->
  unreadable_start name attrs = false ->
  (forall a, a = Some attrs \/ a = None ->
     forall self, exists cs self', g a self = Ok (cs, self') /\ untouched self self')
  \/ g = SsmlParser.parseProsody.
Proof.
  intros Eg Hread.
  destruct (parse_cases this _ g Eg) as [[_ ->]|[H|[H|[Hb ->]]]].
  - left. intros a _ self.
    destruct (plain_parseVoice a self) as (cs & s1 & E & Hu & _). now exists cs, s1.
  - left. intros a _ self. destruct (H a self) as (cs & s1 & E & Hu & _). now exists cs, s1.
  - now right.
  - left. intros a Ha self. pose proof (parseBreak_cases a self) as Hc.
    assert (Hn : unreadable_time a = false).
    { destruct Ha as [->| ->]; [|reflexivity].
      unfold unreadable_start in Hread. now rewrite Hb in Hread. }
    rewrite Hn in Hc. destruct Hc as (cs & s1 & E & Hu & _). now exists cs, s1.
Qed.

Lemma last_snoc {A : Type} (l : list A) (x d : A) : last (l ++ [x]) d = x.
Proof. apply last_last. Qed.

(** The handlers of an element: the start tag, the events of the children,
    the end tag.  The cached prosody attributes are as before at the end. *)
Lemma handle_element (this : SsmlParser.self_t) (name : pystr) (attrs : odict pystr)
    (inner : list xmlevent) :
  unreadable_start name attrs = false ->
  (forall self, exists self',
      handle_all (SsmlParser.parse this) self inner = Ok self'
      /\ _cachedProsodyAttrs self' = _cachedProsodyAttrs self) ->
  forall self, exists self',
    handle_all (SsmlParser.parse this) self
      (StartElement name attrs :: inner ++ [EndElement name]) = Ok self'
    /\ _cachedProsodyAttrs self' = _cachedProsodyAttrs self.
Proof.
  intros Hread Hinner self. simpl. unfold _elementHandler.
  destruct (SsmlParser.parse this (processedTagName name)) as [g|] eqn:Eg.
  - destruct (generator_returns this name attrs g Eg Hread) as [Hg| ->].
    + destruct (Hg (Some attrs) (or_introl eq_refl) self) as (cs & s1 & E1 & [_ Hc1]).
      rewrite E1.
      destruct (Hinner (set_sequence s1 (fold_left add_command cs (_speechSequence s1))))
        as (s2 & E2 & Hc2).
      rewrite handle_all_app, E2. simpl. unfold _elementHandler. rewrite Eg.
      destruct (Hg None (or_intror eq_refl) s2) as (cs3 & s3 & E3 & [_ Hc3]). rewrite E3.
      eexists. split; [reflexivity|]. simpl in *. congruence.
    + unfold SsmlParser.parseProsody at 1.
      destruct (prosodyCommands_untouched true attrs
                  (SpeechXmlParser.mk (_speechSequence self)
                     (_cachedProsodyAttrs self ++ [attrs]) (log self))) as [[_ Hc1] _].
      destruct (SsmlParser.prosodyCommands true attrs _) as [cs s1]. simpl in Hc1.
      destruct (Hinner (set_sequence s1 (fold_left add_command cs (_speechSequence s1))))
        as (s2 & E2 & Hc2).
      rewrite handle_all_app, E2. simpl. unfold _elementHandler. rewrite Eg.
      simpl in Hc2. rewrite Hc1 in Hc2.
      unfold SsmlParser.parseProsody. rewrite Hc2.
      destruct (_cachedProsodyAttrs self ++ [attrs]) as [|a l] eqn:El.
      { now destruct (_cachedProsodyAttrs self). }
      rewrite <- El, last_snoc, removelast_last.
      destruct (prosodyCommands_untouched false attrs
                  (SpeechXmlParser.mk (_speechSequence s2)
                     (_cachedProsodyAttrs self) (log s2))) as [[_ Hc3] _].
      destruct (SsmlParser.prosodyCommands false attrs _) as [cs3 s3]. simpl in Hc3.
      eexists. split; [reflexivity|]. exact Hc3.
  - destruct (Hinner (debugWarning self (UnsupportedTag name))) as (s2 & E2 & Hc2).
    rewrite handle_all_app, E2. simpl. unfold _elementHandler. rewrite Eg.
    eexists. split; [reflexivity|]. exact Hc2.
Qed.

Lemma handle_children (this : SsmlParser.self_t) (children : list xmlnode) :
  Forall (fun n => forall self, exists self',
              handle_all (SsmlParser.parse this) self (events_of n) = Ok self'
              /\ _cachedProsodyAttrs self' = _cachedProsodyAttrs self) children ->
  forall self, exists self',
    handle_all (SsmlParser.parse this) self (flat_map events_of children) = Ok self'
    /\ _cachedProsodyAttrs self' = _cachedProsodyAttrs self.
Proof.
  induction 1 as [|n children Hn _ IH]; intro self; simpl.
  - now exists self.
  - destruct (Hn self) as (s1 & E1 & Hc1). destruct (IH s1) as (s2 & E2 & Hc2).
    exists s2. rewrite handle_all_app, E1. split; [exact E2 | congruence].
Qed.

(** Run over the events of a document without a break element whose time
    [int] refuses, the handlers return. *)
Lemma handle_document (this : SsmlParser.self_t) (n : xmlnode) :
  readable n = true ->
  forall self, exists self',
    handle_all (SsmlParser.parse this) self (events_of n) = Ok self'
    /\ _cachedProsodyAttrs self' = _cachedProsodyAttrs self.
Proof.
  induction n as [name attrs children IH|data] using xmlnode_induction.
  - intro H. cbn [readable] in H. apply andb_true_iff in H as [Hstart Hchildren].
    apply negb_true_iff in Hstart.
    apply handle_element; [exact Hstart|]. apply handle_children.
    rewrite forallb_forall in Hchildren. rewrite Forall_forall in IH |- *.
    intros x Hx. apply (IH x Hx), Hchildren, Hx.
  - intros _ self. simpl. eexists. split; reflexivity.
Qed.

(** The start tag of a break element whose time [int] refuses: its handler
    raises. *)
Lemma handle_unreadable_start (this : SsmlParser.self_t) (name : pystr) (attrs : odict pystr)
    (self : t) :
  unreadable_start name attrs = true ->
  exists e, handle (SsmlParser.parse this) self (StartElement name attrs) = Raise e.
Proof.
  unfold unreadable_start. intro H. apply andb_true_iff in H as [Hb Hu].
  apply pystr_eqb_eq in Hb. simpl. unfold _elementHandler. rewrite Hb.
  replace (SsmlParser.parse this (u "Break")) with (Some SsmlParser.parseBreak)
    by reflexivity.
  pose proof (parseBreak_cases (Some attrs) self) as Hc. rewrite Hu in Hc.
  destruct Hc as [e ->]. now exists e.
Qed.

(** The start tag of any other element: its handler returns. *)
Lemma handle_readable_start (this : SsmlParser.self_t) (name : pystr) (attrs : odict pystr)
    (self : t) :
  unreadable_start name attrs = false ->
  exists self', handle (SsmlParser.parse this) self (StartElement name attrs) = Ok self'.
Proof.
  intro Hread. simpl. unfold _elementHandler.
  destruct (SsmlParser.parse this (processedTagName name)) as [g|] eqn:Eg;
    [|eexists; reflexivity].
  destruct (generator_returns this name attrs g Eg Hread) as [Hg| ->].
  - destruct (Hg (Some attrs) (or_introl eq_refl) self) as (cs & s1 & -> & _).
    eexists; reflexivity.
  - unfold SsmlParser.parseProsody.
    destruct (SsmlParser.prosodyCommands true attrs _). eexists; reflexivity.
Qed.

(** Run over the events of a document with a break element whose time
    [int] refuses, the handlers raise. *)
Lemma handle_unreadable_document (this : SsmlParser.self_t) (n : xmlnode) :
  readable n = false ->
  forall self, exists e, handle_all (SsmlParser.parse this) self (events_of n) = Raise e.
Proof.
  induction n as [name attrs children IH|data] using xmlnode_induction;
    [|discriminate].
  intros H self. cbn [readable] in H. cbn [events_of handle_all].
  destruct (unreadable_start name attrs) eqn:Hstart.
  - destruct (handle_unreadable_start this name attrs self Hstart) as [e ->]. now exists e.
  - destruct (handle_readable_start this name attrs self Hstart) as [s1 ->].
    simpl in H. rewrite handle_all_app.
    assert (Hc : exists e,
               handle_all (SsmlParser.parse this) s1 (flat_map events_of children)
               = Raise e).
    { clear Hstart. revert s1. induction IH as [|x children Hx _ IHc]; intro s1;
        [discriminate|].
      cbn [forallb flat_map] in H |- *. rewrite handle_all_app.
      destruct (readable x) eqn:Ex.
      - destruct (handle_document this x Ex s1) as (s2 & -> & _). now apply IHc.
      - destruct (Hx eq_refl s1) as [e ->]. now exists e. }
    destruct Hc as [e ->]. now exists e.
Qed.

(** X1. Provided the parser, when it raises no error of its own, has
    reported the events of a whole document whose element names and
    attribute values are ASCII strings: convertFromXml raises
    ValueError("XML: " + xml), which quotes the input, and returns no
    sequence, exactly when the parser raises an error or the document has a
    break element whose time has more than 4300 digits, which int() refuses
    in parseBreak; and it returns a speech sequence exactly when the parser
    reports a document without such an element. *)
Theorem convertFromXml_raises_iff_parser_or_int_raises
    (Parse : pystr -> option (list xmlevent)) (this : SsmlParser.self_t) (xml : pystr) :
  (forall events,
     Parse xml = Some events ->
     exists document, events = events_of document /\ ascii_node document = true) ->
  (Parse xml = None
   \/ (exists document, Parse xml = Some (events_of document) /\ readable document = false)
   <-> SsmlParser.convertFromXml Parse this xml = Raise (ValueError (u "XML: " ++ xml)))
  /\ ((exists document, Parse xml = Some (events_of document) /\ readable document = true)
      <-> exists speechSequence,
            SsmlParser.convertFromXml Parse this xml = Ok speechSequence).
Proof.
  intro Hdoc. unfold SsmlParser.convertFromXml, convertFromXml.
  destruct (Parse xml) as [events|] eqn:E.
  - destruct (Hdoc events eq_refl) as (document & -> & _).
    set (st := SpeechXmlParser.mk [] [] []).
    assert (Hsame : forall d, Some (events_of document) = Some (events_of d) ->
                      readable d = readable document).
    { intros d [= Hd]. destruct (readable d) eqn:Hrd, (readable document) eqn:Hr;
        try reflexivity.
      - destruct (handle_document this d Hrd st) as (s1 & E1 & _).
        destruct (handle_unreadable_document this document Hr st) as [e E2].
        rewrite Hd in E2. congruence.
      - destruct (handle_document this document Hr st) as (s1 & E1 & _).
        destruct (handle_unreadable_document this d Hrd st) as [e E2].
        rewrite Hd in E1. congruence. }
    destruct (readable document) eqn:Hr.
    + destruct (handle_document this document Hr st) as (self' & -> & _).
      split; split.
      * intros [H|(d & Hd & Hd')]; [discriminate|]. rewrite (Hsame d Hd) in Hd'.
        discriminate.
      * discriminate.
      * intros _. now exists (_speechSequence self').
      * intros _. now exists document.
    + destruct (handle_unreadable_document this document Hr st) as [e ->].
      split; split.
      * reflexivity.
      * intros _. right. now exists document.
      * intros (d & Hd & Hd'). rewrite (Hsame d Hd) in Hd'. discriminate.
      * intros [s H]. discriminate.
  - split; split.
    + reflexivity.
    + intros _. now left.
    + intros (d & H & _). discriminate.
    + intros [s H]. discriminate.
Qed.

Lemma convertFromXml_raises_iff_parser_or_int_raises_witness :
  ((exists document,
      readEvents scenario_xml = Some (events_of document) /\ readable document = true)
   <-> exists speechSequence,
         SsmlParser.convertFromXml readEvents (SsmlParser.mk true) scenario_xml
         = Ok speechSequence)
  /\ (readEvents (u "<speak></prosody>") = None
      \/ (exists document,
            readEvents (u "<speak></prosody>") = Some (events_of document)
            /\ readable document = false)
      <-> SsmlParser.convertFromXml readEvents (SsmlParser.mk true) (u "<speak></prosody>")
          = Raise (ValueError (u "XML: " ++ u "<speak></prosody>"))).
Proof.
  split.
  - apply (convertFromXml_raises_iff_parser_or_int_raises
             readEvents (SsmlParser.mk true) scenario_xml).
    intros events H. exists scenario_document.
    assert (E : readEvents scenario_xml = Some (events_of scenario_document)) by reflexivity.
    split; [congruence | reflexivity].
  - apply (convertFromXml_raises_iff_parser_or_int_raises
             readEvents (SsmlParser.mk true) (u "<speak></prosody>")).
    intros events H. vm_compute in H. discriminate.
Defined.

(** ** The parser: the LangChange commands of the sequence *)

(** The first step of [add_command]: the sequence without its last element
    when that element has the type of the command. *)
Lemma add_command_cases (s : SpeechSequence) (c : SpeechCommand) :
  exists s1,
    add_command s c
    = (if match find (item_has_type c) (rev s1) with
          | Some (Cmd p) => negb (cmd_eqb p c)
          | _ => true
          end
       then s1 ++ [Cmd c] else s1)
    /\ (s1 = s \/ exists x, s = s1 ++ [x] /\ item_has_type c x = true).
Proof.
  unfold add_command. destruct s as [|y s]; [exists []; split; [reflexivity | now left]|].
  destruct (item_has_type c (last (y :: s) Unknown)) eqn:E.
  - exists (removelast (y :: s)). split; [reflexivity|]. right.
    exists (last (y :: s) Unknown). split; [|exact E].
    apply app_removelast_last. discriminate.
  - exists (y :: s). split; [reflexivity | now left].
Qed.

Lemma langChanges_app (a b : SpeechSequence) :
  langChanges (a ++ b) = langChanges a ++ langChanges b.
Proof. apply filter_app. Qed.

Lemma same_type_not_lang (c c' : SpeechCommand) :
  not_lang c -> same_type c' c = true -> not_lang c'.
Proof. unfold not_lang. destruct c, c'; simpl; congruence. Qed.

(** A command that is not a LangChange command leaves the LangChange
    commands of the sequence. *)
Lemma add_command_keeps_langs (s : SpeechSequence) (c : SpeechCommand) :
  not_lang c -> langChanges (add_command s c) = langChanges s.
Proof.
  intro Hc. destruct (add_command_cases s c) as (s1 & -> & Hs1).
  assert (H1 : langChanges s1 = langChanges s).
  { destruct Hs1 as [->|(x & -> & Hx)]; [reflexivity|].
    rewrite langChanges_app. simpl.
    destruct x as [t|c'| |n]; simpl in *; try discriminate.
    unfold is_lang. simpl. rewrite (same_type_not_lang c c' Hc Hx). now rewrite app_nil_r. }
  destruct (match find (item_has_type c) (rev s1) with
            | Some (Cmd p) => negb (cmd_eqb p c)
            | _ => true
            end); [|exact H1].
  rewrite langChanges_app, H1. simpl. unfold is_lang. simpl.
  unfold not_lang in Hc. rewrite Hc. apply app_nil_r.
Qed.

Lemma fold_add_command_keeps_langs (cs : list SpeechCommand) (s : SpeechSequence) :
  Forall not_lang cs -> langChanges (fold_left add_command cs s) = langChanges s.
Proof.
  revert s; induction cs as [|c cs IH]; intros s H; simpl; [reflexivity|].
  inversion H; subst. rewrite IH by assumption. now apply add_command_keeps_langs.
Qed.

Lemma find_lang (l : option pystr) (s : SpeechSequence) :
  find (item_has_type (LangChangeCommand l)) (rev s) = hd_error (rev (langChanges s)).
Proof.
  unfold langChanges. rewrite <- filter_rev.
  induction (rev s) as [|x t IH]; simpl; [reflexivity|].
  assert (E : item_has_type (LangChangeCommand l) x = is_lang x).
  { now destruct x. }
  rewrite E. destruct (is_lang x); [reflexivity | exact IH].
Qed.

Lemma opt_eqb_refl (a : option pystr) : opt_eqb a a = true.
Proof. destruct a; simpl; [apply pystr_eqb_refl | reflexivity]. Qed.

(** The first LangChange command is appended. *)
Lemma add_command_first_lang (s : SpeechSequence) (l : option pystr) :
  langChanges s = [] ->
  langChanges (add_command s (LangChangeCommand l)) = [Cmd (LangChangeCommand l)].
Proof.
  intro H. destruct (add_command_cases s (LangChangeCommand l)) as (s1 & -> & Hs1).
  assert (H1 : langChanges s1 = []).
  { destruct Hs1 as [->|(x & -> & Hx)]; [exact H|].
    rewrite langChanges_app in H. now apply app_eq_nil in H. }
  rewrite find_lang, H1. simpl. now rewrite langChanges_app, H1.
Qed.

(** A LangChange command equal to the only one of the sequence leaves one
    LangChange command: it replaces the last element, or it is not added. *)
Lemma add_command_same_lang (s : SpeechSequence) (l : option pystr) :
  langChanges s = [Cmd (LangChangeCommand l)] ->
  langChanges (add_command s (LangChangeCommand l)) = [Cmd (LangChangeCommand l)].
Proof.
  intro H. destruct (add_command_cases s (LangChangeCommand l)) as (s1 & -> & Hs1).
  rewrite find_lang.
  destruct Hs1 as [->|(x & -> & Hx)].
  - rewrite H. simpl. now rewrite opt_eqb_refl.
  - rewrite langChanges_app in H. simpl in H.
    assert (Ex : is_lang x = true).
    { now destruct x. }
    rewrite Ex in H.
    apply app_eq_unit in H as [[H1 _]|[_ H2]]; [|discriminate].
    rewrite H1. simpl. now rewrite langChanges_app, H1.
Qed.

Lemma is_prosody_not_lang (c : SpeechCommand) : is_prosody c -> not_lang c.
Proof. destruct c; simpl; try contradiction; reflexivity. Qed.

(** Handlers of events other than the start of a voice element leave the
    LangChange commands of the sequence. *)
Lemma handle_keeps_langs (this : SsmlParser.self_t) (self self' : t) (ev : xmlevent) :
  nonvoice_event ev = true ->
  handle (SsmlParser.parse this) self ev = Ok self' ->
  langChanges (_speechSequence self') = langChanges (_speechSequence self).
Proof.
  assert (Hplain : forall (g : SsmlParser.generator) attrs,
             (exists cs s1,
                g attrs self = Ok (cs, s1) /\ untouched self s1 /\ Forall not_lang cs)
             \/ (exists e, g attrs self = Raise e) ->
             match g attrs self with
             | Raise e => Raise e
             | Ok (commands, s) =>
                 Ok (set_sequence s (fold_left add_command commands (_speechSequence s)))
             end = Ok self' ->
             langChanges (_speechSequence self') = langChanges (_speechSequence self)).
  { intros g attrs [(cs & s1 & -> & [Hs _] & Hcs)|[e ->]]; [|discriminate].
    intros [= <-]. simpl. now rewrite fold_add_command_keeps_langs, Hs. }
  assert (Hbreak : forall attrs,
             (exists cs s1,
                SsmlParser.parseBreak attrs self = Ok (cs, s1)
                /\ untouched self s1 /\ Forall not_lang cs)
             \/ (exists e, SsmlParser.parseBreak attrs self = Raise e)).
  { intro attrs. pose proof (parseBreak_cases attrs self) as Hc.
    destruct (unreadable_time attrs); [now right | now left]. }
  assert (Hprosody : forall isOpenTag attrs cache,
             (let '(commands, s) :=
                SsmlParser.prosodyCommands isOpenTag attrs
                  (SpeechXmlParser.mk (_speechSequence self) cache (log self)) in
              Ok (set_sequence s (fold_left add_command commands (_speechSequence s))))
             = Ok self' ->
             langChanges (_speechSequence self') = langChanges (_speechSequence self)).
  { intros isOpenTag attrs cache.
    destruct (prosodyCommands_untouched isOpenTag attrs
                (SpeechXmlParser.mk (_speechSequence self) cache (log self)))
      as [[Hs _] Hcs].
    destruct (SsmlParser.prosodyCommands isOpenTag attrs _) as [cs s1]. simpl in Hs, Hcs.
    intros [= <-]. simpl. rewrite fold_add_command_keeps_langs, Hs; [reflexivity|].
    eapply Forall_impl; [|exact Hcs]. apply is_prosody_not_lang. }
  destruct ev as [name attrs|name|data]; simpl; intro Hev; unfold _elementHandler.
  - destruct (SsmlParser.parse this (processedTagName name)) as [g|] eqn:Eg.
    + destruct (parse_cases this _ g Eg) as [[Hv _]|[Hg|[->|[_ ->]]]].
      * rewrite Hv in Hev. discriminate.
      * apply Hplain. left. apply Hg.
      * apply Hprosody.
      * apply Hplain, Hbreak.
    + now intros [= <-].
  - destruct (SsmlParser.parse this (processedTagName name)) as [g|] eqn:Eg.
    + destruct (parse_cases this _ g Eg) as [[_ ->]|[Hg|[->|[_ ->]]]].
      * now intros [= <-].
      * apply Hplain. left. apply Hg.
      * unfold SsmlParser.parseProsody.
        destruct (_cachedProsodyAttrs self); [discriminate | apply Hprosody].
      * apply Hplain, Hbreak.
    + now intros [= <-].
  - intros [= <-]. simpl. rewrite langChanges_app. apply app_nil_r.
Qed.

Lemma handle_all_keeps_langs (this : SsmlParser.self_t) (events : list xmlevent)
    (self self' : t) :
  forallb nonvoice_event events = true ->
  handle_all (SsmlParser.parse this) self events = Ok self' ->
  langChanges (_speechSequence self') = langChanges (_speechSequence self).
Proof.
  revert self; induction events as [|ev events IH]; simpl; intros self Hev.
  - now intros [= <-].
  - apply andb_true_iff in Hev as [Hev Hevs].
    destruct (handle (SsmlParser.parse this) self ev) as [s1|] eqn:E; [|discriminate].
    intro H. rewrite (IH s1 Hevs H). now apply (handle_keeps_langs this self s1 ev).
Qed.

Lemma handle_all_app_ok
    (parse : pystr -> option (option (odict pystr) -> t -> result (list SpeechCommand * t)))
    (a b : list xmlevent) (self final : t) :
  handle_all parse self (a ++ b) = Ok final ->
  exists middle, handle_all parse self a = Ok middle /\ handle_all parse middle b = Ok final.
Proof.
  rewrite handle_all_app. destruct (handle_all parse self a) as [middle|]; [|discriminate].
  intro H. now exists middle.
Qed.

(** The voice elements of a document are the start tags of voice elements
    among its events. *)
Lemma voice_starts_app (a b : list xmlevent) :
  voice_starts (a ++ b) = (voice_starts a + voice_starts b)%nat.
Proof. unfold voice_starts. now rewrite filter_app, length_app. Qed.

Lemma voices_events (n : xmlnode) : voice_starts (events_of n) = voices n.
Proof.
  induction n as [name attrs children IH|data] using xmlnode_induction; [|reflexivity].
  cbn [events_of voices].
  change (StartElement name attrs :: flat_map events_of children ++ [EndElement name])
    with ([StartElement name attrs] ++ flat_map events_of children ++ [EndElement name]).
  rewrite !voice_starts_app.
  replace (voice_starts (flat_map events_of children)) with (list_sum (map voices children)).
  - unfold voice_starts. simpl.
    destruct (pystr_eqb (processedTagName name) (u "Voice")); simpl; lia.
  - unfold list_sum. induction IH as [|x children Hx _ IHc]; [reflexivity|].
    cbn [map fold_right flat_map]. now rewrite voice_starts_app, Hx, IHc.
Qed.

Lemma voice_starts_none (events : list xmlevent) :
  voice_starts events = 0%nat -> forallb nonvoice_event events = true.
Proof.
  unfold voice_starts. induction events as [|ev events IH]; [reflexivity|]. simpl.
  destruct (nonvoice_event ev); simpl; [exact IH | discriminate].
Qed.

(** The events of a document in which a node comes twice in a row. *)
Lemma twice_events (v n : xmlnode) :
  twice v n ->
  exists before after, events_of n = before ++ events_of v ++ events_of v ++ after.
Proof.
  induction 1 as [name attrs before after|name attrs before child after _ (b & a & IH)].
  - exists (StartElement name attrs :: flat_map events_of before),
      (flat_map events_of after ++ [EndElement name]).
    cbn [events_of]. rewrite flat_map_app. cbn [flat_map].
    now rewrite <- !app_assoc.
  - exists (StartElement name attrs :: flat_map events_of before ++ b),
      (a ++ flat_map events_of after ++ [EndElement name]).
    cbn [events_of]. rewrite flat_map_app. cbn [flat_map]. rewrite IH.
    repeat (rewrite <- app_assoc || rewrite <- app_comm_cons). reflexivity.
Qed.

Lemma handle_all_one
    (parse : pystr -> option (option (odict pystr) -> t -> result (list SpeechCommand * t)))
    (ev : xmlevent) (self : t) :
  handle_all parse self [ev] = handle parse self ev.
Proof. simpl. now destruct (handle parse self ev). Qed.

(** The start of a voice element with a language. *)
Lemma handle_start_voice (this : SsmlParser.self_t) (self : t) (name : pystr)
    (attrs : odict pystr) (xmlLang : pystr) :
  processedTagName name = u "Voice" ->
  od_get attrs (u "xml:lang") = Some xmlLang ->
  handle (SsmlParser.parse this) self (StartElement name attrs)
  = Ok (set_sequence self
          (add_command (_speechSequence self) (LangChangeCommand (Some (toNvdaLang xmlLang))))).
Proof.
  intros Hname H. simpl. unfold _elementHandler. rewrite Hname.
  replace (SsmlParser.parse this (u "Voice")) with (Some SsmlParser.parseVoice)
    by reflexivity.
  unfold SsmlParser.parseVoice. now rewrite H.
Qed.

(** C7 (counterexamples).  Two identical consecutive voice elements without
    the attribute xml:lang are decoded to no LangChange command; two
    identical consecutive voice elements which each hold a text and a voice
    element of another language are decoded to four. *)
Lemma identical_voices_not_one_LangChange :
  let plain_voice := Element (u "voice") [] [CData (u "bonjour")] in
  let nested_voice :=
    Element (u "voice") [(u "xml:lang", u "fr")]
      [CData (u "a"); Element (u "voice") [(u "xml:lang", u "de")] [CData (u "b")]] in
  let fr := Cmd (LangChangeCommand (Some (u "fr"))) in
  let de := Cmd (LangChangeCommand (Some (u "de"))) in
  readEvents two_plain_voices_xml
  = Some (events_of (Element (u "speak") [] [plain_voice; plain_voice]))
  /\ SsmlParser.convertFromXml readEvents (SsmlParser.mk false) two_plain_voices_xml
     = Ok [Str (u "bonjour"); Str (u "bonjour")]
  /\ langChanges [Str (u "bonjour"); Str (u "bonjour")] = []
  /\ readEvents two_nested_voices_xml
     = Some (events_of (Element (u "speak") [] [nested_voice; nested_voice]))
  /\ SsmlParser.convertFromXml readEvents (SsmlParser.mk false) two_nested_voices_xml
     = Ok [fr; Str (u "a"); de; Str (u "b"); fr; Str (u "a"); de; Str (u "b")]
  /\ langChanges [fr; Str (u "a"); de; Str (u "b"); fr; Str (u "a"); de; Str (u "b")]
     = [fr; de; fr; de].
Proof. repeat split; reflexivity. Qed.

(** C7 (amended). For a document in which, at any depth, two voice
    elements with the same attributes, among them a language, and the same
    content follow each other directly, which has no other voice element
    and no break element whose time int() refuses (element names and
    attribute values being ASCII strings), the parser returning its
    events, decoding yields a sequence with exactly one LangChange command,
    that of the language: the second one replaces the first when nothing
    was added in between, and is not added otherwise. *)
Theorem two_identical_voices_one_LangChange
    (Parse : pystr -> option (list xmlevent)) (this : SsmlParser.self_t) (xml : pystr)
    (document : xmlnode) (name : pystr) (vattrs : odict pystr) (body : list xmlnode)
    (xmlLang : pystr) :
  let voice := Element name vattrs body in
  Parse xml = Some (events_of document) ->
  twice voice document ->
  processedTagName name = u "Voice" ->
  od_get vattrs (u "xml:lang") = Some xmlLang ->
  voices document = 2%nat ->
  ascii_node document = true ->
  readable document = true ->
  exists speechSequence,
    SsmlParser.convertFromXml Parse this xml = Ok speechSequence
    /\ langChanges speechSequence = [Cmd (LangChangeCommand (Some (toNvdaLang xmlLang)))].
Proof.
  intros voice HParse Htwice Hname Hlang Hvoices _ Hread.
  unfold SsmlParser.convertFromXml, convertFromXml. rewrite HParse.
  destruct (handle_document this document Hread (SpeechXmlParser.mk [] [] []))
    as (final & E & _).
  rewrite E. exists (_speechSequence final). split; [reflexivity|].
  (* the events, cut at the two start tags of the voice elements *)
  destruct (twice_events voice document Htwice) as (seg1 & after & Eev).
  set (start := StartElement name vattrs).
  set (seg2 := flat_map events_of body ++ [EndElement name]).
  assert (Ev : events_of voice = [start] ++ seg2) by reflexivity.
  rewrite Ev in Eev. clear Ev.
  (* no other start tag of a voice element *)
  pose proof (voices_events document) as Hc.
  rewrite Hvoices, Eev, !voice_starts_app in Hc.
  assert (Hs : voice_starts [start] = 1%nat).
  { unfold voice_starts, start. simpl. now rewrite Hname. }
  rewrite Hs in Hc.
  assert (Hseg1 : forallb nonvoice_event seg1 = true) by (apply voice_starts_none; lia).
  assert (Hseg2 : forallb nonvoice_event seg2 = true) by (apply voice_starts_none; lia).
  assert (Hafter : forallb nonvoice_event after = true) by (apply voice_starts_none; lia).
  rewrite Eev, <- !app_assoc in E.
  apply handle_all_app_ok in E as (s1 & E1 & E).
  apply handle_all_app_ok in E as (s2 & E2 & E).
  apply handle_all_app_ok in E as (s3 & E3 & E).
  apply handle_all_app_ok in E as (s4 & E4 & E).
  apply handle_all_app_ok in E as (s5 & E5 & E6).
  rewrite handle_all_one in E2, E4. unfold start in E2, E4.
  rewrite (handle_start_voice this s1 name vattrs xmlLang Hname Hlang) in E2.
  rewrite (handle_start_voice this s3 name vattrs xmlLang Hname Hlang) in E4.
  injection E2 as <-. injection E4 as <-.
  apply handle_all_keeps_langs in E1; [|exact Hseg1].
  apply handle_all_keeps_langs in E3; [|exact Hseg2].
  apply handle_all_keeps_langs in E5; [|exact Hseg2].
  apply handle_all_keeps_langs in E6; [|exact Hafter].
  simpl in E1, E3, E5, E6.
  rewrite E6, E5. apply add_command_same_lang.
  rewrite E3. now apply add_command_first_lang.
Qed.

Lemma two_identical_voices_one_LangChange_witness :
  let voice := Element (u "voice") [(u "xml:lang", u "fr-CA")] [CData (u "bonjour")] in
  let document :=
    Element (u "speak") []
      [Element (u "prosody") [(u "pitch", u "120%")] [CData (u "hi"); voice; voice]] in
  readEvents two_voices_xml = Some (events_of document)
  /\ exists speechSequence,
       SsmlParser.convertFromXml readEvents (SsmlParser.mk false) two_voices_xml
       = Ok speechSequence
       /\ langChanges speechSequence = [Cmd (LangChangeCommand (Some (u "fr_CA")))].
Proof.
  split; [reflexivity|].
  apply (two_identical_voices_one_LangChange readEvents (SsmlParser.mk false) two_voices_xml
           (Element (u "speak") []
              [Element (u "prosody") [(u "pitch", u "120%")]
                 [CData (u "hi");
                  Element (u "voice") [(u "xml:lang", u "fr-CA")] [CData (u "bonjour")];
                  Element (u "voice") [(u "xml:lang", u "fr-CA")] [CData (u "bonjour")]]])
           (u "voice") [(u "xml:lang", u "fr-CA")] [CData (u "bonjour")] (u "fr-CA"));
    try reflexivity.
  apply (twice_below _ (u "speak") [] [] _ []).
  apply (twice_here _ (u "prosody") [(u "pitch", u "120%")] [CData (u "hi")] []).
Defined.

(** ** Round trips *)


(** *** Decimal numerals *)

Lemma uint_of_digits_of_uint (d : Decimal.uint) :
  uint_of_digits (digits_of_uint d) = d.
Proof. induction d; simpl; unfold digit_cons; simpl; congruence. Qed.

Lemma digits_of_uint_digits (d : Decimal.uint) :
  forallb is_digit (digits_of_uint d) = true.
Proof. induction d; simpl; auto. Qed.

Lemma digits_of_uint_nonnil (d : Decimal.uint) :
  d <> Decimal.Nil -> digits_of_uint d <> [].
Proof. destruct d; simpl; congruence. Qed.

(** The decimal string of a natural number: a non-empty string of digits
    that [int] reads back. *)
Lemma str_of_int_nonneg (n : Z) :
  0 <= n ->
  str_of_int n <> []
  /\ forallb is_digit (str_of_int n) = true
  /\ int_of_digits (str_of_int n) = n.
Proof.
  intro Hn. unfold str_of_int, int_of_digits.
  destruct n as [|p|p]; [| |lia]; simpl.
  - repeat split. discriminate.
  - split; [|split].
    + apply digits_of_uint_nonnil, Unsigned.to_uint_nonnil.
    + apply digits_of_uint_digits.
    + rewrite uint_of_digits_of_uint. unfold Z.of_uint.
      now rewrite Unsigned.of_to.
Qed.

Lemma chomp_ms (s : pystr) : chomp (s ++ [109; 115]) = s ++ [109; 115].
Proof. unfold chomp. now rewrite rev_app_distr. Qed.

Lemma RE_TIME_MS_str_of_int (n : Z) :
  0 <= n -> RE_TIME_MS (str_of_int n ++ u "ms") = Some (str_of_int n).
Proof.
  intro Hn. destruct (str_of_int_nonneg n Hn) as (Hne & Hd & _).
  unfold RE_TIME_MS. change (u "ms") with [109; 115].
  rewrite chomp_ms, rev_app_distr.
  change (rev [109; 115] ++ rev (str_of_int n)) with (115 :: 109 :: rev (str_of_int n)).
  destruct (rev (str_of_int n)) as [|d r] eqn:E.
  - apply (f_equal (@rev Z)) in E. rewrite rev_involutive in E. contradiction.
  - assert (Hr : forallb is_digit (d :: r) = true).
    { apply forallb_forall. intros x Hx. rewrite <- E in Hx. apply in_rev in Hx.
      rewrite forallb_forall in Hd. now apply Hd. }
    cbv beta match. rewrite Hr, <- E, rev_involutive. reflexivity.
Qed.

(** *** Break commands *)

Lemma set_sequence_same (st : t) : set_sequence st (_speechSequence st) = st.
Proof. now destruct st. Qed.

Lemma digits_of_int_nonneg (n : Z) : 0 <= n -> digits_of_int n = str_of_int n.
Proof. unfold digits_of_int, str_of_int. destruct n as [|p|p]; [reflexivity..|lia]. Qed.



(** *** The dedup rules applied twice *)

Lemma add_command_drop_same (s : SpeechSequence) (c : SpeechCommand) :
  add_command s c
  = if match find (item_has_type c) (rev (drop_same c s)) with
       | Some (Cmd p) => negb (cmd_eqb p c)
       | _ => true
       end
    then drop_same c s ++ [Cmd c] else drop_same c s.
Proof. reflexivity. Qed.

Lemma drop_same_snoc (c : SpeechCommand) (s : SpeechSequence) (x : item) :
  drop_same c (s ++ [x]) = if item_has_type c x then s else s ++ [x].
Proof.
  unfold drop_same. destruct (s ++ [x]) as [|y l] eqn:E.
  - now destruct s.
  - rewrite <- E, last_last, removelast_last. reflexivity.
Qed.

Lemma snoc_cases {A : Type} (l : list A) : l = [] \/ exists l' x, l = l' ++ [x].
Proof.
  destruct l as [|y l]; [now left|]. right.
  destruct (exists_last (l := y :: l)) as (l' & x & E); [discriminate|].
  now exists l', x.
Qed.

Lemma drop_same_cases (c : SpeechCommand) (s : SpeechSequence) :
  drop_same c s = s \/ exists x, s = drop_same c s ++ [x] /\ item_has_type c x = true.
Proof.
  destruct (snoc_cases s) as [->|(l & x & ->)]; [now left|].
  rewrite drop_same_snoc. destruct (item_has_type c x) eqn:E; [|now left].
  right. now exists x.
Qed.

(** A command is added at the end exactly when nothing is dropped and the
    command differs from the previous one of its type. *)
Lemma add_command_appends (s : SpeechSequence) (c : SpeechCommand) :
  add_command s c = s ++ [Cmd c] ->
  drop_same c s = s.
Proof.
  rewrite add_command_drop_same. intro H.
  destruct (match find (item_has_type c) (rev (drop_same c s)) with
            | Some (Cmd p) => negb (cmd_eqb p c)
            | _ => true
            end).
  - now apply app_inj_tail in H.
  - destruct (drop_same_cases c s) as [E|(x & E & _)]; [exact E|].
    rewrite H in E. apply (f_equal (@List.length item)) in E.
    rewrite !length_app in E. simpl in E. lia.
Qed.

Lemma same_type_compat (c c' y : SpeechCommand) :
  same_type c' c = true -> same_type y c = same_type y c'.
Proof. destruct c', c; try discriminate; intros _; now destruct y. Qed.

Lemma drop_same_compat (c c' : SpeechCommand) (s : SpeechSequence) :
  same_type c' c = true -> drop_same c s = drop_same c' s.
Proof.
  intro H. destruct (snoc_cases s) as [->|(l & x & ->)]; [reflexivity|].
  rewrite !drop_same_snoc.
  replace (item_has_type c x) with (item_has_type c' x); [reflexivity|].
  destruct x as [?|y| |?]; try reflexivity. simpl. symmetry. now apply same_type_compat.
Qed.

Lemma settled_snoc (s : SpeechSequence) (x : item) :
  settled (s ++ [x]) ->
  settled s /\ forall c, x = Cmd c -> add_command s c = s ++ [Cmd c].
Proof.
  intro H. remember (s ++ [x]) as l eqn:E.
  destruct H as [|s' it H Hit|s' c' H Hadd].
  - now destruct s.
  - apply app_inj_tail in E as [-> ->]. split; [exact H|].
    intros c Hc. now contradiction (Hit c).
  - apply app_inj_tail in E as [-> <-]. split; [exact H|].
    now intros c [= <-].
Qed.

(** Adding an element by the dedup rules keeps a sequence settled. *)
Lemma add_item_settled (s : SpeechSequence) (it : item) :
  settled s -> settled (add_item s it).
Proof.
  intro H. destruct it as [t|c| |?]; simpl;
    try (apply settled_other; [exact H | discriminate]).
  rewrite add_command_drop_same.
  assert (H1 : settled (drop_same c s) /\ drop_same c (drop_same c s) = drop_same c s).
  { destruct (snoc_cases s) as [->|(l & x & ->)]; [now split|].
    rewrite drop_same_snoc. destruct (item_has_type c x) eqn:E.
    - destruct (settled_snoc l x H) as [Hl Hx]. split; [exact Hl|].
      destruct x as [?|cx| |?]; try discriminate. simpl in E.
      rewrite (drop_same_compat c cx l E).
      apply add_command_appends. now apply Hx.
    - split; [exact H|]. now rewrite drop_same_snoc, E. }
  destruct H1 as [Hs Hd].
  destruct (match find (item_has_type c) (rev (drop_same c s)) with
            | Some (Cmd p) => negb (cmd_eqb p c)
            | _ => true
            end) eqn:Ediff; [|exact Hs].
  apply settled_cmd; [exact Hs|].
  rewrite add_command_drop_same, Hd, Ediff. reflexivity.
Qed.

Lemma fold_add_item_settled (speechSequence s : SpeechSequence) :
  settled s -> settled (fold_left add_item speechSequence s).
Proof.
  revert s; induction speechSequence as [|it rest IH]; simpl; intros s H; [exact H|].
  now apply IH, add_item_settled.
Qed.

(** The dedup rules leave a settled sequence as it is. *)
Lemma settled_deduplicated (s : SpeechSequence) : settled s -> deduplicated s = s.
Proof.
  unfold deduplicated. induction 1 as [|s it H IH Hit|s c H IH Hadd].
  - reflexivity.
  - rewrite fold_left_app, IH. simpl. destruct it; try reflexivity.
    now contradiction (Hit c).
  - rewrite fold_left_app, IH. simpl. exact Hadd.
Qed.


Lemma drop_same_forallb (f : item -> bool) (c : SpeechCommand) (s : SpeechSequence) :
  forallb f s = true -> forallb f (drop_same c s) = true.
Proof.
  destruct (snoc_cases s) as [->|(l & x & ->)]; [easy|].
  rewrite drop_same_snoc, forallb_app. intro H. apply andb_true_iff in H as [Hl Hx].
  destruct (item_has_type c x); [exact Hl|]. now rewrite forallb_app, Hl.
Qed.

Lemma fold_add_item_forallb (f : item -> bool) (speechSequence s : SpeechSequence) :
  forallb f speechSequence = true -> forallb f s = true ->
  forallb f (fold_left add_item speechSequence s) = true.
Proof.
  revert s; induction speechSequence as [|it rest IH]; simpl; intros s H Hs; [exact Hs|].
  apply andb_true_iff in H as [Hit H]. apply IH; [exact H|].
  destruct it as [t|c| |?]; simpl; try (rewrite forallb_app, Hs; simpl; now rewrite Hit).
  rewrite add_command_drop_same.
  pose proof (drop_same_forallb f c s Hs) as Hd.
  destruct (match find (item_has_type c) (rev (drop_same c s)) with
            | Some (Cmd p) => negb (cmd_eqb p c)
            | _ => true
            end); [|exact Hd].
  rewrite forallb_app, Hd. simpl. now rewrite Hit.
Qed.

(** ** An input that ends early *)

(** C3 (failing input). [parser.Parse(xml)] is a call that is not final:
    for the input <speak>hello, which ends before the speak element is
    closed, it reports the start of the element and the text, and raises
    nothing.  convertFromXml then returns the partial sequence ["hello"];
    it raises no ValueError for this markup, which is not well-formed. *)
Theorem unfinished_document_is_decoded
    (Parse : pystr -> option (list xmlevent)) (this : SsmlParser.self_t) :
  Parse unfinished_xml = Some [StartElement (u "speak") []; CharacterData (u "hello")] ->
  SsmlParser.convertFromXml Parse this unfinished_xml = Ok [Str (u "hello")].
Proof.
  intro H. unfold SsmlParser.convertFromXml, convertFromXml. rewrite H. reflexivity.
Qed.

Lemma unfinished_document_is_decoded_witness :
  readDocument unfinished_xml = None
  /\ readEvents unfinished_xml = Some [StartElement (u "speak") []; CharacterData (u "hello")]
  /\ SsmlParser.convertFromXml readEvents (SsmlParser.mk false) unfinished_xml
     = Ok [Str (u "hello")].
Proof.
  split; [reflexivity|]. split; [reflexivity|].
  apply (unfinished_document_is_decoded readEvents (SsmlParser.mk false)). reflexivity.
Defined.

(** * Further properties *)

(** ** The balancer: what a turn of the loop appends *)

Lemma fold_feed_EncloseAll (encl : odict (odict pyval)) (self : XmlBalancer.t) :
  fold_left feed (map EncloseAll_of encl) self
  = XmlBalancer.mk (_out self ++ map (fun ta => TOpen (fst ta) (snd ta) false) encl)
      (_enclosingAllTags self ++ od_keys encl) (_tagsChanged self) (_openTags self)
      (_tags self) (_tagEnclosingText self).
Proof.
  revert self; induction encl as [|[tag attrs] encl IH]; intro self; simpl.
  - rewrite !app_nil_r. now destruct self.
  - rewrite IH. simpl. now rewrite <- !app_assoc.
Qed.

Lemma emits_nil (self : XmlBalancer.t) : emits self [] = self.
Proof. unfold emits. rewrite app_nil_r. now destruct self. Qed.

Lemma emits_emits (self : XmlBalancer.t) (a b : list token) :
  emits (emits self a) b = emits self (a ++ b).
Proof. unfold emits. simpl. now rewrite <- app_assoc. Qed.

Lemma _text_emits (self : XmlBalancer.t) (text : pystr) :
  _text self text = emits self (text_tokens self text).
Proof.
  unfold _text, text_tokens, enclosing_text, emits, _closeTag, _openTag, emit.
  destruct (_tagEnclosingText self) as [[etag eattrs]|] eqn:E; [destruct (truthy etag)|];
    simpl; rewrite ?E; rewrite <- ?app_assoc; reflexivity.
Qed.

Lemma _outputTags_emits (self : XmlBalancer.t) :
  _outputTags self
  = if _tagsChanged self then
      XmlBalancer.mk
        (_out self ++ map TClose (rev (_openTags self))
           ++ map (fun ta => TOpen (fst ta) (snd ta) false) (_tags self))
        (_enclosingAllTags self) false (od_keys (_tags self)) (_tags self)
        (_tagEnclosingText self)
    else self.
Proof.
  unfold _outputTags. destruct (_tagsChanged self); [|reflexivity].
  rewrite fold_openTag, fold_closeTag. simpl. now rewrite <- app_assoc.
Qed.

Lemma enclosing_text_outputTags (self : XmlBalancer.t) :
  enclosing_text (_outputTags self) = enclosing_text self.
Proof. unfold enclosing_text. now rewrite _outputTags_enclosing. Qed.

Lemma feed_StandAlone (self : XmlBalancer.t) (tag : pystr) (attrs : odict pyval)
    (content : option pystr) :
  feed self (StandAloneTagCommand tag attrs content)
  = emits (_outputTags self)
      match content with
      | Some ((_ :: _) as c) =>
          TOpen tag attrs false :: text_tokens self c ++ [TClose tag]
      | _ => [TOpen tag attrs true]
      end.
Proof.
  simpl. destruct content as [[|c content]|]; try reflexivity.
  rewrite _text_emits. unfold _closeTag, _openTag, emit, emits, text_tokens. simpl.
  change (enclosing_text (XmlBalancer.mk _ _ _ _ _ (_tagEnclosingText (_outputTags self))))
    with (enclosing_text (_outputTags self)).
  rewrite enclosing_text_outputTags. now rewrite <- !app_assoc.
Qed.

(** ** The balancer: start tags and end tags *)

Lemma count_app (f : token -> bool) (a b : list token) :
  count f (a ++ b) = (count f a + count f b)%nat.
Proof. unfold count. now rewrite filter_app, length_app. Qed.

Lemma occurrences_app (tag : pystr) (a b : list pystr) :
  occurrences tag (a ++ b) = (occurrences tag a + occurrences tag b)%nat.
Proof. unfold occurrences. now rewrite filter_app, length_app. Qed.

Lemma occurrences_rev (tag : pystr) (l : list pystr) :
  occurrences tag (rev l) = occurrences tag l.
Proof.
  induction l as [|x l IH]; [reflexivity|]. simpl rev.
  rewrite occurrences_app, IH. unfold occurrences. simpl.
  destruct (pystr_eqb x tag); simpl; lia.
Qed.

Lemma count_closes (tag : pystr) (l : list pystr) :
  count (starts tag) (map TClose l) = 0%nat
  /\ count (ends tag) (map TClose l) = occurrences tag l.
Proof.
  unfold count, occurrences. induction l as [|x l [IH1 IH2]]; simpl; [now split|].
  split; [exact IH1|]. destruct (pystr_eqb x tag); simpl; now rewrite IH2.
Qed.

Lemma count_opens (tag : pystr) (tags : odict (odict pyval)) :
  count (starts tag) (map (fun ta => TOpen (fst ta) (snd ta) false) tags)
  = occurrences tag (od_keys tags)
  /\ count (ends tag) (map (fun ta => TOpen (fst ta) (snd ta) false) tags) = 0%nat.
Proof.
  unfold count, occurrences. induction tags as [|[x a] tags [IH1 IH2]]; simpl; [now split|].
  split; [|exact IH2]. destruct (pystr_eqb x tag); simpl; now rewrite IH1.
Qed.

Lemma count_text_tokens (tag : pystr) (self : XmlBalancer.t) (text : pystr) :
  count (starts tag) (text_tokens self text) = count (ends tag) (text_tokens self text).
Proof.
  unfold text_tokens. destruct (enclosing_text self) as [|[etag eattrs] l]; [reflexivity|].
  unfold count. simpl. now destruct (pystr_eqb etag tag).
Qed.

Lemma open_balance_emits (tag : pystr) (self : XmlBalancer.t) (toks : list token) :
  count (starts tag) toks = count (ends tag) toks ->
  open_balance tag self -> open_balance tag (emits self toks).
Proof. unfold open_balance, emits. simpl. rewrite !count_app. lia. Qed.

Lemma open_balance_frame (tag : pystr) (self self' : XmlBalancer.t) :
  _out self' = _out self
  /\ _openTags self' = _openTags self
  /\ _enclosingAllTags self' = _enclosingAllTags self ->
  open_balance tag self -> open_balance tag self'.
Proof. unfold open_balance. intros (-> & -> & ->) H. exact H. Qed.

Lemma open_balance_outputTags (tag : pystr) (self : XmlBalancer.t) :
  open_balance tag self -> open_balance tag (_outputTags self).
Proof.
  rewrite _outputTags_emits. destruct (_tagsChanged self); [|tauto].
  unfold open_balance. simpl. rewrite !count_app.
  destruct (count_closes tag (rev (_openTags self))) as [-> ->].
  destruct (count_opens tag (_tags self)) as [-> ->].
  rewrite occurrences_rev. lia.
Qed.

Lemma open_balance_feed (tag : pystr) (self : XmlBalancer.t) (command : balcmd) :
  open_balance tag self -> open_balance tag (feed self command).
Proof.
  intro H.
  destruct command as [text|t attrs|t attr val|t attr|t attrs| |t attrs content].
  - simpl. rewrite _text_emits.
    apply open_balance_emits; [apply count_text_tokens | now apply open_balance_outputTags].
  - unfold open_balance in *. simpl. rewrite !count_app, occurrences_app.
    unfold count at 2 4, occurrences at 3. simpl in *.
    destruct (pystr_eqb t tag); simpl; lia.
  - exact (open_balance_frame _ _ _ (_setAttr_frame self t attr val) H).
  - exact (open_balance_frame _ _ _ (_delAttr_frame self t attr) H).
  - exact H.
  - exact H.
  - rewrite feed_StandAlone.
    apply open_balance_emits; [|now apply open_balance_outputTags].
    destruct content as [[|c content]|]; try reflexivity.
    change (TOpen t attrs false :: text_tokens self (c :: content) ++ [TClose t])
      with ([TOpen t attrs false] ++ text_tokens self (c :: content) ++ [TClose t]).
    rewrite !count_app, count_text_tokens. unfold count. simpl.
    destruct (pystr_eqb t tag); simpl; lia.
Qed.

(** X3. Whatever the commands, the output has, for every tag, as many
    start tags as end tags: every tag that the balancer opens it closes
    once, also where an EncloseAll command comes late and the nesting is
    broken. *)
Theorem start_and_end_tags_balance (commands : list balcmd) (tag : pystr) :
  count (starts tag) (tokens commands) = count (ends tag) (tokens commands).
Proof.
  assert (H : open_balance tag (fold_left feed commands __init__)).
  { assert (H0 : open_balance tag __init__) by reflexivity.
    revert H0. generalize __init__.
    induction commands as [|c commands IH]; intros self H0; simpl; [exact H0|].
    apply IH. now apply open_balance_feed. }
  unfold tokens, close. rewrite !fold_closeTag. simpl.
  unfold open_balance in H. rewrite !count_app.
  destruct (count_closes tag (rev (_openTags (fold_left feed commands __init__)))) as [-> ->].
  destruct (count_closes tag (_enclosingAllTags (fold_left feed commands __init__)))
    as [-> ->].
  rewrite occurrences_rev. lia.
Qed.

(** ** The balancer: an enclosing tag around the output *)

Lemma prefixed_emits (toks : list token) (tags : list pystr) (self : XmlBalancer.t)
    (more : list token) :
  emits (prefixed toks tags self) more = prefixed toks tags (emits self more).
Proof. unfold emits, prefixed. simpl. now rewrite <- app_assoc. Qed.

Lemma prefixed_with_tags (toks : list token) (tags : list pystr) (self : XmlBalancer.t)
    (d : odict (odict pyval)) (changed : bool) :
  with_tags (prefixed toks tags self) d changed = prefixed toks tags (with_tags self d changed).
Proof. reflexivity. Qed.

Lemma prefixed_outputTags (toks : list token) (tags : list pystr) (self : XmlBalancer.t) :
  _outputTags (prefixed toks tags self) = prefixed toks tags (_outputTags self).
Proof.
  rewrite !_outputTags_emits. simpl. destruct (_tagsChanged self); [|reflexivity].
  unfold prefixed. simpl. now rewrite <- app_assoc.
Qed.

Lemma prefixed_feed (toks : list token) (tags : list pystr) (self : XmlBalancer.t)
    (command : balcmd) :
  feed (prefixed toks tags self) command = prefixed toks tags (feed self command).
Proof.
  destruct command as [text|t attrs|t attr val|t attr|t attrs| |t attrs content].
  - simpl. rewrite prefixed_outputTags, !_text_emits. apply prefixed_emits.
  - unfold prefixed. simpl. now rewrite <- !app_assoc.
  - simpl. unfold _setAttr. simpl.
    destruct (od_get (_tags self) t) as [[|kv a]|];
      repeat match goal with |- context [if ?b then _ else _] => destruct b end;
      reflexivity.
  - simpl. unfold _delAttr. simpl.
    destruct (od_get (_tags self) t) as [[|kv a]|]; try reflexivity.
    destruct (od_get (kv :: a) attr); try reflexivity.
    destruct (od_del (kv :: a) attr); reflexivity.
  - reflexivity.
  - reflexivity.
  - rewrite !feed_StandAlone, prefixed_outputTags. apply prefixed_emits.
Qed.

Lemma prefixed_fold_feed (toks : list token) (tags : list pystr) (commands : list balcmd)
    (self : XmlBalancer.t) :
  fold_left feed commands (prefixed toks tags self)
  = prefixed toks tags (fold_left feed commands self).
Proof.
  revert self; induction commands as [|c commands IH]; intro self; simpl; [reflexivity|].
  now rewrite prefixed_feed, IH.
Qed.

Lemma fold_feed_no_enclose_all (commands : list balcmd) (self : XmlBalancer.t) :
  no_enclose_all commands = true ->
  _enclosingAllTags (fold_left feed commands self) = _enclosingAllTags self.
Proof.
  revert self; induction commands as [|c commands IH]; simpl; intros self H; [reflexivity|].
  apply andb_true_iff in H as [Hc H]. apply negb_true_iff in Hc.
  rewrite IH by exact H. now apply feed_enclosingAll.
Qed.

Lemma tokens_enclosed (tag : pystr) (attrs : odict pyval) (rest : list balcmd) :
  no_enclose_all rest = true ->
  tokens (EncloseAllCommand tag attrs :: rest)
  = TOpen tag attrs false :: tokens rest ++ [TClose tag].
Proof.
  intro Hrest. unfold tokens. simpl fold_left.
  change (XmlBalancer.mk _ _ _ _ _ _)
    with (prefixed [TOpen tag attrs false] [tag] __init__).
  rewrite prefixed_fold_feed. unfold close. rewrite !fold_closeTag. simpl.
  rewrite (fold_feed_no_enclose_all rest __init__ Hrest). simpl.
  now rewrite app_nil_r, <- !app_assoc.
Qed.

Lemma render_enclosed (tag : pystr) (attrs : odict pyval) (toks : list token) :
  render (TOpen tag attrs false :: toks ++ [TClose tag])
  = render_token (TOpen tag attrs false) ++ render toks ++ u "</" ++ tag ++ u ">".
Proof.
  unfold render.
  change (TOpen tag attrs false :: toks ++ [TClose tag])
    with ([TOpen tag attrs false] ++ toks ++ [TClose tag]).
  rewrite !flat_map_app. simpl. now rewrite !app_nil_r, <- !app_assoc.
Qed.

(** X4. An EncloseAll command that comes first, and alone, wraps the output
    of the commands after it: its start tag, then what generateXml returns
    for those commands, then its end tag. *)
Theorem encloseAll_wraps_output (tag : pystr) (attrs : odict pyval) (rest : list balcmd) :
  no_enclose_all rest = true ->
  tokens (EncloseAllCommand tag attrs :: rest)
  = TOpen tag attrs false :: tokens rest ++ [TClose tag]
  /\ generateXml (EncloseAllCommand tag attrs :: rest)
     = render_token (TOpen tag attrs false) ++ generateXml rest ++ u "</" ++ tag ++ u ">".
Proof.
  intro Hrest. pose proof (tokens_enclosed tag attrs rest Hrest) as E.
  split; [exact E|]. unfold generateXml. rewrite E. apply render_enclosed.
Qed.

Lemma encloseAll_wraps_output_witness :
  let rest := [SetAttrCommand (u "prosody") (u "rate") (VStr (u "50%")); Text (u "a<b")] in
  no_enclose_all rest = true
  /\ generateXml rest
     = u "<prosody rate=" ++ dquote ++ u "50%" ++ dquote ++ u ">a&lt;b</prosody>"
  /\ generateXml (EncloseAllCommand (u "speak") [] :: rest)
     = render_token (TOpen (u "speak") [] false) ++ generateXml rest
         ++ u "</" ++ u "speak" ++ u ">".
Proof.
  split; [reflexivity|]. split; [reflexivity|].
  apply (encloseAll_wraps_output (u "speak") []
           [SetAttrCommand (u "prosody") (u "rate") (VStr (u "50%")); Text (u "a<b")]).
  reflexivity.
Defined.

(** ** The balancer: text *)

Lemma texts_of_app (a b : list token) : texts_of (a ++ b) = texts_of a ++ texts_of b.
Proof. apply flat_map_app. Qed.

Lemma texts_of_closes (l : list pystr) : texts_of (map TClose l) = [].
Proof. induction l as [|x l IH]; [reflexivity | exact IH]. Qed.

Lemma texts_of_opens (tags : odict (odict pyval)) :
  texts_of (map (fun ta => TOpen (fst ta) (snd ta) false) tags) = [].
Proof. induction tags as [|x l IH]; [reflexivity | exact IH]. Qed.

Lemma texts_of_text_tokens (self : XmlBalancer.t) (text : pystr) :
  texts_of (text_tokens self text) = [_escapeXml text].
Proof. unfold text_tokens. now destruct (enclosing_text self) as [|[etag eattrs] l]. Qed.

Lemma texts_of_outputTags (self : XmlBalancer.t) :
  texts_of (_out (_outputTags self)) = texts_of (_out self).
Proof.
  rewrite _outputTags_emits. destruct (_tagsChanged self); [|reflexivity]. simpl.
  now rewrite !texts_of_app, texts_of_closes, texts_of_opens, app_nil_r.
Qed.

Lemma texts_of_feed (self : XmlBalancer.t) (command : balcmd) :
  texts_of (_out (feed self command)) = texts_of (_out self) ++ command_text command.
Proof.
  destruct command as [text|t attrs|t attr val|t attr|t attrs| |t attrs content].
  - simpl. rewrite _text_emits. simpl.
    now rewrite texts_of_app, texts_of_text_tokens, texts_of_outputTags.
  - simpl. now rewrite texts_of_app.
  - simpl. destruct (_setAttr_frame self t attr val) as [-> _]. now rewrite app_nil_r.
  - simpl. destruct (_delAttr_frame self t attr) as [-> _]. now rewrite app_nil_r.
  - simpl. now rewrite app_nil_r.
  - simpl. now rewrite app_nil_r.
  - rewrite feed_StandAlone. simpl _out. rewrite texts_of_app, texts_of_outputTags.
    destruct content as [[|c content]|]; try reflexivity.
    simpl command_text.
    change (TOpen t attrs false :: text_tokens self (c :: content) ++ [TClose t])
      with ([TOpen t attrs false] ++ text_tokens self (c :: content) ++ [TClose t]).
    now rewrite !texts_of_app, texts_of_text_tokens.
Qed.

(** X5. The runs of text of the output are the texts of the commands, each
    escaped, in the order of the commands: the balancer loses no text,
    writes none twice and changes no order, whatever tags it closes and
    opens again. *)
Theorem text_is_never_lost (commands : list balcmd) :
  texts_of (tokens commands) = flat_map command_text commands.
Proof.
  assert (H : forall self,
             texts_of (_out (fold_left feed commands self))
             = texts_of (_out self) ++ flat_map command_text commands).
  { induction commands as [|c commands IH]; intro self; simpl.
    - now rewrite app_nil_r.
    - now rewrite IH, texts_of_feed, <- app_assoc. }
  unfold tokens, close. rewrite !fold_closeTag. simpl.
  rewrite !texts_of_app, !texts_of_closes, !app_nil_r. apply (H __init__).
Qed.

(** ** The balancer: the attributes in force *)

Lemma pyval_eqb_eq (a b : pyval) : pyval_eqb a b = true -> a = b.
Proof.
  destruct a, b; simpl; intro H; try discriminate.
  - apply pystr_eqb_eq in H. now subst.
  - apply Z.eqb_eq in H. now subst.
Qed.

Lemma od_del_nil {V : Type} (d : odict V) (k k' : pystr) :
  od_del d k = [] -> k <> k' -> od_get d k' = None.
Proof.
  destruct d as [|[k0 v0] d]; simpl; [reflexivity|].
  destruct (pystr_eqb k0 k) eqn:E; [|discriminate].
  intros -> Hne. apply pystr_eqb_eq in E. subst k0.
  apply pystr_eqb_neq in Hne. now rewrite Hne.
Qed.

Lemma distinct_set (d : odict (odict pyval)) (k : pystr) (a : odict pyval) :
  NoDup (od_keys d) /\ (forall t x, od_get d t = Some x -> NoDup (od_keys x)) ->
  NoDup (od_keys a) ->
  NoDup (od_keys (od_set d k a))
  /\ (forall t x, od_get (od_set d k a) t = Some x -> NoDup (od_keys x)).
Proof.
  intros [Hd Hin] Ha. split; [now apply NoDup_od_set|]. intros t x.
  destruct (pystr_eqb k t) eqn:E.
  - apply pystr_eqb_eq in E. subst t. rewrite od_get_set_eq. now intros [= <-].
  - apply pystr_eqb_neq in E. rewrite od_get_set_neq by exact E. apply Hin.
Qed.

Lemma distinct_del (d : odict (odict pyval)) (k : pystr) :
  NoDup (od_keys d) /\ (forall t x, od_get d t = Some x -> NoDup (od_keys x)) ->
  NoDup (od_keys (od_del d k))
  /\ (forall t x, od_get (od_del d k) t = Some x -> NoDup (od_keys x)).
Proof.
  intros [Hd Hin]. split; [now apply NoDup_od_del|]. intros t x.
  destruct (pystr_eqb k t) eqn:E.
  - apply pystr_eqb_eq in E. subst t. now rewrite od_get_del_eq.
  - apply pystr_eqb_neq in E. rewrite od_get_del_neq by exact E. apply Hin.
Qed.

Lemma _tags_outputTags (self : XmlBalancer.t) : _tags (_outputTags self) = _tags self.
Proof. unfold _outputTags. now destruct (_tagsChanged self). Qed.

(** The commands other than SetAttr and DelAttr leave the tags and
    attributes in force. *)
Lemma _tags_feed (self : XmlBalancer.t) (command : balcmd) :
  match command with
  | SetAttrCommand _ _ _ | DelAttrCommand _ _ => True
  | _ => _tags (feed self command) = _tags self
  end.
Proof.
  destruct command as [text|t attrs|t attr val|t attr|t attrs| |t attrs content];
    try exact I; try reflexivity.
  - simpl. rewrite _text_emits. simpl. apply _tags_outputTags.
  - rewrite feed_StandAlone. simpl. apply _tags_outputTags.
Qed.

Lemma distinct_keys_setAttr (self : XmlBalancer.t) (t a : pystr) (v : pyval) :
  distinct_keys self -> distinct_keys (_setAttr self t a v).
Proof.
  unfold distinct_keys, _setAttr. intro H.
  assert (Hnil : NoDup (od_keys (@nil (pystr * pyval)))) by constructor.
  destruct (od_get (_tags self) t) as [[|kv attrs]|] eqn:E.
  - simpl. apply distinct_set; [now apply distinct_set|].
    simpl. repeat constructor. simpl. tauto.
  - destruct (od_get (kv :: attrs) a) as [v'|]; [destruct (pyval_eqb v' v)|];
      cbn [negb with_tags _tags]; try exact H; (apply distinct_set; [exact H|]);
      apply NoDup_od_set; exact (proj2 H t _ E).
  - simpl. apply distinct_set; [now apply distinct_set|].
    simpl. repeat constructor. simpl. tauto.
Qed.

Lemma distinct_keys_delAttr (self : XmlBalancer.t) (t a : pystr) :
  distinct_keys self -> distinct_keys (_delAttr self t a).
Proof.
  unfold distinct_keys, _delAttr. intro H.
  destruct (od_get (_tags self) t) as [[|kv attrs]|] eqn:E; try exact H.
  destruct (od_get (kv :: attrs) a); [|exact H].
  pose proof (NoDup_od_del (kv :: attrs) a (proj2 H t _ E)) as Hdel.
  destruct (od_del (kv :: attrs) a) as [|kv' attrs'] eqn:Ed; simpl.
  - now apply distinct_del.
  - now apply distinct_set.
Qed.

Lemma distinct_keys_feed (self : XmlBalancer.t) (command : balcmd) :
  distinct_keys self -> distinct_keys (feed self command).
Proof.
  intro H. pose proof (_tags_feed self command) as Ht.
  destruct command as [text|t attrs|t attr val|t attr|t attrs| |t attrs content];
    try (unfold distinct_keys; rewrite Ht; exact H).
  - now apply distinct_keys_setAttr.
  - now apply distinct_keys_delAttr.
Qed.

Lemma distinct_keys_fold_feed (commands : list balcmd) (self : XmlBalancer.t) :
  distinct_keys self -> distinct_keys (fold_left feed commands self).
Proof.
  revert self; induction commands as [|c commands IH]; simpl; intros self H; [exact H|].
  now apply IH, distinct_keys_feed.
Qed.

Lemma distinct_keys_init : distinct_keys __init__.
Proof. split; [constructor | discriminate]. Qed.

Lemma in_force_setAttr (self : XmlBalancer.t) (t a : pystr) (v : pyval) (tag attr : pystr) :
  in_force (_setAttr self t a v) tag attr
  = if pystr_eqb t tag && pystr_eqb a attr then Some v else in_force self tag attr.
Proof.
  assert (Hfresh : forall d : odict (odict pyval),
             (od_get d t = None \/ od_get d t = Some []) ->
             match od_get (od_set (od_set d t []) t (od_set [] a v)) tag with
             | Some attrs => od_get attrs attr
             | None => None
             end
             = if pystr_eqb t tag && pystr_eqb a attr then Some v
               else match od_get d tag with
                    | Some attrs => od_get attrs attr
                    | None => None
                    end).
  { intros d Hd. destruct (pystr_eqb t tag) eqn:Et.
    - apply pystr_eqb_eq in Et. subst tag. rewrite od_get_set_eq. simpl.
      destruct (pystr_eqb a attr); [reflexivity|].
      now destruct Hd as [-> | ->].
    - apply pystr_eqb_neq in Et. now rewrite !od_get_set_neq by exact Et. }
  unfold in_force, _setAttr.
  destruct (od_get (_tags self) t) as [[|kv attrs]|] eqn:E.
  - cbn [negb with_tags _tags od_get]. apply Hfresh. now right.
  - remember (kv :: attrs) as A eqn:HA. clear HA.
    assert (Hset : forall d : odict (odict pyval),
               match od_get (od_set d t (od_set A a v)) tag with
               | Some attrs => od_get attrs attr
               | None => None
               end
               = if pystr_eqb t tag && pystr_eqb a attr then Some v
                 else match od_get (od_set d t A) tag with
                      | Some attrs => od_get attrs attr
                      | None => None
                      end).
    { intro d. destruct (pystr_eqb t tag) eqn:Et.
      - apply pystr_eqb_eq in Et. subst tag. rewrite !od_get_set_eq.
        destruct (pystr_eqb a attr) eqn:Eattr; cbn [andb].
        + apply pystr_eqb_eq in Eattr. subst attr. apply od_get_set_eq.
        + apply pystr_eqb_neq in Eattr. now apply od_get_set_neq.
      - apply pystr_eqb_neq in Et. now rewrite !od_get_set_neq by exact Et. }
    assert (Hsame : forall k, od_get (od_set (_tags self) t A) k = od_get (_tags self) k).
    { intro k. destruct (pystr_eqb t k) eqn:Ek.
      - apply pystr_eqb_eq in Ek. subst k. now rewrite od_get_set_eq, E.
      - apply pystr_eqb_neq in Ek. now apply od_get_set_neq. }
    destruct (od_get A a) as [v'|] eqn:Ea; [destruct (pyval_eqb v' v) eqn:Ev|];
      cbn [negb with_tags _tags].
    + apply pyval_eqb_eq in Ev. subst v'.
      destruct (pystr_eqb t tag) eqn:Et; [|reflexivity].
      destruct (pystr_eqb a attr) eqn:Eattr; [|reflexivity]. simpl.
      apply pystr_eqb_eq in Et, Eattr. subst tag attr. now rewrite E.
    + now rewrite Hset, Hsame.
    + now rewrite Hset, Hsame.
  - cbn [negb with_tags _tags od_get]. apply Hfresh. now left.
Qed.

Lemma in_force_delAttr (self : XmlBalancer.t) (t a : pystr) (tag attr : pystr) :
  distinct_keys self ->
  in_force (_delAttr self t a) tag attr
  = if pystr_eqb t tag && pystr_eqb a attr then None else in_force self tag attr.
Proof.
  intros [Hd Hin]. unfold in_force, _delAttr.
  destruct (od_get (_tags self) t) as [[|kv attrs]|] eqn:E.
  - destruct (pystr_eqb t tag) eqn:Et; [|reflexivity].
    apply pystr_eqb_eq in Et. subst tag. rewrite E. simpl.
    now destruct (pystr_eqb a attr).
  - pose proof (Hin t _ E) as Hnd.
    remember (kv :: attrs) as A eqn:HA. clear HA.
    destruct (od_get A a) as [v'|] eqn:Ea.
    + destruct (od_del A a) as [|kv' attrs'] eqn:Ed; cbn [with_tags _tags].
      * destruct (pystr_eqb t tag) eqn:Et; cbn [andb].
        -- apply pystr_eqb_eq in Et. subst tag.
           rewrite od_get_del_eq, E by exact Hd.
           destruct (pystr_eqb a attr) eqn:Eattr; [reflexivity|].
           apply pystr_eqb_neq in Eattr. symmetry. now apply (od_del_nil _ a).
        -- apply pystr_eqb_neq in Et. now rewrite od_get_del_neq by exact Et.
      * rewrite <- Ed. destruct (pystr_eqb t tag) eqn:Et; cbn [andb].
        -- apply pystr_eqb_eq in Et. subst tag. rewrite od_get_set_eq, E.
           destruct (pystr_eqb a attr) eqn:Eattr.
           ++ apply pystr_eqb_eq in Eattr. subst attr. now apply od_get_del_eq.
           ++ apply pystr_eqb_neq in Eattr. now apply od_get_del_neq.
        -- apply pystr_eqb_neq in Et. now rewrite od_get_set_neq by exact Et.
    + destruct (pystr_eqb t tag) eqn:Et; [|reflexivity].
      destruct (pystr_eqb a attr) eqn:Eattr; [|reflexivity]. cbn [andb].
      apply pystr_eqb_eq in Et, Eattr. subst tag attr. now rewrite E.
  - destruct (pystr_eqb t tag) eqn:Et; [|reflexivity].
    apply pystr_eqb_eq in Et. subst tag. rewrite E. simpl.
    now destruct (pystr_eqb a attr).
Qed.

Lemma in_force_feed (self : XmlBalancer.t) (command : balcmd) (tag attr : pystr) :
  distinct_keys self ->
  in_force (feed self command) tag attr = setting tag attr (in_force self tag attr) command.
Proof.
  intro H. pose proof (_tags_feed self command) as Ht.
  destruct command as [text|t attrs|t a val|t a|t attrs| |t attrs content];
    try (unfold in_force; rewrite Ht; reflexivity).
  - apply in_force_setAttr.
  - now apply in_force_delAttr.
Qed.

(** X6. The value in force for an attribute of a tag, after any commands,
    is the value of the last SetAttr command for that attribute of that
    tag, and there is none when there was no such command or a DelAttr
    command for it came later; no other command changes it. *)
Theorem in_force_is_last_setting (commands : list balcmd) (tag attr : pystr) :
  in_force (fold_left feed commands __init__) tag attr = last_setting tag attr commands.
Proof.
  unfold last_setting.
  change (@None pyval) with (in_force __init__ tag attr).
  pose proof distinct_keys_init as H. revert H. generalize __init__.
  induction commands as [|c commands IH]; intros self H; simpl; [reflexivity|].
  rewrite IH by now apply distinct_keys_feed. now rewrite in_force_feed.
Qed.

Lemma _delAttr_not_in_force (self : XmlBalancer.t) (tag attr : pystr) :
  in_force self tag attr = None -> _delAttr self tag attr = self.
Proof.
  unfold in_force, _delAttr. intro H.
  destruct (od_get (_tags self) tag) as [[|kv attrs]|]; try reflexivity.
  now rewrite H.
Qed.

(** X7. Inserting, anywhere in a sequence of commands, a DelAttr command
    for an attribute that is not in force changes neither the tokens of the
    output nor the string returned by generateXml: no tag is closed and
    opened again for it. *)
Theorem delAttr_not_in_force_same_output
    (before after : list balcmd) (tag attr : pystr) :
  in_force (fold_left feed before __init__) tag attr = None ->
  tokens (before ++ DelAttrCommand tag attr :: after) = tokens (before ++ after)
  /\ generateXml (before ++ DelAttrCommand tag attr :: after)
     = generateXml (before ++ after).
Proof.
  intro H.
  assert (E : tokens (before ++ DelAttrCommand tag attr :: after)
              = tokens (before ++ after)).
  { unfold tokens. rewrite !fold_feed_app. simpl.
    now rewrite (_delAttr_not_in_force _ _ _ H). }
  split; [exact E|]. unfold generateXml. now rewrite E.
Qed.

Lemma delAttr_not_in_force_same_output_witness :
  let before := [SetAttrCommand (u "prosody") (u "pitch") (VStr (u "120%"));
                 Text (u "a")] in
  let after := [Text (u "b")] in
  in_force (fold_left feed before __init__) (u "prosody") (u "rate") = None
  /\ generateXml (before ++ DelAttrCommand (u "prosody") (u "rate") :: after)
     = generateXml (before ++ after).
Proof.
  split; [reflexivity|].
  apply (delAttr_not_in_force_same_output
           [SetAttrCommand (u "prosody") (u "pitch") (VStr (u "120%")); Text (u "a")]
           [Text (u "b")] (u "prosody") (u "rate")).
  reflexivity.
Defined.

(** ** The balancer: the elements around a text *)

Lemma open_elements_app (a b : list token) (stack : odict (odict pyval)) :
  open_elements stack (a ++ b)
  = match open_elements stack a with
    | Some stack' => open_elements stack' b
    | None => None
    end.
Proof.
  revert stack; induction a as [|tok a IH]; intro stack; simpl; [reflexivity|].
  destruct tok as [tag attrs [|]|tag|s]; try apply IH.
  destruct stack as [|[top tattrs] below]; [reflexivity|].
  destruct (pystr_eqb top tag); [apply IH | reflexivity].
Qed.

Lemma open_elements_close_all (l base : odict (odict pyval)) :
  open_elements (l ++ base) (map TClose (od_keys l)) = Some base.
Proof.
  induction l as [|[tag attrs] l IH]; simpl; [reflexivity|].
  now rewrite pystr_eqb_refl.
Qed.

Lemma open_elements_open_all (tags base : odict (odict pyval)) :
  open_elements base (map (fun ta => TOpen (fst ta) (snd ta) false) tags)
  = Some (rev tags ++ base).
Proof.
  revert base; induction tags as [|[tag attrs] tags IH]; intro base; simpl;
    [reflexivity|].
  rewrite IH. now rewrite <- app_assoc.
Qed.

Lemma open_elements_text_tokens (self : XmlBalancer.t) (text : pystr)
    (stack : odict (odict pyval)) :
  open_elements stack (text_tokens self text) = Some stack.
Proof.
  unfold text_tokens. destruct (enclosing_text self) as [|[etag eattrs] l]; simpl;
    [reflexivity|]. now rewrite pystr_eqb_refl.
Qed.

Lemma tags_open_emits (encl : odict (odict pyval)) (self : XmlBalancer.t)
    (toks : list token) :
  (forall stack, open_elements stack toks = Some stack) ->
  tags_open encl self -> tags_open encl (emits self toks).
Proof.
  intros Htoks (opened & Hout & Hkeys & Htags). exists opened. simpl.
  now rewrite open_elements_app, Hout, Htoks.
Qed.

Lemma tags_open_outputTags (encl : odict (odict pyval)) (self : XmlBalancer.t) :
  tags_open encl self ->
  open_elements [] (_out (_outputTags self)) = Some (rev (_tags self) ++ rev encl)
  /\ tags_open encl (_outputTags self).
Proof.
  intros (opened & Hout & Hkeys & Htags). rewrite _outputTags_emits.
  destruct (_tagsChanged self) eqn:Ec.
  - assert (E : open_elements []
                  (_out self ++ map TClose (rev (_openTags self))
                     ++ map (fun ta => TOpen (fst ta) (snd ta) false) (_tags self))
                = Some (rev (_tags self) ++ rev encl)).
    { rewrite open_elements_app, Hout. cbv beta iota.
      rewrite open_elements_app, <- Hkeys.
      replace (rev (od_keys opened)) with (od_keys (rev opened))
        by (unfold od_keys; apply map_rev).
      rewrite open_elements_close_all. apply open_elements_open_all. }
    split; [exact E|]. exists (_tags self). simpl. now rewrite E.
  - rewrite <- (Htags eq_refl). split; [exact Hout|].
    exists opened. now rewrite Ec.
Qed.

Lemma _setAttr_changed (self : XmlBalancer.t) (tag attr : pystr) (val : pyval) :
  _setAttr self tag attr val = self \/ _tagsChanged (_setAttr self tag attr val) = true.
Proof.
  unfold _setAttr.
  destruct (od_get (_tags self) tag) as [[|kv attrs]|]; try (now right).
  destruct (od_get (kv :: attrs) attr) as [v|]; [destruct (pyval_eqb v val)|];
    cbn [negb]; try (now right).
  left. apply with_tags_same.
Qed.

Lemma _delAttr_changed (self : XmlBalancer.t) (tag attr : pystr) :
  _delAttr self tag attr = self \/ _tagsChanged (_delAttr self tag attr) = true.
Proof.
  unfold _delAttr.
  destruct (od_get (_tags self) tag) as [[|kv attrs]|]; try (now left).
  destruct (od_get (kv :: attrs) attr); [|now left].
  destruct (od_del (kv :: attrs) attr); now right.
Qed.

Lemma tags_open_changed (encl : odict (odict pyval)) (self self' : XmlBalancer.t) :
  _out self' = _out self
  /\ _openTags self' = _openTags self
  /\ _enclosingAllTags self' = _enclosingAllTags self ->
  self' = self \/ _tagsChanged self' = true ->
  tags_open encl self -> tags_open encl self'.
Proof.
  intros (Ho & Hopen & _) [-> | Hc] H; [exact H|].
  destruct H as (opened & Hout & Hkeys & Htags). exists opened.
  rewrite Ho, Hopen, Hc. repeat split; try assumption. discriminate.
Qed.

Lemma tags_open_feed (encl : odict (odict pyval)) (self : XmlBalancer.t)
    (command : balcmd) :
  is_enclose_all command = false ->
  tags_open encl self -> tags_open encl (feed self command).
Proof.
  intros Hc H.
  destruct command as [text|t attrs|t attr val|t attr|t attrs| |t attrs content];
    try discriminate.
  - simpl. rewrite _text_emits.
    apply tags_open_emits; [apply open_elements_text_tokens|].
    now apply tags_open_outputTags.
  - exact (tags_open_changed encl _ _ (_setAttr_frame self t attr val)
             (_setAttr_changed self t attr val) H).
  - exact (tags_open_changed encl _ _ (_delAttr_frame self t attr)
             (_delAttr_changed self t attr) H).
  - exact H.
  - exact H.
  - rewrite feed_StandAlone.
    apply tags_open_emits; [|now apply tags_open_outputTags].
    intro stack. destruct content as [[|c content]|]; try reflexivity.
    cbn [open_elements]. rewrite open_elements_app, open_elements_text_tokens.
    simpl. now rewrite pystr_eqb_refl.
Qed.

Lemma tags_open_fold_feed (encl : odict (odict pyval)) (commands : list balcmd)
    (self : XmlBalancer.t) :
  no_enclose_all commands = true ->
  tags_open encl self -> tags_open encl (fold_left feed commands self).
Proof.
  revert self; induction commands as [|c commands IH]; simpl; intros self Hall H;
    [exact H|].
  apply andb_true_iff in Hall as [Hc Hall]. apply negb_true_iff in Hc.
  apply IH; [exact Hall|]. now apply tags_open_feed.
Qed.

(** X8. When the EncloseAll commands come first, a text is written inside
    exactly these elements, from the outside in: the enclosing tags, then
    the tags in force with the attributes in force, each once and in the
    order in which the tags came into force, then the tag enclosing text
    when there is one. *)
Theorem text_enclosed_by_tags_in_force
    (encl : odict (odict pyval)) (commands : list balcmd) (text : pystr) :
  no_enclose_all commands = true ->
  let self := fold_left feed (map EncloseAll_of encl ++ commands) __init__ in
  exists pre post,
    _out (feed self (Text text)) = pre ++ TText (_escapeXml text) :: post
    /\ open_elements [] pre = Some (enclosing_text self ++ rev (_tags self) ++ rev encl).
Proof.
  intros Hall self.
  assert (H : tags_open encl self).
  { unfold self. rewrite fold_feed_app, fold_feed_EncloseAll.
    apply tags_open_fold_feed; [exact Hall|].
    exists []. simpl. rewrite open_elements_open_all, app_nil_r. now repeat split. }
  destruct (tags_open_outputTags encl self H) as [Hout _].
  simpl feed. rewrite _text_emits. simpl _out.
  unfold text_tokens. rewrite enclosing_text_outputTags.
  destruct (enclosing_text self) as [|[etag eattrs] l] eqn:E.
  - exists (_out (_outputTags self)), []. split; [reflexivity | exact Hout].
  - assert (l = []) as ->.
    { unfold enclosing_text in E.
      destruct (_tagEnclosingText self) as [[etag' eattrs']|]; [|discriminate].
      destruct (truthy etag'); [|discriminate]. now injection E. }
    exists (_out (_outputTags self) ++ [TOpen etag eattrs false]), [TClose etag].
    split; [now rewrite <- app_assoc|].
    rewrite open_elements_app, Hout. reflexivity.
Qed.

Lemma text_enclosed_by_tags_in_force_witness :
  let encl := [(u "speak", [])] in
  let commands := [SetAttrCommand (u "voice") (u "xml:lang") (VStr (u "fr"));
                   Text (u "a");
                   SetAttrCommand (u "prosody") (u "pitch") (VStr (u "120%"));
                   EncloseTextCommand (u "say-as") []] in
  let self := fold_left feed (map EncloseAll_of encl ++ commands) __init__ in
  no_enclose_all commands = true
  /\ enclosing_text self ++ rev (_tags self) ++ rev encl
     = [(u "say-as", []);
        (u "prosody", [(u "pitch", VStr (u "120%"))]);
        (u "voice", [(u "xml:lang", VStr (u "fr"))]);
        (u "speak", [])]
  /\ exists pre post,
       _out (feed self (Text (u "b"))) = pre ++ TText (_escapeXml (u "b")) :: post
       /\ open_elements [] pre = Some (enclosing_text self ++ rev (_tags self) ++ rev encl).
Proof.
  split; [reflexivity|]. split; [reflexivity|].
  apply (text_enclosed_by_tags_in_force [(u "speak", [])]
           [SetAttrCommand (u "voice") (u "xml:lang") (VStr (u "fr"));
            Text (u "a");
            SetAttrCommand (u "prosody") (u "pitch") (VStr (u "120%"));
            EncloseTextCommand (u "say-as") []]
           (u "b")).
  reflexivity.
Defined.

(** ** The converter: objects that are no speech, and the speak element *)


Lemma convert_no_enclose_all (self : SsmlConverter.t) (c : SpeechCommand)
    (command : balcmd) :
  SsmlConverter.convert self c = Some (Ok (Some command)) -> is_enclose_all command = false.
Proof.
  destruct c; simpl; try discriminate; try (now intros [= <-]).
  - intros [= <-]. now destruct state.
  - unfold SsmlConverter.convertBreakCommand.
    destruct (format_int time); [now intros [= <-] | discriminate].
  - unfold SsmlConverter.convertPitchCommand, SsmlConverter._convertProsody.
    destruct (PrimFloat.eqb multiplier 1); [now intros [= <-]|].
    destruct (py_int (multiplier * 100)); [now intros [= <-] | discriminate].
  - unfold SsmlConverter.convertRateCommand, SsmlConverter._convertProsody.
    destruct (PrimFloat.eqb multiplier 1); [now intros [= <-]|].
    destruct (py_int (multiplier * 100)); [now intros [= <-] | discriminate].
  - unfold SsmlConverter.convertVolumeCommand, SsmlConverter._convertProsody.
    destruct (PrimFloat.eqb multiplier 1); [now intros [= <-]|].
    destruct (py_int (multiplier * 100)); [now intros [= <-] | discriminate].
Qed.

Lemma yielded_no_enclose_all (self : SsmlConverter.t) (speechSequence : SpeechSequence) :
  no_enclose_all
    (yielded (generateBalancerCommands (SsmlConverter.convert self) speechSequence)) = true.
Proof.
  induction speechSequence as [|it s IH]; [reflexivity|].
  destruct it as [t|c| |[|[|n]]]; simpl; try exact IH; try reflexivity.
  destruct (SsmlConverter.convert self c) as [[[command|]|e]|] eqn:E; simpl;
    try reflexivity; try exact IH.
  now rewrite (convert_no_enclose_all self c command E), IH.
Qed.

(** X10. The markup of the SSML converter is, for every speech sequence,
    one speak element: the start tag of speak with the attributes version,
    xmlns and xml:lang (the default language), then the markup that the
    balancer makes of the commands of the sequence, then the end tag of
    speak; and it is well-formed. *)
Theorem ssml_is_one_speak_element (self : SsmlConverter.t) (speechSequence : SpeechSequence) :
  let commands :=
    yielded (generateBalancerCommands (SsmlConverter.convert self) speechSequence) in
  let toks := tokens (yielded (SsmlConverter.generateBalancerCommands self speechSequence)) in
  toks = TOpen (u "speak") (SsmlConverter.speakAttrs self) false
           :: tokens commands ++ [TClose (u "speak")]
  /\ well_formed toks = true
  /\ forall xml,
       SsmlConverter.convertToXml self speechSequence = Ok xml ->
       xml = render toks
       /\ xml = render_token (TOpen (u "speak") (SsmlConverter.speakAttrs self) false)
                  ++ generateXml commands ++ u "</speak>".
Proof.
  cbv zeta. unfold SsmlConverter.generateBalancerCommands. simpl yielded.
  pose proof (yielded_no_enclose_all self speechSequence) as Hno.
  pose proof (tokens_enclosed (u "speak") (SsmlConverter.speakAttrs self) _ Hno) as E.
  split; [exact E|]. split.
  - pose (s0 := feed __init__ (EncloseAllCommand (u "speak") (SsmlConverter.speakAttrs self))).
    assert (H0 : nested s0) by reflexivity.
    destruct (fold_feed_nested _ s0 Hno H0) as [Hn He].
    change (well_formed
              (_out (close
                       (fold_left feed
                          (yielded (generateBalancerCommands (SsmlConverter.convert self)
                                      speechSequence)) s0))) = true).
    apply close_well_formed; [exact Hn|]. rewrite He. simpl. lia.
  - intros xml. unfold SsmlConverter.convertToXml, convertToXml.
    unfold SsmlConverter.generateBalancerCommands. simpl.
    destruct (raised _); [discriminate|]. intros [= <-].
    split; [reflexivity|]. unfold generateXml. rewrite E. apply render_enclosed.
Qed.

(** ** The converter: multipliers that are no numbers *)








(** ** Languages *)

Lemma replace_char_without (old new : Z) (s : pystr) :
  old <> new -> without old (replace_char old new s) = true.
Proof.
  intro Hne. unfold without, replace_char.
  induction s as [|c s IH]; simpl; [reflexivity|]. rewrite IH, andb_true_r.
  destruct (Z.eqb_spec c old) as [->|Hc]; apply negb_true_iff, Z.eqb_neq; congruence.
Qed.

Lemma replace_char_back (old new : Z) (s : pystr) :
  old <> new ->
  replace_char new old (replace_char old new s) = s <-> without new s = true.
Proof.
  intro Hne. unfold without, replace_char. induction s as [|c s IH]; simpl; [tauto|].
  rewrite andb_true_iff, <- IH, negb_true_iff, Z.eqb_neq. clear IH.
  set (s' := map _ (map _ s)).
  destruct (Z.eqb_spec c old) as [->|Hold].
  - rewrite Z.eqb_refl. split.
    + intro H. injection H as H. now split.
    + intros [_ ->]. reflexivity.
  - destruct (Z.eqb_spec c new) as [->|Hnew].
    + split; [|intros [H _]; contradiction].
      intro H. injection H as H1 H2. congruence.
    + split; [intro H; injection H as H; now split | intros [_ ->]; reflexivity].
Qed.

(** X13. An NVDA language turned into an XML language and back is the
    same language exactly when it has no hyphen, and an XML language turned
    into an NVDA language and back is the same exactly when it has no
    underscore; an XML language made by toXmlLang has no underscore, an
    NVDA language made by toNvdaLang no hyphen. *)
Theorem language_round_trip (lang : pystr) :
  (toNvdaLang (toXmlLang lang) = lang <-> without 45 lang = true)
  /\ (toXmlLang (toNvdaLang lang) = lang <-> without 95 lang = true)
  /\ without 95 (toXmlLang lang) = true
  /\ without 45 (toNvdaLang lang) = true.
Proof.
  unfold toNvdaLang, toXmlLang. repeat split;
    try (apply replace_char_back; discriminate);
    apply replace_char_without; discriminate.
Qed.

(** X14. A LangChange command for a language that is not empty and has no
    hyphen is converted to the attribute xml:lang of a voice tag, from
    which parseVoice makes the same command again; a LangChange command
    without a language, or with an empty one, comes back as the command for
    the default language of the converter. *)
Theorem langChange_round_trip
    (self : SsmlConverter.t) (lang : option pystr) (st : SpeechXmlParser.t) :
  exists xmlLang,
    SsmlConverter.convertLangChangeCommand self lang
    = SetAttrCommand (u "voice") (u "xml:lang") (VStr xmlLang)
    /\ exists back,
         SsmlParser.parseVoice (Some [(u "xml:lang", xmlLang)]) st
         = Ok ([LangChangeCommand (Some back)], st)
         /\ match lang with
            | Some ((_ :: _) as l) => without 45 l = true -> back = l
            | _ => back = toNvdaLang (toXmlLang (SsmlConverter.defaultLanguage self))
            end.
Proof.
  unfold SsmlConverter.convertLangChangeCommand.
  eexists. split; [reflexivity|]. eexists. split; [reflexivity|].
  destruct lang as [[|c l]|]; try reflexivity.
  intro H. now apply replace_char_back.
Qed.

(** ** Break commands *)

Lemma str_of_int_negative (n : Z) :
  n < 0 -> exists ds, str_of_int n = 45 :: ds.
Proof.
  intro Hn. destruct n as [|p|p]; try lia. unfold str_of_int. simpl. now eexists.
Qed.

Lemma RE_TIME_MS_negative (ds : pystr) : RE_TIME_MS ((45 :: ds) ++ u "ms") = None.
Proof.
  unfold RE_TIME_MS. change (u "ms") with [109; 115].
  rewrite chomp_ms, rev_app_distr.
  change (rev [109; 115] ++ rev (45 :: ds)) with (115 :: 109 :: rev (45 :: ds)).
  destruct (rev (45 :: ds)) as [|d r] eqn:E; [reflexivity|].
  assert (Hr : forallb is_digit (d :: r) = false).
  { rewrite <- E. apply not_true_is_false. intro H.
    rewrite forallb_forall in H. specialize (H 45).
    rewrite <- in_rev in H. specialize (H (or_introl eq_refl)). discriminate. }
  cbv beta match. rewrite Hr. now rewrite andb_false_r.
Qed.

(** X15. A Break command whose duration has at most 4300 digits is
    converted to a break tag whose attribute time is the duration followed
    by ms.  From that attribute parseBreak makes the same command again
    when the duration is not negative; a negative duration is written with
    its sign, which the parser does not read: it logs a warning and yields
    no command.  For a duration of more digits the converter raises
    ValueError: Python does not format the number. *)
Theorem break_round_trip (time : Z) (st : SpeechXmlParser.t) :
  if Z.of_nat (List.length (digits_of_int time)) <=? int_max_str_digits
  then exists val,
         SsmlConverter.convertBreakCommand time
         = Ok (StandAloneTagCommand (u "break") [(u "time", VStr val)] None)
         /\ val = str_of_int time ++ u "ms"
         /\ SsmlParser.parseBreak (Some [(u "time", val)]) st
            = if 0 <=? time then Ok ([BreakCommand time], st)
              else Ok ([], debugWarning st (UnknownBreakAttributes [(u "time", val)]))
  else exists msg, SsmlConverter.convertBreakCommand time = Raise (ValueError msg).
Proof.
  unfold SsmlConverter.convertBreakCommand, format_int.
  destruct (Z.of_nat (List.length (digits_of_int time)) <=? int_max_str_digits) eqn:Hd;
    [|eexists; reflexivity].
  eexists. split; [reflexivity|]. split; [reflexivity|].
  unfold SsmlParser.parseBreak. rewrite od_get_first.
  destruct (Z.leb_spec 0 time) as [H|H].
  - rewrite RE_TIME_MS_str_of_int by exact H.
    rewrite (digits_of_int_nonneg time H) in Hd.
    unfold py_int_of_digits. rewrite Hd.
    now destruct (str_of_int_nonneg time H) as (_ & _ & ->).
  - destruct (str_of_int_negative time H) as [ds ->].
    now rewrite RE_TIME_MS_negative.
Qed.

(** ** Percentages *)

Lemma comes_back_percentages : forallb comes_back percentages = true.
Proof. vm_compute. reflexivity. Qed.

Lemma In_percentages (n : Z) : 0 <= n <= 1000 -> In n percentages.
Proof.
  intro H. unfold percentages. rewrite <- (Z2Nat.id n) by lia.
  apply in_map, in_seq. lia.
Qed.

Lemma prosodyCommands_one (attr val ip fp : pystr) (multiplier : float)
    (c : SpeechCommand) (st : SpeechXmlParser.t) :
  RE_PERCENTAGE val = Some (ip, fp) ->
  prosody_command attr (float_of_decimal ip fp / 100)%float = Some c ->
  SsmlParser.prosodyCommands true [(attr, val)] st = ([c], st).
Proof.
  intros Hre Hc. rewrite prosodyCommands_cons, Hre. cbv zeta.
  unfold prosody_command in Hc. simpl.
  destruct (pystr_eqb attr (u "pitch")); [now injection Hc as <-|].
  destruct (pystr_eqb attr (u "volume")); [now injection Hc as <-|].
  destruct (pystr_eqb attr (u "rate")); [now injection Hc as <-|]. discriminate.
Qed.

(** X16. A whole percentage from 0% to 1000% of a prosody attribute is
    parsed to a multiplier which the converter writes as the same
    percentage or as the percentage below it: int() truncates the product
    of the multiplier and 100, which may lie just below the whole number.
    100% is parsed to the multiplier 1.0, which the converter takes as the
    return to normal. *)
Theorem percentage_comes_back_or_one_below
    (attr : pystr) (n : Z) (st : SpeechXmlParser.t) :
  0 <= n <= 1000 ->
  In attr [u "pitch"; u "volume"; u "rate"] ->
  exists multiplier command,
    SsmlParser.prosodyCommands true [(attr, str_of_int n ++ u "%")] st = ([command], st)
    /\ prosody_of command = Some (attr, multiplier)
    /\ if n =? 100
       then SsmlConverter._convertProsody multiplier attr
            = Ok (DelAttrCommand (u "prosody") attr)
       else exists k,
              SsmlConverter._convertProsody multiplier attr
              = Ok (SetAttrCommand (u "prosody") attr (VStr (str_of_int k ++ u "%")))
              /\ (k = n \/ k = n - 1).
Proof.
  intros Hn Hattr.
  pose proof comes_back_percentages as Hall. rewrite forallb_forall in Hall.
  specialize (Hall n (In_percentages n Hn)). unfold comes_back in Hall.
  destruct (RE_PERCENTAGE (str_of_int n ++ u "%")) as [[ip fp]|] eqn:Hre; [|discriminate].
  cbv zeta in Hall. set (m := (float_of_decimal ip fp / 100)%float) in *.
  assert (Hc : exists c, prosody_command attr m = Some c /\ prosody_of c = Some (attr, m)).
  { destruct Hattr as [<-|[<-|[<-|[]]]]; eexists; split; reflexivity. }
  destruct Hc as (c & Hc & Hp).
  exists m, c. split; [exact (prosodyCommands_one _ _ ip fp m c st Hre Hc)|].
  split; [exact Hp|]. unfold SsmlConverter._convertProsody.
  destruct (n =? 100).
  - now rewrite Hall.
  - apply andb_true_iff in Hall as [Hone Hk]. apply negb_true_iff in Hone. rewrite Hone.
    destruct (py_int (m * 100)) as [k|e]; [|discriminate].
    exists k. split; [reflexivity|].
    apply orb_true_iff in Hk as [Hk|Hk]; apply Z.eqb_eq in Hk; [now left | now right].
Qed.

Lemma percentage_comes_back_or_one_below_witness :
  SsmlParser.prosodyCommands true [(u "rate", u "29%")] (SpeechXmlParser.mk [] [] [])
  = ([RateCommand 0.28999999999999998], SpeechXmlParser.mk [] [] [])
  /\ SsmlConverter._convertProsody 0.28999999999999998 (u "rate")
     = Ok (SetAttrCommand (u "prosody") (u "rate") (VStr (u "28%")))
  /\ exists multiplier command,
       SsmlParser.prosodyCommands true [(u "rate", str_of_int 29 ++ u "%")]
         (SpeechXmlParser.mk [] [] [])
       = ([command], SpeechXmlParser.mk [] [] [])
       /\ prosody_of command = Some (u "rate", multiplier)
       /\ if 29 =? 100
          then SsmlConverter._convertProsody multiplier (u "rate")
               = Ok (DelAttrCommand (u "prosody") (u "rate"))
          else exists k,
                 SsmlConverter._convertProsody multiplier (u "rate")
                 = Ok (SetAttrCommand (u "prosody") (u "rate")
                         (VStr (str_of_int k ++ u "%")))
                 /\ (k = 29 \/ k = 29 - 1).
Proof.
  split; [vm_compute; reflexivity|]. split; [vm_compute; reflexivity|].
  apply (percentage_comes_back_or_one_below (u "rate") 29 (SpeechXmlParser.mk [] [] []));
    [lia | simpl; tauto].
Defined.

(** ** The parser: what a document adds to the speech sequence *)

Lemma stateless_parseSayAs : stateless SsmlParser.parseSayAs.
Proof.
  unfold stateless, stateless_at.
  intros attrs. eexists. intro self. exists self. split; [reflexivity | apply untouched_refl].
Qed.

Lemma stateless_parseVoice : stateless SsmlParser.parseVoice.
Proof.
  unfold stateless, stateless_at.
  intros [attrs|]; unfold SsmlParser.parseVoice;
    [destruct (od_get attrs (u "xml:lang"))|];
    eexists; intro self; exists self; (split; [reflexivity | apply untouched_refl]).
Qed.

Lemma stateless_parseBreak (attrs : option (odict pystr)) :
  unreadable_time attrs = false -> stateless_at SsmlParser.parseBreak attrs.
Proof.
  unfold unreadable_time, stateless_at, SsmlParser.parseBreak, py_int_of_digits.
  destruct attrs as [attrs|];
    [destruct (od_get attrs (u "time")) as [val|];
     [destruct (RE_TIME_MS val) as [digits|];
      [destruct (Z.of_nat (List.length digits) <=? int_max_str_digits)|]|]|];
    try discriminate; intros _;
    eexists; intro self; eexists; (split; [reflexivity|]);
    try apply untouched_log; apply untouched_refl.
Qed.

Lemma stateless_parseSpeak : stateless SsmlParser.parseSpeak.
Proof.
  unfold stateless, stateless_at.
  intros attrs. exists []. intro self. exists self. split; [reflexivity | apply untouched_refl].
Qed.

Lemma stateless_parseMark (this : SsmlParser.self_t) : stateless (SsmlParser.parseMark this).
Proof.
  unfold stateless, stateless_at.
  intros [attrs|]; unfold SsmlParser.parseMark;
    [destruct (od_get attrs (u "name")); [destruct (SsmlParser._markCallback this)|]|];
    eexists; intro self; exists self; (split; [reflexivity | apply untouched_refl]).
Qed.

(** The generator of an element whose start tag is not that of a break
    element with a time that [int] refuses. *)
Lemma parse_stateless (this : SsmlParser.self_t) (name : pystr) (attrs : odict pystr)
    (g : SsmlParser.generator) :
  SsmlParser.parse this (processedTagName name) = Some g ->
  unreadable_start name attrs = false ->
  (forall opening : bool, stateless_at g (if opening then Some attrs else None))
  \/ g = SsmlParser.parseProsody.
Proof.
  unfold SsmlParser.parse, unreadable_start.
  destruct (pystr_eqb (processedTagName name) (u "SayAs")).
  { intros [= <-] _. left. intro. apply stateless_parseSayAs. }
  destruct (pystr_eqb (processedTagName name) (u "Voice")).
  { intros [= <-] _. left. intro. apply stateless_parseVoice. }
  destruct (pystr_eqb (processedTagName name) (u "Break")).
  { intros [= <-] H. left. intros [|]; apply stateless_parseBreak; [exact H | reflexivity]. }
  destruct (pystr_eqb (processedTagName name) (u "Prosody")).
  { intros [= <-] _. now right. }
  destruct (pystr_eqb (processedTagName name) (u "Speak")).
  { intros [= <-] _. left. intro. apply stateless_parseSpeak. }
  destruct (pystr_eqb (processedTagName name) (u "Mark")).
  { intros [= <-] _. left. intro. apply stateless_parseMark. }
  discriminate.
Qed.

(** The commands of the prosody attributes do not depend on the parser. *)
Lemma prosodyCommands_fst (isOpenTag : bool) (attrs : odict pystr) (s1 s2 : t) :
  fst (SsmlParser.prosodyCommands isOpenTag attrs s1)
  = fst (SsmlParser.prosodyCommands isOpenTag attrs s2).
Proof.
  revert s1 s2; induction attrs as [|[attr val] attrs IH]; intros s1 s2; [reflexivity|].
  rewrite !prosodyCommands_cons.
  destruct (RE_PERCENTAGE val) as [[ip fp]|]; [|apply IH]. cbv zeta.
  pose proof (IH s1 s2) as E.
  destruct (pystr_eqb attr (u "pitch"));
    [|destruct (pystr_eqb attr (u "volume"));
      [|destruct (pystr_eqb attr (u "rate")); [|apply IH]]];
    destruct (SsmlParser.prosodyCommands isOpenTag attrs s1) as [cs1 t1];
    destruct (SsmlParser.prosodyCommands isOpenTag attrs s2) as [cs2 t2];
    simpl in *; now rewrite E.
Qed.

Lemma fold_add_item_cmds (cs : list SpeechCommand) (s : SpeechSequence) :
  fold_left add_item (map Cmd cs) s = fold_left add_command cs s.
Proof. revert s; induction cs as [|c cs IH]; intro s; simpl; [reflexivity | apply IH]. Qed.

Lemma element_commands_stateless (this : SsmlParser.self_t) (name : pystr)
    (attrs : odict pystr) (g : SsmlParser.generator) (opening : bool) :
  SsmlParser.parse this (processedTagName name) = Some g ->
  stateless_at g (if opening then Some attrs else None) ->
  forall self, exists self',
    g (if opening then Some attrs else None) self
    = Ok (element_commands this name attrs opening, self')
    /\ untouched self self'.
Proof.
  intros Eg Hg self. unfold element_commands. rewrite Eg.
  destruct Hg as [cs H].
  destruct (H (SpeechXmlParser.mk [] [attrs] [])) as (? & -> & _).
  apply H.
Qed.

Lemma element_commands_prosody (this : SsmlParser.self_t) (name : pystr)
    (attrs : odict pystr) (opening : bool) (self : t) :
  SsmlParser.parse this (processedTagName name) = Some SsmlParser.parseProsody ->
  element_commands this name attrs opening
  = fst (SsmlParser.prosodyCommands opening attrs self).
Proof.
  intro Eg. unfold element_commands. rewrite Eg.
  destruct opening; unfold SsmlParser.parseProsody; simpl.
  - rewrite (prosodyCommands_fst true attrs self
               (SpeechXmlParser.mk [] [attrs; attrs] [])).
    now destruct (SsmlParser.prosodyCommands true attrs _).
  - rewrite (prosodyCommands_fst false attrs self (SpeechXmlParser.mk [] [] [])).
    now destruct (SsmlParser.prosodyCommands false attrs _).
Qed.

(** The handlers of an element: the start tag, the events of the children,
    the end tag.  The end tag of a prosody element finds the attributes of
    its own start tag in the cache. *)
Lemma handle_element_items (this : SsmlParser.self_t) (name : pystr) (attrs : odict pystr)
    (inner : list xmlevent) (items : list item) :
  unreadable_start name attrs = false ->
  (forall self, exists self',
      handle_all (SsmlParser.parse this) self inner = Ok self'
      /\ _cachedProsodyAttrs self' = _cachedProsodyAttrs self
      /\ _speechSequence self' = fold_left add_item items (_speechSequence self)) ->
  forall self, exists self',
    handle_all (SsmlParser.parse this) self
      (StartElement name attrs :: inner ++ [EndElement name]) = Ok self'
    /\ _cachedProsodyAttrs self' = _cachedProsodyAttrs self
    /\ _speechSequence self'
       = fold_left add_item
           (map Cmd (element_commands this name attrs true) ++ items
              ++ map Cmd (element_commands this name attrs false))
           (_speechSequence self).
Proof.
  intros Hread Hinner self. rewrite !fold_left_app, !fold_add_item_cmds.
  simpl handle_all. unfold _elementHandler.
  destruct (SsmlParser.parse this (processedTagName name)) as [g|] eqn:Eg.
  - destruct (parse_stateless this name attrs g Eg Hread) as [Hg| ->].
    + destruct (element_commands_stateless this name attrs g true Eg (Hg true) self)
        as (s1 & E1 & Hs1 & Hc1).
      simpl in E1. rewrite E1.
      destruct (Hinner (set_sequence s1
                          (fold_left add_command (element_commands this name attrs true)
                             (_speechSequence s1))))
        as (s2 & E2 & Hc2 & Hs2).
      rewrite handle_all_app, E2. simpl handle_all. unfold _elementHandler. rewrite Eg.
      destruct (element_commands_stateless this name attrs g false Eg (Hg false) s2)
        as (s3 & E3 & Hs3 & Hc3).
      simpl in E3. rewrite E3.
      eexists. split; [reflexivity|]. simpl in *. split; [congruence|].
      now rewrite Hs3, Hs2, Hs1.
    + unfold SsmlParser.parseProsody at 1.
      set (st1 := SpeechXmlParser.mk (_speechSequence self)
                    (_cachedProsodyAttrs self ++ [attrs]) (log self)).
      destruct (prosodyCommands_untouched true attrs st1) as [[Hs1 Hc1] _].
      rewrite (element_commands_prosody this name attrs true st1 Eg).
      destruct (SsmlParser.prosodyCommands true attrs st1) as [cs1 s1].
      simpl in Hs1, Hc1. simpl fst.
      destruct (Hinner (set_sequence s1 (fold_left add_command cs1 (_speechSequence s1))))
        as (s2 & E2 & Hc2 & Hs2).
      rewrite handle_all_app, E2. simpl handle_all. unfold _elementHandler. rewrite Eg.
      simpl in Hc2, Hs2. rewrite Hc1 in Hc2.
      unfold SsmlParser.parseProsody. rewrite Hc2.
      destruct (_cachedProsodyAttrs self ++ [attrs]) as [|a l] eqn:El.
      { now destruct (_cachedProsodyAttrs self). }
      rewrite <- El, last_snoc, removelast_last.
      set (st3 := SpeechXmlParser.mk (_speechSequence s2) (_cachedProsodyAttrs self) (log s2)).
      destruct (prosodyCommands_untouched false attrs st3) as [[Hs3 Hc3] _].
      rewrite (element_commands_prosody this name attrs false st3 Eg).
      destruct (SsmlParser.prosodyCommands false attrs st3) as [cs3 s3].
      simpl in Hs3, Hc3. simpl fst.
      eexists. split; [reflexivity|]. split; [exact Hc3|].
      simpl. now rewrite Hs3, Hs2, Hs1.
  - destruct (Hinner (debugWarning self (UnsupportedTag name))) as (s2 & E2 & Hc2 & Hs2).
    rewrite handle_all_app, E2. simpl. unfold _elementHandler. rewrite Eg.
    eexists. split; [reflexivity|]. split; [exact Hc2|].
    unfold element_commands. rewrite Eg. exact Hs2.
Qed.

Lemma handle_children_items (this : SsmlParser.self_t) (children : list xmlnode) :
  Forall (fun n => forall self, exists self',
              handle_all (SsmlParser.parse this) self (events_of n) = Ok self'
              /\ _cachedProsodyAttrs self' = _cachedProsodyAttrs self
              /\ _speechSequence self'
                 = fold_left add_item (items_of this n) (_speechSequence self)) children ->
  forall self, exists self',
    handle_all (SsmlParser.parse this) self (flat_map events_of children) = Ok self'
    /\ _cachedProsodyAttrs self' = _cachedProsodyAttrs self
    /\ _speechSequence self'
       = fold_left add_item (flat_map (items_of this) children) (_speechSequence self).
Proof.
  induction 1 as [|n children Hn _ IH]; intro self; simpl.
  - now exists self.
  - destruct (Hn self) as (s1 & E1 & Hc1 & Hs1). destruct (IH s1) as (s2 & E2 & Hc2 & Hs2).
    exists s2. rewrite handle_all_app, E1. split; [exact E2|]. split; [congruence|].
    now rewrite fold_left_app, <- Hs1.
Qed.

Lemma handle_document_items (this : SsmlParser.self_t) (n : xmlnode) :
  readable n = true ->
  forall self, exists self',
    handle_all (SsmlParser.parse this) self (events_of n) = Ok self'
    /\ _cachedProsodyAttrs self' = _cachedProsodyAttrs self
    /\ _speechSequence self' = fold_left add_item (items_of this n) (_speechSequence self).
Proof.
  induction n as [name attrs children IH|data] using xmlnode_induction.
  - intro H. cbn [readable] in H. apply andb_true_iff in H as [Hstart Hchildren].
    apply negb_true_iff in Hstart.
    apply handle_element_items; [exact Hstart|]. apply handle_children_items.
    rewrite forallb_forall in Hchildren. rewrite Forall_forall in IH |- *.
    intros x Hx. apply (IH x Hx), Hchildren, Hx.
  - intros _ self. simpl. eexists. repeat split.
Qed.

(** X17. When the parser reports the events of a document whose element
    names and attribute values are ASCII strings, decoding returns the
    elements that the document adds, after the dedup rules: for an element,
    the commands of its start tag, what its children add, and the commands
    of its end tag; for character data, the string.  An element without a
    generator adds only what its children add, and the end tag of a prosody
    element resets the attributes of its own start tag, also inside other
    prosody elements.  The one document for which decoding returns nothing
    is that with a break element whose time has more than 4300 digits:
    int() raises in parseBreak, and convertFromXml raises ValueError with
    the markup. *)
Theorem decode_document
    (Parse : pystr -> option (list xmlevent)) (this : SsmlParser.self_t) (xml : pystr)
    (document : xmlnode) :
  Parse xml = Some (events_of document) ->
  ascii_node document = true ->
  SsmlParser.convertFromXml Parse this xml
  = if readable document then Ok (deduplicated (items_of this document))
    else Raise (ValueError (u "XML: " ++ xml)).
Proof.
  intros H _. unfold SsmlParser.convertFromXml, convertFromXml. rewrite H.
  destruct (readable document) eqn:Hr.
  - destruct (handle_document_items this document Hr (SpeechXmlParser.mk [] [] []))
      as (self' & -> & _ & ->).
    reflexivity.
  - now destruct (handle_unreadable_document this document Hr (SpeechXmlParser.mk [] [] []))
      as [e ->].
Qed.

Lemma decode_document_witness :
  readEvents nested_prosody_xml = Some (events_of nested_prosody_document)
  /\ ascii_node nested_prosody_document = true
  /\ readable nested_prosody_document = true
  /\ items_of (SsmlParser.mk false) nested_prosody_document
     = [Cmd (PitchCommand 1.2); Cmd (PitchCommand 1.5); Str (u "x"); Cmd (PitchCommand 1);
        Str (u "y"); Cmd (PitchCommand 1)]
  /\ deduplicated (items_of (SsmlParser.mk false) nested_prosody_document)
     = [Cmd (PitchCommand 1.5); Str (u "x"); Cmd (PitchCommand 1); Str (u "y")]
  /\ SsmlParser.convertFromXml readEvents (SsmlParser.mk false) nested_prosody_xml
     = Ok (deduplicated (items_of (SsmlParser.mk false) nested_prosody_document)).
Proof.
  split; [reflexivity|]. split; [reflexivity|]. split; [reflexivity|].
  split; [vm_compute; reflexivity|]. split; [vm_compute; reflexivity|].
  apply (decode_document readEvents (SsmlParser.mk false) nested_prosody_xml
           nested_prosody_document); reflexivity.
Defined.

(** ** The parser: what any events add to the speech sequence *)

Lemma int_of_digits_nonneg (ds : pystr) : 0 <= int_of_digits ds.
Proof.
  unfold int_of_digits, Z.of_uint. apply N2Z.is_nonneg.
Qed.

Lemma prosody_parser_item (this : SsmlParser.self_t) (c : SpeechCommand) :
  is_prosody c -> parser_item this (Cmd c) = true.
Proof. destruct c; simpl; try contradiction; reflexivity. Qed.

(** The commands of the generators of the class. *)
Lemma generator_commands (this : SsmlParser.self_t) (processed : pystr)
    (g : SsmlParser.generator) (attrs : option (odict pystr)) (self self' : t)
    (cs : list SpeechCommand) :
  SsmlParser.parse this processed = Some g ->
  g attrs self = Ok (cs, self') ->
  _speechSequence self' = _speechSequence self
  /\ forallb (parser_item this) (map Cmd cs) = true.
Proof.
  unfold SsmlParser.parse.
  destruct (pystr_eqb processed (u "SayAs")).
  { intros [= <-]. unfold SsmlParser.parseSayAs. intros [= <- <-]. now split. }
  destruct (pystr_eqb processed (u "Voice")).
  { intros [= <-]. unfold SsmlParser.parseVoice.
    destruct attrs as [attrs|]; [destruct (od_get attrs (u "xml:lang"))|];
      intros [= <- <-]; now split. }
  destruct (pystr_eqb processed (u "Break")).
  { intros [= <-]. unfold SsmlParser.parseBreak, py_int_of_digits.
    destruct attrs as [attrs|];
      [destruct (od_get attrs (u "time")) as [val|];
       [destruct (RE_TIME_MS val) as [ds|];
        [destruct (Z.of_nat (List.length ds) <=? int_max_str_digits)|]|]|];
      try discriminate; intros [= <- <-]; try (now split).
    split; [reflexivity|]. simpl. rewrite andb_true_r.
    apply Z.leb_le, int_of_digits_nonneg. }
  destruct (pystr_eqb processed (u "Prosody")).
  { intros [= <-]. unfold SsmlParser.parseProsody.
    assert (H : forall b a st,
               SsmlParser.prosodyCommands b a st = (cs, self') ->
               _speechSequence self' = _speechSequence st
               /\ forallb (parser_item this) (map Cmd cs) = true).
    { intros b a st E. destruct (prosodyCommands_untouched b a st) as [[Hs _] Hc].
      rewrite E in Hs, Hc. simpl in Hs, Hc. split; [exact Hs|].
      apply forallb_forall. intros x Hx. apply in_map_iff in Hx as (c & <- & Hc').
      rewrite Forall_forall in Hc. now apply prosody_parser_item, Hc. }
    destruct attrs as [attrs|].
    - intros [= E]. now apply H in E.
    - destruct (_cachedProsodyAttrs self); [discriminate|].
      intros [= E]. now apply H in E. }
  destruct (pystr_eqb processed (u "Speak")).
  { intros [= <-]. unfold SsmlParser.parseSpeak. intros [= <- <-]. now split. }
  destruct (pystr_eqb processed (u "Mark")).
  { intros [= <-]. unfold SsmlParser.parseMark.
    destruct attrs as [attrs|];
      [destruct (od_get attrs (u "name")); [destruct (SsmlParser._markCallback this) eqn:E|]|];
      intros [= <- <-]; try (now split).
    split; [reflexivity|]. simpl. now rewrite E. }
  discriminate.
Qed.

Lemma handle_adds (this : SsmlParser.self_t) (self self' : t) (ev : xmlevent) :
  handle (SsmlParser.parse this) self ev = Ok self' ->
  exists items,
    _speechSequence self' = fold_left add_item items (_speechSequence self)
    /\ item_texts items = event_texts [ev]
    /\ forallb (parser_item this) items = true.
Proof.
  assert (Hel : forall name attrs,
             _elementHandler (SsmlParser.parse this) self name attrs = Ok self' ->
             exists items,
               _speechSequence self' = fold_left add_item items (_speechSequence self)
               /\ item_texts items = []
               /\ forallb (parser_item this) items = true).
  { intros name attrs. unfold _elementHandler.
    destruct (SsmlParser.parse this (processedTagName name)) as [g|] eqn:Eg.
    - destruct (g attrs self) as [[cs s1]|e] eqn:E; [|discriminate].
      destruct (generator_commands this _ g attrs self s1 cs Eg E) as [Hs Hc].
      intros [= <-]. exists (map Cmd cs). simpl.
      rewrite fold_add_item_cmds, Hs. split; [reflexivity|]. split; [|exact Hc].
      clear. induction cs as [|c cs IH]; [reflexivity | exact IH].
    - intros [= <-]. now exists []. }
  destruct ev as [name attrs|name|data]; simpl.
  - apply Hel.
  - apply Hel.
  - intros [= <-]. now exists [Str data].
Qed.

Lemma item_texts_app (a b : SpeechSequence) :
  item_texts (a ++ b) = item_texts a ++ item_texts b.
Proof. apply flat_map_app. Qed.

Lemma event_texts_cons (ev : xmlevent) (events : list xmlevent) :
  event_texts (ev :: events) = event_texts [ev] ++ event_texts events.
Proof. unfold event_texts. simpl. now rewrite app_nil_r. Qed.

Lemma handle_all_adds (this : SsmlParser.self_t) (events : list xmlevent) (self self' : t) :
  handle_all (SsmlParser.parse this) self events = Ok self' ->
  exists items,
    _speechSequence self' = fold_left add_item items (_speechSequence self)
    /\ item_texts items = event_texts events
    /\ forallb (parser_item this) items = true.
Proof.
  revert self; induction events as [|ev events IH]; simpl; intros self.
  - intros [= <-]. now exists [].
  - destruct (handle (SsmlParser.parse this) self ev) as [s1|] eqn:E; [|discriminate].
    intro H. destruct (handle_adds this self s1 ev E) as (i1 & Hs1 & Ht1 & Hp1).
    destruct (IH s1 H) as (i2 & Hs2 & Ht2 & Hp2).
    exists (i1 ++ i2). rewrite fold_left_app, <- Hs1, Hs2.
    split; [reflexivity|]. split.
    + now rewrite item_texts_app, Ht1, Ht2, <- event_texts_cons.
    + now rewrite forallb_app, Hp1, Hp2.
Qed.

Lemma item_texts_drop_same (c : SpeechCommand) (s : SpeechSequence) :
  item_texts (drop_same c s) = item_texts s.
Proof.
  destruct (snoc_cases s) as [->|(l & x & ->)]; [reflexivity|].
  rewrite drop_same_snoc. destruct (item_has_type c x) eqn:E; [|reflexivity].
  rewrite item_texts_app. destruct x; try discriminate. simpl. now rewrite app_nil_r.
Qed.

Lemma item_texts_add_item (s : SpeechSequence) (it : item) :
  item_texts (add_item s it) = item_texts s ++ item_texts [it].
Proof.
  destruct it as [t|c| |?];
    [apply item_texts_app | | apply item_texts_app | apply item_texts_app].
  change (add_item s (Cmd c)) with (add_command s c).
  change (item_texts [Cmd c]) with (@nil pystr).
  rewrite add_command_drop_same, app_nil_r.
  destruct (match find (item_has_type c) (rev (drop_same c s)) with
            | Some (Cmd p) => negb (cmd_eqb p c)
            | _ => true
            end).
  - rewrite item_texts_app, item_texts_drop_same. apply app_nil_r.
  - apply item_texts_drop_same.
Qed.

Lemma item_texts_fold_add_item (items s : SpeechSequence) :
  item_texts (fold_left add_item items s) = item_texts s ++ item_texts items.
Proof.
  revert s; induction items as [|it items IH]; intro s; simpl.
  - now rewrite app_nil_r.
  - rewrite IH, item_texts_add_item, <- app_assoc. f_equal.
    unfold item_texts. simpl. now rewrite app_nil_r.
Qed.

(** X18. For events whose element names and attribute values are ASCII
    strings, the strings of the decoded sequence are the character data
    that the parser reported, one string for each report and in the same
    order: no text is lost to the dedup rules.  Its commands are
    CharacterMode, LangChange (with a language), Break (with a duration
    that is not negative), Pitch, Rate and Volume commands, and Callback
    commands only when a mark callback was given: never an Index or a
    Phoneme command. *)
Theorem decoded_texts_and_commands
    (Parse : pystr -> option (list xmlevent)) (this : SsmlParser.self_t) (xml : pystr)
    (events : list xmlevent) (speechSequence : SpeechSequence) :
  Parse xml = Some events ->
  forallb ascii_event events = true ->
  SsmlParser.convertFromXml Parse this xml = Ok speechSequence ->
  item_texts speechSequence = event_texts events
  /\ forallb (parser_item this) speechSequence = true.
Proof.
  intros HP _. unfold SsmlParser.convertFromXml, convertFromXml. rewrite HP.
  destruct (handle_all (SsmlParser.parse this) (SpeechXmlParser.mk [] [] []) events)
    as [self'|] eqn:E; [|discriminate].
  intros [= <-]. destruct (handle_all_adds this events _ self' E) as (items & -> & Ht & Hp).
  simpl. split.
  - now rewrite item_texts_fold_add_item.
  - now apply fold_add_item_forallb.
Qed.

Lemma decoded_texts_and_commands_witness :
  let xml := u "<speak>a<mark name=" ++ dquote ++ u "1" ++ dquote
               ++ u "/><phoneme ph=" ++ dquote ++ u "x" ++ dquote ++ u ">b</phoneme></speak>" in
  let events := [StartElement (u "speak") []; CharacterData (u "a");
                 StartElement (u "mark") [(u "name", u "1")]; EndElement (u "mark");
                 StartElement (u "phoneme") [(u "ph", u "x")]; CharacterData (u "b");
                 EndElement (u "phoneme"); EndElement (u "speak")] in
  readEvents xml = Some events
  /\ forallb ascii_event events = true
  /\ SsmlParser.convertFromXml readEvents (SsmlParser.mk false) xml
     = Ok [Str (u "a"); Str (u "b")]
  /\ item_texts [Str (u "a"); Str (u "b")] = event_texts events
  /\ forallb (parser_item (SsmlParser.mk false)) [Str (u "a"); Str (u "b")] = true.
Proof.
  split; [vm_compute; reflexivity|]. split; [reflexivity|].
  split; [vm_compute; reflexivity|].
  apply (decoded_texts_and_commands readEvents (SsmlParser.mk false)
           (u "<speak>a<mark name=" ++ dquote ++ u "1" ++ dquote
              ++ u "/><phoneme ph=" ++ dquote ++ u "x" ++ dquote ++ u ">b</phoneme></speak>")
           [StartElement (u "speak") []; CharacterData (u "a");
            StartElement (u "mark") [(u "name", u "1")]; EndElement (u "mark");
            StartElement (u "phoneme") [(u "ph", u "x")]; CharacterData (u "b");
            EndElement (u "phoneme"); EndElement (u "speak")]
           [Str (u "a"); Str (u "b")]);
    vm_compute; reflexivity.
Defined.

(** ** The parser: the dedup rules *)

Lemma add_command_differs (s : SpeechSequence) (c : SpeechCommand) :
  add_command s c = s ++ [Cmd c] ->
  match find (item_has_type c) (rev s) with
  | Some (Cmd p) => negb (cmd_eqb p c)
  | _ => true
  end = true.
Proof.
  intro H. pose proof (add_command_appends s c H) as Hd.
  rewrite add_command_drop_same, Hd in H.
  destruct (match find (item_has_type c) (rev s) with
            | Some (Cmd p) => negb (cmd_eqb p c)
            | _ => true
            end); [reflexivity|].
  apply (f_equal (@List.length item)) in H. rewrite length_app in H. simpl in H. lia.
Qed.

Lemma settled_never_repeats (s : SpeechSequence) : settled s -> never_repeats s = true.
Proof.
  unfold never_repeats. induction 1 as [|s it H IH Hit|s c H IH Hadd].
  - reflexivity.
  - rewrite rev_app_distr. simpl. rewrite IH.
    destruct it as [t|c| |?]; try reflexivity. now contradiction (Hit c).
  - rewrite rev_app_distr. simpl. now rewrite IH, (add_command_differs s c Hadd).
Qed.

Lemma no_neighbours_snoc (s : SpeechSequence) (x : item) :
  no_neighbours_of_a_class (s ++ [x])
  = no_neighbours_of_a_class s
    && match last s Unknown, x with
       | Cmd a, Cmd b => negb (same_type a b)
       | _, _ => true
       end.
Proof.
  induction s as [|y s IH]; [now destruct x|].
  destruct s as [|z s].
  - simpl. destruct y, x; simpl; now rewrite ?andb_true_r.
  - change (no_neighbours_of_a_class ((y :: z :: s) ++ [x]))
      with (match y with Cmd a => match z with Cmd b => negb (same_type a b) | _ => true end
                       | _ => true end
            && no_neighbours_of_a_class ((z :: s) ++ [x])).
    rewrite IH.
    change (no_neighbours_of_a_class (y :: z :: s))
      with (match y with Cmd a => match z with Cmd b => negb (same_type a b) | _ => true end
                       | _ => true end
            && no_neighbours_of_a_class (z :: s)).
    change (last (y :: z :: s) Unknown) with (last (z :: s) Unknown).
    now rewrite andb_assoc.
Qed.

Lemma drop_same_last (c : SpeechCommand) (s : SpeechSequence) :
  drop_same c s = s ->
  match last s Unknown with
  | Cmd a => negb (same_type a c)
  | _ => true
  end = true.
Proof.
  destruct (snoc_cases s) as [->|(l & x & ->)]; [reflexivity|].
  rewrite drop_same_snoc, last_last. destruct (item_has_type c x) eqn:E.
  - intro H. apply (f_equal (@List.length item)) in H. rewrite length_app in H.
    simpl in H. lia.
  - intros _. destruct x; try reflexivity. simpl in E. now rewrite E.
Qed.

Lemma settled_no_neighbours (s : SpeechSequence) :
  settled s -> no_neighbours_of_a_class s = true.
Proof.
  induction 1 as [|s it H IH Hit|s c H IH Hadd].
  - reflexivity.
  - rewrite no_neighbours_snoc, IH.
    destruct it as [t|c| |?]; try now destruct (last s Unknown). now contradiction (Hit c).
  - rewrite no_neighbours_snoc, IH. simpl.
    apply add_command_appends, drop_same_last in Hadd.
    now destruct (last s Unknown).
Qed.

(** X19. In a decoded sequence no two neighbours are commands of the same
    class, and no command is equal to the command of its class that comes
    before it, whatever lies between them; to apply the dedup rules to the
    sequence again changes nothing.  (For events whose element names and
    attribute values are ASCII strings.) *)
Theorem decoded_sequence_never_repeats
    (Parse : pystr -> option (list xmlevent)) (this : SsmlParser.self_t) (xml : pystr)
    (events : list xmlevent) (speechSequence : SpeechSequence) :
  Parse xml = Some events ->
  forallb ascii_event events = true ->
  SsmlParser.convertFromXml Parse this xml = Ok speechSequence ->
  no_neighbours_of_a_class speechSequence = true
  /\ never_repeats speechSequence = true
  /\ deduplicated speechSequence = speechSequence.
Proof.
  intros HP _. unfold SsmlParser.convertFromXml, convertFromXml. rewrite HP.
  destruct (handle_all (SsmlParser.parse this) (SpeechXmlParser.mk [] [] []) events)
    as [self'|] eqn:E; [|discriminate].
  intros [= <-]. destruct (handle_all_adds this events _ self' E) as (items & Hs & _).
  simpl in Hs.
  assert (H : settled (_speechSequence self')).
  { rewrite Hs. apply fold_add_item_settled, settled_nil. }
  split; [now apply settled_no_neighbours|].
  split; [now apply settled_never_repeats | now apply settled_deduplicated].
Qed.

Lemma decoded_sequence_never_repeats_witness :
  let xml := u "<speak><break time=" ++ dquote ++ u "5ms" ++ dquote
               ++ u "/><break time=" ++ dquote ++ u "7ms" ++ dquote
               ++ u "/>a<break time=" ++ dquote ++ u "7ms" ++ dquote ++ u "/></speak>" in
  let events := [StartElement (u "speak") [];
                 StartElement (u "break") [(u "time", u "5ms")]; EndElement (u "break");
                 StartElement (u "break") [(u "time", u "7ms")]; EndElement (u "break");
                 CharacterData (u "a");
                 StartElement (u "break") [(u "time", u "7ms")]; EndElement (u "break");
                 EndElement (u "speak")] in
  readEvents xml = Some events
  /\ forallb ascii_event events = true
  /\ SsmlParser.convertFromXml readEvents (SsmlParser.mk false) xml
     = Ok [Cmd (BreakCommand 7); Str (u "a")]
  /\ no_neighbours_of_a_class [Cmd (BreakCommand 7); Str (u "a")] = true
  /\ never_repeats [Cmd (BreakCommand 7); Str (u "a")] = true
  /\ deduplicated [Cmd (BreakCommand 7); Str (u "a")] = [Cmd (BreakCommand 7); Str (u "a")].
Proof.
  split; [vm_compute; reflexivity|]. split; [reflexivity|].
  split; [vm_compute; reflexivity|].
  apply (decoded_sequence_never_repeats readEvents (SsmlParser.mk false)
           (u "<speak><break time=" ++ dquote ++ u "5ms" ++ dquote
              ++ u "/><break time=" ++ dquote ++ u "7ms" ++ dquote
              ++ u "/>a<break time=" ++ dquote ++ u "7ms" ++ dquote ++ u "/></speak>")
           [StartElement (u "speak") [];
            StartElement (u "break") [(u "time", u "5ms")]; EndElement (u "break");
            StartElement (u "break") [(u "time", u "7ms")]; EndElement (u "break");
            CharacterData (u "a");
            StartElement (u "break") [(u "time", u "7ms")]; EndElement (u "break");
            EndElement (u "speak")]
           [Cmd (BreakCommand 7); Str (u "a")]);
    vm_compute; reflexivity.
Defined.

(** ** The parser: names of elements *)

Lemma title_from_to_lower (prevCased : bool) (s : pystr) :
  title_from prevCased (map to_lower s) = title_from prevCased s
  /\ title_from prevCased (map to_upper s) = title_from prevCased s.
Proof.
  revert prevCased; induction s as [|c s IH]; intro b; simpl; [now split|].
  assert (Hc : to_lower (to_lower c) = to_lower c /\ to_upper (to_lower c) = to_upper c
               /\ to_lower (to_upper c) = to_lower c /\ to_upper (to_upper c) = to_upper c
               /\ is_cased (to_lower c) = is_cased c /\ is_cased (to_upper c) = is_cased c).
  { unfold to_lower, to_upper, is_cased, is_upper, is_lower, in_range.
    destruct (Z.leb_spec 65 c), (Z.leb_spec c 90), (Z.leb_spec 97 c), (Z.leb_spec c 122);
      simpl; try lia;
      repeat match goal with
             | |- context [?a <=? ?b] => destruct (Z.leb_spec a b); try lia
             end; simpl; repeat split; lia. }
  destruct Hc as (H1 & H2 & H3 & H4 & H5 & H6).
  destruct (IH (is_cased c)) as [IHl IHu].
  rewrite H5, H6, IHl, IHu. now destruct b; rewrite ?H1, ?H2, ?H3, ?H4.
Qed.

(** X20. The generator of an element is found by its name without regard
    to the case of its ASCII letters: the name in upper case and the name
    in lower case have the same processed name, and so the same generator,
    as the name itself. *)
Theorem tag_names_ignore_case (this : SsmlParser.self_t) (name : pystr) :
  ascii name = true ->
  processedTagName (map to_upper name) = processedTagName name
  /\ processedTagName (map to_lower name) = processedTagName name
  /\ SsmlParser.parse this (processedTagName (map to_upper name))
     = SsmlParser.parse this (processedTagName name)
  /\ SsmlParser.parse this (processedTagName (map to_lower name))
     = SsmlParser.parse this (processedTagName name).
Proof.
  intros _. unfold processedTagName, title.
  destruct (title_from_to_lower false name) as [-> ->]. repeat split.
Qed.

Lemma tag_names_ignore_case_witness :
  ascii (u "Say-As") = true
  /\ map to_upper (u "Say-As") = u "SAY-AS"
  /\ processedTagName (u "SAY-AS") = u "SayAs"
  /\ processedTagName (map to_upper (u "Say-As")) = processedTagName (u "Say-As").
Proof.
  split; [reflexivity|]. split; [reflexivity|]. split; [reflexivity|].
  apply (tag_names_ignore_case (SsmlParser.mk false) (u "Say-As")). reflexivity.
Defined.

(** ** The escaper *)

Lemma in_invalid_range_spec (c : Z) :
  in_invalid_range c = true
  <-> (0 <= c <= 8 \/ 11 <= c <= 12 \/ 14 <= c <= 31 \/ 127 <= c <= 132
       \/ 134 <= c <= 159 \/ 64976 <= c <= 64991 \/ 65534 <= c <= 65535).
Proof.
  unfold in_invalid_range, invalid_ranges, in_range. simpl.
  rewrite !orb_true_iff, !andb_true_iff, !Z.leb_le. intuition lia.
Qed.

Lemma leadingSurrogate_spec (c : Z) : leadingSurrogate c = true <-> 55296 <= c <= 56319.
Proof. unfold leadingSurrogate, in_range. rewrite andb_true_iff, !Z.leb_le. tauto. Qed.

Lemma trailingSurrogate_spec (c : Z) : trailingSurrogate c = true <-> 56320 <= c <= 57343.
Proof. unfold trailingSurrogate, in_range. rewrite andb_true_iff, !Z.leb_le. tauto. Qed.

(** A character that the regular expression never matches. *)
Lemma never_invalid (prev : option Z) (c : Z) (next : option Z) :
  in_invalid_range c = false -> leadingSurrogate c = false -> trailingSurrogate c = false ->
  invalid_at prev c next = false.
Proof. unfold invalid_at. now intros -> -> ->. Qed.

Lemma leading_not_else (c : Z) :
  leadingSurrogate c = true -> in_invalid_range c = false /\ trailingSurrogate c = false.
Proof.
  intro H. apply leadingSurrogate_spec in H. split.
  - destruct (in_invalid_range c) eqn:E; [|reflexivity].
    apply in_invalid_range_spec in E. lia.
  - destruct (trailingSurrogate c) eqn:E; [|reflexivity].
    apply trailingSurrogate_spec in E. lia.
Qed.

Lemma trailing_not_else (c : Z) :
  trailingSurrogate c = true -> in_invalid_range c = false /\ leadingSurrogate c = false.
Proof.
  intro H. apply trailingSurrogate_spec in H. split.
  - destruct (in_invalid_range c) eqn:E; [|reflexivity].
    apply in_invalid_range_spec in E. lia.
  - destruct (leadingSurrogate c) eqn:E; [|reflexivity].
    apply leadingSurrogate_spec in E. lia.
Qed.

(** A surrogate pair: neither half is matched. *)
Lemma pair_valid (prev : option Z) (c d : Z) (next : option Z) :
  leadingSurrogate c = true -> trailingSurrogate d = true ->
  invalid_at prev c (Some d) = false /\ invalid_at (Some c) d next = false.
Proof.
  intros Hc Hd. destruct (leading_not_else c Hc) as [Hc1 Hc2].
  destruct (trailing_not_else d Hd) as [Hd1 Hd2].
  unfold invalid_at. now rewrite Hc, Hd, Hc1, Hc2, Hd1, Hd2.
Qed.

Lemma sub_invalid_cons (prev : option Z) (c : Z) (rest : pystr) :
  sub_invalid prev (c :: rest)
  = (if invalid_at prev c (hd_error rest) then 0xFFFD else c) :: sub_invalid (Some c) rest.
Proof. simpl. now destruct (invalid_at prev c (hd_error rest)). Qed.

Lemma sub_invalid_length (prev : option Z) (text : pystr) :
  List.length (sub_invalid prev text) = List.length text.
Proof.
  revert prev; induction text as [|c rest IH]; intro prev; [reflexivity|].
  rewrite sub_invalid_cons. simpl. now rewrite IH.
Qed.

Lemma replacement_valid (prev next : option Z) : invalid_at prev 0xFFFD next = false.
Proof. now apply never_invalid. Qed.

(** What [sub] returns has no match. *)
Lemma sub_invalid_valid (text : pystr) (prev prev' : option Z) :
  match text with
  | c :: _ => trailingSurrogate c = true -> after_leading prev = true ->
              after_leading prev' = true
  | [] => True
  end ->
  valid_from prev' (sub_invalid prev text) = true.
Proof.
  revert prev prev'; induction text as [|c rest IH]; intros prev prev' Hrel; [reflexivity|].
  rewrite sub_invalid_cons. cbn [valid_from].
  apply andb_true_iff. split.
  - apply negb_true_iff.
    destruct (invalid_at prev c (hd_error rest)) eqn:Ec; [apply replacement_valid|].
    unfold invalid_at in Ec |- *.
    apply orb_false_iff in Ec as [Ec Etr]. apply orb_false_iff in Ec as [Ein Ele].
    rewrite Ein. simpl.
    destruct (leadingSurrogate c) eqn:Hl.
    + destruct (leading_not_else c Hl) as [_ Ht]. rewrite Ht. simpl.
      rewrite !andb_true_l in *. apply negb_false_iff in Ele.
      destruct rest as [|d rest']; [discriminate|]. simpl in Ele.
      rewrite sub_invalid_cons. simpl.
      destruct (pair_valid prev c d (hd_error rest') Hl Ele) as [_ ->].
      now rewrite Ele.
    + simpl. destruct (trailingSurrogate c) eqn:Ht; [|reflexivity].
      rewrite andb_true_l in *. apply negb_false_iff in Etr.
      apply negb_false_iff. now apply (Hrel eq_refl).
  - apply IH. destruct rest as [|d rest']; [exact I|].
    intros Hd Hc. simpl in Hc |- *.
    destruct (pair_valid prev c d (hd_error rest') Hc Hd) as [-> _]. exact Hc.
Qed.

Lemma sub_invalid_fixed (text : pystr) (prev : option Z) :
  sub_invalid prev text = text <-> valid_from prev text = true.
Proof.
  revert prev; induction text as [|c rest IH]; intro prev; [simpl; tauto|].
  rewrite sub_invalid_cons. cbn [valid_from]. rewrite andb_true_iff, <- IH, negb_true_iff.
  destruct (invalid_at prev c (hd_error rest)) eqn:E.
  - split; [|intros [H _]; discriminate].
    intro H. injection H as H _. subst c. now rewrite replacement_valid in E.
  - split; [intro H; injection H as H; now split | intros [_ ->]; reflexivity].
Qed.

Lemma translate_cons (c : Z) (rest : pystr) :
  translate XML_ESCAPES (c :: rest) = translated XML_ESCAPES c ++ translate XML_ESCAPES rest.
Proof. reflexivity. Qed.

(** What the escaper makes of one character: a reference for one of the
    four characters, the character itself for any other. *)
Lemma translated_cases (c : Z) :
  (c = 60 /\ translated XML_ESCAPES c = u "&lt;")
  \/ (c = 62 /\ translated XML_ESCAPES c = u "&gt;")
  \/ (c = 38 /\ translated XML_ESCAPES c = u "&amp;")
  \/ (c = 34 /\ translated XML_ESCAPES c = u "&quot;")
  \/ (c <> 60 /\ c <> 62 /\ c <> 38 /\ c <> 34
      /\ XML_ESCAPES c = None /\ translated XML_ESCAPES c = [c]).
Proof.
  unfold translated, XML_ESCAPES.
  destruct (Z.eqb_spec c 60); [now left|].
  destruct (Z.eqb_spec c 62); [right; now left|].
  destruct (Z.eqb_spec c 38); [right; right; now left|].
  destruct (Z.eqb_spec c 34); [right; right; right; now left|].
  right; right; right; right. repeat split; assumption.
Qed.

Lemma sub_invalid_reference (prev : option Z) (ref rest : pystr) :
  forallb (fun c => negb (in_invalid_range c || leadingSurrogate c || trailingSurrogate c)) ref
  = true ->
  ref <> [] ->
  sub_invalid prev (ref ++ rest) = ref ++ sub_invalid (Some (last ref 0)) rest.
Proof.
  revert prev; induction ref as [|c ref IH]; intros prev Hall Hne; [contradiction|].
  simpl in Hall. apply andb_true_iff in Hall as [Hc Hall].
  apply negb_true_iff in Hc. apply orb_false_iff in Hc as [Hc Ht].
  apply orb_false_iff in Hc as [Hi Hl].
  change ((c :: ref) ++ rest) with (c :: (ref ++ rest)).
  rewrite sub_invalid_cons, (never_invalid _ _ _ Hi Hl Ht).
  destruct ref as [|d ref]; [reflexivity|].
  rewrite IH by (try assumption; discriminate). reflexivity.
Qed.

(** The escaped text of a text that starts with one of the four
    characters: the reference, then the rest, escaped. *)
Lemma sub_invalid_translate_cons (prev : option Z) (c : Z) (rest : pystr) :
  XML_ESCAPES c <> None ->
  exists ref,
    translated XML_ESCAPES c = 38 :: ref ++ [59]
    /\ In ref [u "lt"; u "gt"; u "amp"; u "quot"]
    /\ sub_invalid prev (translate XML_ESCAPES (c :: rest))
       = 38 :: ref ++ [59] ++ sub_invalid (Some 59) (translate XML_ESCAPES rest).
Proof.
  intro Hc. rewrite translate_cons.
  destruct (translated_cases c) as [[_ E]|[[_ E]|[[_ E]|[[_ E]|(_ & _ & _ & _ & E & _)]]]];
    [| | | |contradiction]; rewrite E.
  - exists (u "lt"). split; [reflexivity|]. split; [simpl; tauto|].
    now rewrite sub_invalid_reference.
  - exists (u "gt"). split; [reflexivity|]. split; [simpl; tauto|].
    now rewrite sub_invalid_reference.
  - exists (u "amp"). split; [reflexivity|]. split; [simpl; tauto|].
    now rewrite sub_invalid_reference.
  - exists (u "quot"). split; [reflexivity|]. split; [simpl; tauto|].
    now rewrite sub_invalid_reference.
Qed.

Lemma escaped_from (prev : option Z) (text : pystr) :
  forallb (fun c => negb (is_markup c)) (sub_invalid prev (translate XML_ESCAPES text)) = true
  /\ references_only (sub_invalid prev (translate XML_ESCAPES text)) = true.
Proof.
  revert prev; induction text as [|c rest IH]; intro prev; [now split|].
  destruct (XML_ESCAPES c) as [r|] eqn:Ec.
  - destruct (sub_invalid_translate_cons prev c rest) as (ref & _ & Href & ->);
      [congruence|].
    destruct (IH (Some 59)) as [IH1 IH2].
    destruct Href as [<-|[<-|[<-|[<-|[]]]]]; simpl; now rewrite IH1, IH2.
  - rewrite translate_cons. unfold translated. rewrite Ec.
    change ([c] ++ translate XML_ESCAPES rest) with (c :: translate XML_ESCAPES rest).
    rewrite sub_invalid_cons. destruct (IH (Some c)) as [IH1 IH2].
    destruct (translated_cases c) as [[-> _]|[[-> _]|[[-> _]|[[-> _]|(H1 & H2 & H3 & H4 & _)]]]];
      try discriminate.
    cbn [forallb references_only]. rewrite IH1, IH2, !andb_true_r.
    destruct (invalid_at prev c (hd_error (translate XML_ESCAPES rest))).
    + now split.
    + unfold is_markup.
      apply Z.eqb_neq in H1, H2, H3, H4. now rewrite H1, H2, H3, H4.
Qed.

(** X21. The text that the escaper returns can stand as character data and
    inside an attribute value in double quotes: it has none of the
    characters <, > and double quote, each of its ampersands starts one of
    the references &lt; &gt; &amp; and &quot;, and it has no character that
    is invalid in XML and no surrogate without its other half. *)
Theorem escaped_text_is_safe (text : pystr) :
  forallb (fun c => negb (is_markup c)) (_escapeXml text) = true
  /\ references_only (_escapeXml text) = true
  /\ valid_from None (_escapeXml text) = true.
Proof.
  unfold _escapeXml. destruct (escaped_from None text) as [H1 H2].
  split; [exact H1|]. split; [exact H2|].
  apply sub_invalid_valid. now destruct (translate XML_ESCAPES text).
Qed.

Lemma translated_length (c : Z) :
  (1 <= List.length (translated XML_ESCAPES c))%nat
  /\ (List.length (translated XML_ESCAPES c) = 1%nat -> XML_ESCAPES c = None).
Proof.
  destruct (translated_cases c) as [[_ E]|[[_ E]|[[_ E]|[[_ E]|(_ & _ & _ & _ & E' & E)]]]];
    rewrite E; simpl; split; try lia; try discriminate. now intros _.
Qed.

Lemma translate_length (text : pystr) :
  (List.length text <= List.length (translate XML_ESCAPES text))%nat
  /\ (List.length (translate XML_ESCAPES text) = List.length text -> no_escapes text = true).
Proof.
  induction text as [|c rest [IH1 IH2]]; [now split|].
  rewrite translate_cons, length_app. destruct (translated_length c) as [H1 H2]. simpl.
  split; [lia|]. intro H.
  rewrite H2 by lia. apply IH2. lia.
Qed.

Lemma translate_no_escapes (text : pystr) :
  no_escapes text = true -> translate XML_ESCAPES text = text.
Proof.
  induction text as [|c rest IH]; [reflexivity|]. intro H.
  change (no_escapes (c :: rest))
    with (match XML_ESCAPES c with Some _ => false | None => true end && no_escapes rest) in H.
  apply andb_true_iff in H as [Hc H]. rewrite translate_cons, (IH H).
  unfold translated. now destruct (XML_ESCAPES c).
Qed.

(** X22. The escaper returns a text as it is exactly when the text has
    none of the characters <, >, & and double quote, no character that is
    invalid in XML and no surrogate without its other half. *)
Theorem escapeXml_leaves_clean_text (text : pystr) :
  _escapeXml text = text <-> no_escapes text = true /\ valid_from None text = true.
Proof.
  unfold _escapeXml. split.
  - intro H.
    assert (Hn : no_escapes text = true).
    { apply translate_length. apply (f_equal (@List.length Z)) in H.
      now rewrite sub_invalid_length in H. }
    split; [exact Hn|]. rewrite (translate_no_escapes text Hn) in H.
    now apply sub_invalid_fixed.
  - intros [Hn Hv]. rewrite (translate_no_escapes text Hn). now apply sub_invalid_fixed.
Qed.

(** *** Texts without invalid characters *)

Lemma invalid_at_ext (prev prev' : option Z) (c : Z) (next next' : option Z) :
  after_leading prev = after_leading prev' ->
  before_trailing next = before_trailing next' ->
  invalid_at prev c next = invalid_at prev' c next'.
Proof.
  intros Hp Hn.
  change (invalid_at prev c next)
    with (in_invalid_range c || leadingSurrogate c && negb (before_trailing next)
          || trailingSurrogate c && negb (after_leading prev)).
  now rewrite Hp, Hn.
Qed.

Lemma translated_head (c : Z) :
  exists h t, translated XML_ESCAPES c = h :: t
              /\ trailingSurrogate h = trailingSurrogate c
              /\ leadingSurrogate (last (h :: t) 0) = leadingSurrogate c.
Proof.
  destruct (translated_cases c)
    as [[-> E]|[[-> E]|[[-> E]|[[-> E]|(_ & _ & _ & _ & _ & E)]]]];
    rewrite E; eexists _, _; (split; [reflexivity|]); now split.
Qed.

Lemma before_trailing_translate (rest : pystr) :
  before_trailing (hd_error (translate XML_ESCAPES rest)) = before_trailing (hd_error rest).
Proof.
  destruct rest as [|d rest]; [reflexivity|]. rewrite translate_cons.
  destruct (translated_head d) as (h & t & -> & Hh & _). exact Hh.
Qed.

Lemma valid_from_reference (prev : option Z) (ref rest : pystr) :
  forallb (fun c => negb (in_invalid_range c || leadingSurrogate c || trailingSurrogate c)) ref
  = true ->
  ref <> [] ->
  valid_from prev (ref ++ rest) = valid_from (Some (last ref 0)) rest.
Proof.
  revert prev; induction ref as [|c ref IH]; intros prev Hall Hne; [contradiction|].
  simpl in Hall. apply andb_true_iff in Hall as [Hc Hall].
  apply negb_true_iff in Hc. apply orb_false_iff in Hc as [Hc Ht].
  apply orb_false_iff in Hc as [Hi Hl].
  change ((c :: ref) ++ rest) with (c :: (ref ++ rest)).
  cbn [valid_from]. rewrite (never_invalid _ _ _ Hi Hl Ht). simpl negb. rewrite andb_true_l.
  destruct ref as [|d ref]; [reflexivity|].
  rewrite IH by (try assumption; discriminate). reflexivity.
Qed.

(** To replace the four characters leaves a text without invalid
    characters without them. *)
Lemma translate_valid (text : pystr) (prev prev' : option Z) :
  after_leading prev = after_leading prev' ->
  valid_from prev text = true ->
  valid_from prev' (translate XML_ESCAPES text) = true.
Proof.
  revert prev prev'; induction text as [|c rest IH]; intros prev prev' Hp; [reflexivity|].
  cbn [valid_from]. intro H. apply andb_true_iff in H as [Hc Hrest].
  rewrite translate_cons.
  destruct (translated_cases c)
    as [[-> E]|[[-> E]|[[-> E]|[[-> E]|(_ & _ & _ & _ & _ & E)]]]]; rewrite E.
  - rewrite valid_from_reference by (reflexivity || discriminate).
    now apply (IH (Some 60)).
  - rewrite valid_from_reference by (reflexivity || discriminate).
    now apply (IH (Some 62)).
  - rewrite valid_from_reference by (reflexivity || discriminate).
    now apply (IH (Some 38)).
  - rewrite valid_from_reference by (reflexivity || discriminate).
    now apply (IH (Some 34)).
  - change ([c] ++ translate XML_ESCAPES rest) with (c :: translate XML_ESCAPES rest).
    cbn [valid_from].
    rewrite <- (invalid_at_ext prev prev' c (hd_error rest) _ Hp
                  (eq_sym (before_trailing_translate rest))).
    rewrite Hc. now apply (IH (Some c)).
Qed.

Lemma translated_inj (c d : Z) (x y : pystr) :
  translated XML_ESCAPES c ++ x = translated XML_ESCAPES d ++ y -> c = d /\ x = y.
Proof.
  destruct (translated_cases c)
    as [[-> Ec]|[[-> Ec]|[[-> Ec]|[[-> Ec]|(c1 & c2 & c3 & c4 & _ & Ec)]]]];
    destruct (translated_cases d)
      as [[-> Ed]|[[-> Ed]|[[-> Ed]|[[-> Ed]|(d1 & d2 & d3 & d4 & _ & Ed)]]]];
    rewrite ?Ec, ?Ed; simpl; intro H; try discriminate H;
    injection H; intros; subst; try contradiction; now split.
Qed.

Lemma translate_inj (a b : pystr) :
  translate XML_ESCAPES a = translate XML_ESCAPES b -> a = b.
Proof.
  revert b; induction a as [|c a IH]; intros [|d b]; [reflexivity| | |].
  - rewrite translate_cons. destruct (translated_head d) as (h & t & -> & _). discriminate.
  - rewrite translate_cons. destruct (translated_head c) as (h & t & -> & _). discriminate.
  - rewrite !translate_cons. intro H. apply translated_inj in H as [-> H].
    now rewrite (IH b H).
Qed.

(** X23. The escaper loses nothing of a text that has no character that is
    invalid in XML and no surrogate without its other half: two such texts
    with the same escaped text are the same text.  (Invalid characters are
    all replaced by the one replacement character.) *)
Theorem escapeXml_injective_on_valid_text (a b : pystr) :
  valid_from None a = true ->
  valid_from None b = true ->
  _escapeXml a = _escapeXml b ->
  a = b.
Proof.
  unfold _escapeXml. intros Ha Hb.
  rewrite (proj2 (sub_invalid_fixed _ None) (translate_valid a None None eq_refl Ha)).
  rewrite (proj2 (sub_invalid_fixed _ None) (translate_valid b None None eq_refl Hb)).
  apply translate_inj.
Qed.

Lemma escapeXml_injective_on_valid_text_witness :
  valid_from None (u "a<b") = true
  /\ _escapeXml (u "a<b") = u "a&lt;b"
  /\ _escapeXml [0] = _escapeXml [1]
  /\ (_escapeXml (u "a<b") = _escapeXml (u "a<b") -> u "a<b" = u "a<b").
Proof.
  split; [reflexivity|]. split; [reflexivity|]. split; [reflexivity|].
  apply (escapeXml_injective_on_valid_text (u "a<b") (u "a<b")); reflexivity.
Defined.

(** ** Marks *)


(** ** Round trips of texts, breaks and changes of language *)

(** *** The dedup rules and commands of one class *)





(** *** The balancer with the voice tag alone *)





(** *** Decoding the tokens of the voice tag *)








(** *** Encoding and decoding, element by element *)


Lemma handle_speak (this : SsmlParser.self_t) (st : t) (attrs : option (odict pystr)) :
  _elementHandler (SsmlParser.parse this) st (u "speak") attrs = Ok st.
Proof.
  unfold _elementHandler.
  replace (SsmlParser.parse this (processedTagName (u "speak")))
    with (Some SsmlParser.parseSpeak) by reflexivity.
  simpl. now rewrite set_sequence_same.
Qed.


(** Encoding, decoding and encoding again does not give the same markup:
    of two equal Break commands in a row the dedup rules keep one, so that
    the second markup has one break tag where the first has two. *)
Lemma repeated_breaks_are_encoded_once :
  let self := SsmlConverter.__init__ (u "en_US") in
  let speechSequence := [Cmd (BreakCommand 500); Cmd (BreakCommand 500)] in
  exists xml xml',
    SsmlConverter.convertToXml self speechSequence = Ok xml
    /\ SsmlParser.convertFromXml readEvents (SsmlParser.mk false) xml
       = Ok [Cmd (BreakCommand 500)]
    /\ deduplicated speechSequence = [Cmd (BreakCommand 500)]
    /\ SsmlConverter.convertToXml self [Cmd (BreakCommand 500)] = Ok xml'
    /\ xml' <> xml.
Proof.
  eexists. eexists. split; [reflexivity|]. split; [reflexivity|]. split; [reflexivity|].
  split; [reflexivity|]. vm_compute. discriminate.
Qed.



(** ** Character mode, there and back *)

Lemma find_last_command (c a : SpeechCommand) (texts : list pystr) :
  same_type a c = true ->
  find (item_has_type c) (rev (Cmd a :: map Str texts)) = Some (Cmd a).
Proof.
  intro H. simpl. induction texts as [|t texts IH] using rev_ind; simpl.
  - now rewrite H.
  - rewrite map_app, rev_app_distr. simpl. exact IH.
Qed.

Lemma add_command_after_texts (a c : SpeechCommand) (texts : list pystr) (t : pystr) :
  same_type a c = true ->
  add_command (Cmd a :: map Str (texts ++ [t])) c
  = if cmd_eqb a c then Cmd a :: map Str (texts ++ [t])
    else Cmd a :: map Str (texts ++ [t]) ++ [Cmd c].
Proof.
  intro H. rewrite add_command_drop_same.
  assert (Hd : drop_same c (Cmd a :: map Str (texts ++ [t])) = Cmd a :: map Str (texts ++ [t])).
  { rewrite map_app. change (Cmd a :: map Str texts ++ map Str [t])
      with ((Cmd a :: map Str texts) ++ [Str t]).
    now rewrite drop_same_snoc. }
  rewrite Hd, (find_last_command c a _ H). now destruct (cmd_eqb a c).
Qed.






(** ** Prosody, there and back *)

Lemma chomp_percent (s : pystr) : chomp (s ++ [37]) = s ++ [37].
Proof. unfold chomp. now rewrite rev_app_distr. Qed.

Lemma span_digits_percent (ds : pystr) :
  forallb is_digit ds = true -> span_digits (ds ++ [37]) = (ds, [37]).
Proof.
  induction ds as [|d ds IH]; [reflexivity|]. simpl. intro H.
  apply andb_true_iff in H as [Hd Hds]. now rewrite Hd, (IH Hds).
Qed.

Lemma RE_PERCENTAGE_str_of_int (n : Z) :
  0 <= n -> RE_PERCENTAGE (str_of_int n ++ u "%") = Some (str_of_int n, []).
Proof.
  intro Hn. destruct (str_of_int_nonneg n Hn) as (Hne & Hd & _).
  unfold RE_PERCENTAGE. change (u "%") with [37].
  rewrite chomp_percent, (span_digits_percent _ Hd).
  destruct (str_of_int n); [contradiction | reflexivity].
Qed.

Lemma prosodyCommands_single (isOpenTag : bool) (attr val ip fp : pystr)
    (c : SpeechCommand) (st : SpeechXmlParser.t) :
  RE_PERCENTAGE val = Some (ip, fp) ->
  prosody_command attr
    (if isOpenTag then (float_of_decimal ip fp / 100)%float else 1%float) = Some c ->
  SsmlParser.prosodyCommands isOpenTag [(attr, val)] st = ([c], st).
Proof.
  intros Hre Hc. rewrite prosodyCommands_cons, Hre. cbv zeta.
  unfold prosody_command in Hc. simpl.
  destruct (pystr_eqb attr (u "pitch")); [now injection Hc as <-|].
  destruct (pystr_eqb attr (u "volume")); [now injection Hc as <-|].
  destruct (pystr_eqb attr (u "rate")); [now injection Hc as <-|]. discriminate.
Qed.

Lemma generate_texts (convert : SpeechCommand -> option (result (option balcmd)))
    (texts : list pystr) :
  yielded (generateBalancerCommands convert (map Str texts)) = map Text texts
  /\ raised (generateBalancerCommands convert (map Str texts)) = None.
Proof.
  induction texts as [|t texts [IHy IHr]]; [now split|]. simpl. now rewrite IHy, IHr.
Qed.

Lemma feed_texts (texts : list pystr) (st : XmlBalancer.t) :
  _tagsChanged st = false -> _tagEnclosingText st = None ->
  fold_left feed (map Text texts) st
  = emits st (map (fun text => TText (_escapeXml text)) texts).
Proof.
  revert st; induction texts as [|t texts IH]; intros st Hc He.
  - unfold emits. simpl. rewrite app_nil_r. now destruct st.
  - cbn [map fold_left feed]. rewrite _outputTags_emits, Hc, _text_emits.
    unfold text_tokens, enclosing_text. rewrite He.
    rewrite IH by (simpl; assumption). unfold emits. simpl. now rewrite <- app_assoc.
Qed.

Lemma handle_character_data
    (parse : pystr -> option (option (odict pystr) -> t -> result (list SpeechCommand * t)))
    (texts : list pystr) (st : t) :
  handle_all parse st (map CharacterData texts)
  = Ok (set_sequence st (_speechSequence st ++ map Str texts)).
Proof.
  revert st; induction texts as [|t texts IH]; intro st.
  - simpl. now rewrite app_nil_r, set_sequence_same.
  - cbn [map handle_all handle]. rewrite IH. simpl. now rewrite <- app_assoc.
Qed.

Lemma plain_texts_escaped (texts : list pystr) :
  plain_texts texts = true -> map _escapeXml texts = texts.
Proof.
  induction texts as [|t texts IH]; [reflexivity|]. simpl. intro H.
  apply andb_true_iff in H as [Ht H]. apply pystr_eqb_eq in Ht. now rewrite Ht, IH.
Qed.

Lemma prosody_command_exists (command : SpeechCommand) (attr : pystr) (multiplier : float) :
  prosody_of command = Some (attr, multiplier) ->
  forall m, exists c, prosody_command attr m = Some c.
Proof.
  intros H m. destruct command; try discriminate; injection H as <- _; eexists; reflexivity.
Qed.

Lemma prosody_command_same_type (attr : pystr) (m1 m2 : float) (c1 c2 : SpeechCommand) :
  prosody_command attr m1 = Some c1 -> prosody_command attr m2 = Some c2 ->
  same_type c1 c2 = true.
Proof.
  unfold prosody_command.
  destruct (pystr_eqb attr (u "pitch")); [now intros [= <-] [= <-]|].
  destruct (pystr_eqb attr (u "volume")); [now intros [= <-] [= <-]|].
  destruct (pystr_eqb attr (u "rate")); [now intros [= <-] [= <-]|]. discriminate.
Qed.

Lemma convert_prosody (self : SsmlConverter.t) (command : SpeechCommand) (attr : pystr)
    (multiplier : float) (n : Z) :
  prosody_of command = Some (attr, multiplier) ->
  PrimFloat.eqb multiplier 1 = false ->
  py_int (multiplier * 100)%float = Ok n ->
  SsmlConverter.convert self command
  = Some (Ok (Some (SetAttrCommand (u "prosody") attr (VStr (str_of_int n ++ u "%"))))).
Proof.
  intros H Hone Hn.
  destruct command; try discriminate; injection H as <- <-; simpl;
    unfold SsmlConverter.convertPitchCommand, SsmlConverter.convertRateCommand,
      SsmlConverter.convertVolumeCommand, SsmlConverter._convertProsody;
    now rewrite Hone, Hn.
Qed.

Lemma handle_prosody_tokens (this : SsmlParser.self_t) (attr : pystr) (n : Z)
    (texts : list pystr) (back reset : SpeechCommand) :
  0 <= n ->
  plain_texts texts = true ->
  prosody_command attr (float_of_decimal (str_of_int n) [] / 100)%float = Some back ->
  prosody_command attr 1%float = Some reset ->
  handle_all (SsmlParser.parse this) (SpeechXmlParser.mk [] [] [])
    (flat_map events_of_token (prosody_tokens attr n texts))
  = Ok (SpeechXmlParser.mk (add_command (Cmd back :: map Str texts) reset) [] []).
Proof.
  intros Hn Hall Hback Hreset.
  pose proof (RE_PERCENTAGE_str_of_int n Hn) as Hre.
  unfold prosody_tokens.
  change (TOpen (u "prosody") (prosody_attrs attr n) false
            :: map (fun text => TText (_escapeXml text)) texts ++ [TClose (u "prosody")])
    with ([TOpen (u "prosody") (prosody_attrs attr n) false]
            ++ map (fun text => TText (_escapeXml text)) texts ++ [TClose (u "prosody")]).
  rewrite !flat_map_app.
  replace (flat_map events_of_token (map (fun text => TText (_escapeXml text)) texts))
    with (map CharacterData texts).
  2:{ rewrite <- (plain_texts_escaped texts Hall) at 1. rewrite map_map.
      clear. induction texts as [|t texts IH]; [reflexivity|]. simpl. now rewrite IH. }
  change (flat_map events_of_token [TOpen (u "prosody") (prosody_attrs attr n) false])
    with [StartElement (u "prosody") [(attr, str_of_int n ++ u "%")]].
  change (flat_map events_of_token [TClose (u "prosody")]) with [EndElement (u "prosody")].
  cbn [app handle_all handle]. unfold _elementHandler at 1.
  replace (SsmlParser.parse this (processedTagName (u "prosody")))
    with (Some SsmlParser.parseProsody) by reflexivity.
  unfold SsmlParser.parseProsody at 1. cbn [_speechSequence _cachedProsodyAttrs log app].
  rewrite (prosodyCommands_single true attr _ (str_of_int n) [] back _ Hre Hback).
  cbn [fold_left set_sequence _speechSequence _cachedProsodyAttrs log].
  rewrite handle_all_app, handle_character_data.
  cbn [set_sequence _speechSequence _cachedProsodyAttrs log handle_all handle].
  unfold _elementHandler.
  replace (SsmlParser.parse this (processedTagName (u "prosody")))
    with (Some SsmlParser.parseProsody) by reflexivity.
  unfold SsmlParser.parseProsody. cbn [_speechSequence _cachedProsodyAttrs log last removelast].
  rewrite (prosodyCommands_single false attr _ (str_of_int n) [] reset _ Hre Hreset).
  reflexivity.
Qed.

(** X27. Prosody, there and back: a Pitch, Rate or Volume command with a
    multiplier other than 1.0 whose hundredfold truncates to n >= 0,
    followed by a text that is not empty, needs no escaping and has no line
    break, is written as the text inside a prosody element with the
    attribute at n% (the default language of the converter being one that
    comes back as the value of an attribute).  The parser reporting the
    markup token by token, it is
    decoded as the command with the multiplier float(n) / 100, the text,
    and the command of the same class with the multiplier 1.0, which the
    end tag of the element yields; the dedup rules leave the last one out
    when float(n) / 100 is 1.0. *)
Theorem prosody_round_trip
    (Parse : pystr -> option (list xmlevent)) (self : SsmlConverter.t)
    (this : SsmlParser.self_t) (command : SpeechCommand) (attr : pystr)
    (multiplier : float) (n : Z) (text : pystr) :
  prosody_of command = Some (attr, multiplier) ->
  PrimFloat.eqb multiplier 1 = false ->
  py_int (multiplier * 100)%float = Ok n ->
  0 <= n ->
  spoken_text text = true ->
  spoken_value (SsmlConverter.defaultLanguage self) = true ->
  reports_tokens Parse self [Cmd command; Str text] ->
  exists xml back reset,
    SsmlConverter.convertToXml self [Cmd command; Str text] = Ok xml
    /\ tokens (yielded (SsmlConverter.generateBalancerCommands self [Cmd command; Str text]))
       = [TOpen (u "speak") (SsmlConverter.speakAttrs self) false;
          TOpen (u "prosody") (prosody_attrs attr n) false;
          TText text;
          TClose (u "prosody");
          TClose (u "speak")]
    /\ prosody_command attr (float_of_decimal (str_of_int n) [] / 100)%float = Some back
    /\ prosody_command attr 1%float = Some reset
    /\ SsmlParser.convertFromXml Parse this xml
       = Ok (Cmd back :: Str text :: (if cmd_eqb back reset then [] else [Cmd reset])).
Proof.
  intros Hp Hone Hint Hn Htext _ HParse.
  assert (Hall : plain_texts [text] = true).
  { unfold spoken_text in Htext. apply andb_true_iff in Htext as [Htext _].
    apply andb_true_iff in Htext as [_ Htext]. simpl. now rewrite Htext. }
  assert (Hesc : _escapeXml text = text).
  { simpl in Hall. rewrite andb_true_r in Hall. now apply pystr_eqb_eq. }
  destruct (prosody_command_exists command attr multiplier Hp
              (float_of_decimal (str_of_int n) [] / 100)%float) as [back Hback].
  destruct (prosody_command_exists command attr multiplier Hp 1%float) as [reset Hreset].
  pose proof (convert_prosody self command attr multiplier n Hp Hone Hint) as Hconv.
  assert (Htoks : tokens (yielded (SsmlConverter.generateBalancerCommands self
                                     [Cmd command; Str text]))
                  = TOpen (u "speak") (SsmlConverter.speakAttrs self) false
                      :: prosody_tokens attr n [text] ++ [TClose (u "speak")]).
  { unfold tokens, SsmlConverter.generateBalancerCommands.
    cbn [generateBalancerCommands]. rewrite Hconv.
    cbn [yield yielded fold_left].
    replace (feed (feed __init__ (EncloseAllCommand (u "speak") (SsmlConverter.speakAttrs self)))
               (SetAttrCommand (u "prosody") attr (VStr (str_of_int n ++ u "%"))))
      with (XmlBalancer.mk [TOpen (u "speak") (SsmlConverter.speakAttrs self) false]
              [u "speak"] true [] [(u "prosody", prosody_attrs attr n)] None)
      by reflexivity.
    replace (feed (XmlBalancer.mk [TOpen (u "speak") (SsmlConverter.speakAttrs self) false]
                     [u "speak"] true [] [(u "prosody", prosody_attrs attr n)] None)
               (Text text))
      with (XmlBalancer.mk [TOpen (u "speak") (SsmlConverter.speakAttrs self) false;
                            TOpen (u "prosody") (prosody_attrs attr n) false;
                            TText (_escapeXml text)]
              [u "speak"] false [u "prosody"] [(u "prosody", prosody_attrs attr n)] None)
      by (cbn [feed]; rewrite _outputTags_emits, _text_emits; reflexivity).
    reflexivity. }
  eexists; exists back, reset.
  split; [|split; [|split; [exact Hback|split; [exact Hreset|]]]].
  - unfold SsmlConverter.convertToXml, convertToXml, SsmlConverter.generateBalancerCommands.
    cbn [generateBalancerCommands]. rewrite Hconv. reflexivity.
  - rewrite Htoks. unfold prosody_tokens. simpl. now rewrite Hesc.
  - unfold SsmlParser.convertFromXml, convertFromXml.
    unfold reports_tokens in HParse. cbv zeta in HParse.
    change (generateXml ?x) with (render (tokens x)).
    unfold SsmlConverter.generateBalancerCommands in HParse, Htoks |- *.
    cbn [generateBalancerCommands] in HParse, Htoks |- *.
    rewrite Hconv in HParse. rewrite Hconv in Htoks. rewrite ?Hconv.
    cbn [yield yielded] in HParse, Htoks |- *.
    rewrite HParse, Htoks.
    change (TOpen (u "speak") (SsmlConverter.speakAttrs self) false
              :: prosody_tokens attr n [text] ++ [TClose (u "speak")])
      with ([TOpen (u "speak") (SsmlConverter.speakAttrs self) false]
              ++ prosody_tokens attr n [text] ++ [TClose (u "speak")]).
    rewrite !flat_map_app.
    change (flat_map events_of_token
              [TOpen (u "speak") (SsmlConverter.speakAttrs self) false])
      with [StartElement (u "speak")
              (map (fun av => (fst av, py_str (snd av))) (SsmlConverter.speakAttrs self))].
    cbn [app handle_all handle]. rewrite handle_speak, handle_all_app.
    rewrite (handle_prosody_tokens this attr n [text] back reset Hn Hall Hback Hreset).
    change (flat_map events_of_token [TClose (u "speak")]) with [EndElement (u "speak")].
    cbn [handle_all handle]. rewrite handle_speak. cbn [_speechSequence].
    pose proof (add_command_after_texts back reset [] text
                  (prosody_command_same_type attr _ _ back reset Hback Hreset)) as Hadd.
    cbn [app map] in Hadd |- *. rewrite Hadd.
    now destruct (cmd_eqb back reset).
Qed.

Lemma prosody_round_trip_witness :
  let self := SsmlConverter.__init__ (u "en_US") in
  exists xml back reset,
    SsmlConverter.convertToXml self [Cmd (PitchCommand 1.5); Str (u "hello")] = Ok xml
    /\ tokens (yielded (SsmlConverter.generateBalancerCommands self
                          [Cmd (PitchCommand 1.5); Str (u "hello")]))
       = [TOpen (u "speak") (SsmlConverter.speakAttrs self) false;
          TOpen (u "prosody") (prosody_attrs (u "pitch") 150) false;
          TText (u "hello");
          TClose (u "prosody");
          TClose (u "speak")]
    /\ prosody_command (u "pitch") (float_of_decimal (str_of_int 150) [] / 100)%float
       = Some back
    /\ prosody_command (u "pitch") 1%float = Some reset
    /\ SsmlParser.convertFromXml readEvents (SsmlParser.mk false) xml
       = Ok (Cmd back :: Str (u "hello") :: (if cmd_eqb back reset then [] else [Cmd reset])).
Proof.
  apply (prosody_round_trip readEvents (SsmlConverter.__init__ (u "en_US"))
           (SsmlParser.mk false) (PitchCommand 1.5) (u "pitch") 1.5%float 150 (u "hello"));
    [reflexivity | reflexivity | reflexivity | lia | reflexivity | reflexivity
    | reflexivity].
Defined.
